(** * PlayPDF: the playback scheduler of [App.tsx]

    A shallow embedding of the playback part of the React component
    [App]: [processFile], [stopPlayback], [startPlayback], the per-note
    [setTimeout] callbacks and the progress [setInterval] callback, run
    on an explicit model of the browser's event loop; then of
    [pdfToImages] ([utils/pdf.ts]), [parseScoreFromImages]
    ([services/gemini.ts]) and the computations of the visualizer.

    State.  The [useState] cells, the [useRef] cells and the browser's
    timer queue are three records threaded through every function.  An
    [async] function is cut at its [await]: the part before it is one
    function, the part after it another, run when the promise settles.
    Closures are data: a pending timer carries the values its callback
    captured.

    Time.  One clock, in seconds, drives both the timers and the audio
    context.  A timer fires when the trace says so, never before it is
    due.

    Numbers.  JavaScript numbers are IEEE doubles.  They are idealised
    here as exact rationals extended with [Infinity], [-Infinity] and
    [NaN]; rounding error and the sign of zero are not modelled. *)

From Stdlib Require Import QArith ZArith List String Bool Lia.
From Stdlib Require Import Qround.
From Stdlib Require Import Ascii Lqa Permutation.
Import ListNotations.
Open Scope Q_scope.

(** ** JavaScript numbers *)

Module JsNum.

Inductive num : Type :=
| Fin (q : Q)
| PosInf
| NegInf
| NaN.

(** Sign of a number that is not [NaN], as a [comparison] with zero. *)
Definition sign (x : num) : comparison :=
  match x with
  | Fin q => q ?= 0
  | PosInf => Gt
  | NegInf => Lt
  | NaN => Eq
  end.

Definition sign_mul (a b : comparison) : comparison :=
  match a, b with
  | Eq, _ | _, Eq => Eq
  | Gt, Gt | Lt, Lt => Gt
  | Gt, Lt | Lt, Gt => Lt
  end.

(** The infinity of a given sign; a zero sign stands for [0 * Infinity]
    and [0 / 0], which are [NaN]. *)
Definition inf_of (c : comparison) : num :=
  match c with
  | Gt => PosInf
  | Lt => NegInf
  | Eq => NaN
  end.

Definition is_nan (x : num) : bool :=
  match x with NaN => true | _ => false end.

(** [x * y] *)
Definition mul (x y : num) : num :=
  match x, y with
  | NaN, _ | _, NaN => NaN
  | Fin a, Fin b => Fin (Qred (a * b))
  | _, _ => inf_of (sign_mul (sign x) (sign y))
  end.

(** [x / y] *)
Definition div (x y : num) : num :=
  match x, y with
  | NaN, _ | _, NaN => NaN
  | Fin a, Fin b =>
      if Qeq_bool b 0 then inf_of (a ?= 0) else Fin (Qred (a / b))
  | Fin _, _ => Fin 0
  | _, Fin b => if Qeq_bool b 0 then x else inf_of (sign_mul (sign x) (sign y))
  | _, _ => NaN
  end.

(** [x + y] *)
Definition add (x y : num) : num :=
  match x, y with
  | NaN, _ | _, NaN => NaN
  | Fin a, Fin b => Fin (Qred (a + b))
  | Fin _, _ => y
  | _, Fin _ => x
  | PosInf, PosInf => PosInf
  | NegInf, NegInf => NegInf
  | _, _ => NaN
  end.

Definition neg (x : num) : num :=
  match x with
  | Fin a => Fin (Qred (- a))
  | PosInf => NegInf
  | NegInf => PosInf
  | NaN => NaN
  end.

(** [x - y] *)
Definition sub (x y : num) : num := add x (neg y).

(** [x > y]; every comparison with [NaN] is false. *)
Definition gt (x y : num) : bool :=
  match x, y with
  | NaN, _ | _, NaN => false
  | Fin a, Fin b => negb (Qle_bool a b)
  | PosInf, PosInf => false
  | PosInf, _ => true
  | _, NegInf => negb (match x with NegInf => true | _ => false end)
  | _, _ => false
  end.

(** Truthiness of a number: [0] and [NaN] are falsy. *)
Definition truthy (x : num) : bool :=
  match x with
  | Fin q => negb (Qeq_bool q 0)
  | NaN => false
  | _ => true
  end.

(** [x || d] on numbers. *)
Definition or_else (x d : num) : num := if truthy x then x else d.

(** Equality of numbers as values (rationals up to [Qeq]). *)
Definition num_eq (x y : num) : Prop :=
  match x, y with
  | Fin a, Fin b => a == b
  | PosInf, PosInf | NegInf, NegInf | NaN, NaN => True
  | _, _ => False
  end.

(** WebIDL conversion of a number to [long], the type of the [timeout]
    argument of [setTimeout]: [NaN] and the infinities become 0, the
    fraction is dropped, and the integer wraps modulo 2^32. *)
Definition to_int32 (x : num) : Z :=
  match x with
  | Fin q =>
      let i := Z.quot (Qnum q) (Z.pos (Qden q)) in
      ((i + 2147483648) mod 4294967296 - 2147483648)%Z
  | _ => 0%Z
  end.

End JsNum.

Import JsNum.

Definition of_Z (z : Z) : num := Fin (inject_Z z).

(** ** Data model ([types.ts]) *)

Inductive InstrumentName : Type :=
| acoustic_grand_piano
| acoustic_guitar_nylon
| acoustic_guitar_steel
| electric_guitar_jazz
| electric_guitar_clean
| distortion_guitar
| electric_bass_finger.

Record Note : Type := mkNote {
  pitch : string;
  time : num;        (* start, in beats *)
  duration : num     (* length, in beats *)
}.

Record Score : Type := mkScore {
  title : string;
  bpm : num;
  notes : list Note
}.

(** [a[i]] on an array: [undefined] (here [None]) outside the bounds. *)
Definition array_get {A : Type} (a : list A) (i : Z) : option A :=
  if (i <? 0)%Z then None else nth_error a (Z.to_nat i).

(** ** The browser side: timers, pending promises, the sound renderer *)

(** The closures handed to [setTimeout].  A note trigger closes over the
    [player] it was created for, its [note] and the [beatDuration]
    constant of the [startPlayback] call that made it. *)
Inductive Callback : Type :=
| NoteTrigger (player : nat) (note : Note) (beatDuration : num)
| ProcessingOff.

Record Timer : Type := mkTimer {
  timer_id : nat;
  due : Q;                 (* earliest instant it may fire, in seconds *)
  callback : Callback
}.

(** The progress interval of one [startPlayback] call, with the
    [beatDuration] and [score] its closure captured. *)
Record Interval : Type := mkInterval {
  interval_id : nat;
  next_due : Q;
  ibeat : num;
  iscore : Score
}.

(** A [startPlayback] call suspended at [await Soundfont.instrument],
    with the [score], [tempo] and [instrument] of the render whose
    closure is running. *)
Record Load : Type := mkLoad {
  lscore : Score;
  ltempo : num;
  linstrument : InstrumentName
}.

(** Calls received by the sound renderer. *)
Inductive Effect : Type :=
| Play (player : nat) (p : string) (when : Q) (seconds : num)
| StopAll (player : nat).

(** ** Component state *)

(** [useState] cells. *)
Record Ui : Type := mkUi {
  file : option string;
  pdfImages : list string;
  isProcessing : bool;
  score : option Score;
  instrument : InstrumentName;
  isPlaying : bool;
  currentTime : num;
  error : option string;
  tempo : num;
  analysisProgress : num
}.

(** [useRef] cells.  [audioContextRef] holds the instant at which the
    context was created: its [currentTime] counts seconds from there. *)
Record Refs : Type := mkRefs {
  audioContextRef : option Q;
  playerRef : option nat;
  playbackTimeoutRef : list nat;
  startTimeRef : Q;
  isPlayingRef : bool
}.

(** The event loop: clock, timer queue, suspended calls, and what the
    outside has observed. *)
Record Runtime : Type := mkRuntime {
  now : Q;
  timers : list Timer;
  intervals : list Interval;
  loads : list Load;
  parsing : nat;            (* [parseScoreFromImages] calls in flight *)
  nextId : nat;
  log : list Effect;
  uncaught : list string    (* exceptions no handler caught *)
}.

Record World : Type := mkWorld {
  ui : Ui;
  refs : Refs;
  rt : Runtime
}.

Definition initial : World :=
  mkWorld
    (mkUi None [] false None acoustic_guitar_nylon false (of_Z 0) None
          (of_Z 120) (of_Z 0))
    (mkRefs None None [] 0 false)
    (mkRuntime 0 [] [] [] 0 0 [] []).

(** *** Field updates *)

Definition on_ui (f : Ui -> Ui) (w : World) : World :=
  mkWorld (f (ui w)) (refs w) (rt w).
Definition on_refs (f : Refs -> Refs) (w : World) : World :=
  mkWorld (ui w) (f (refs w)) (rt w).
Definition on_rt (f : Runtime -> Runtime) (w : World) : World :=
  mkWorld (ui w) (refs w) (f (rt w)).

Definition setFile (v : option string) : World -> World :=
  on_ui (fun u => mkUi v (pdfImages u) (isProcessing u) (score u)
    (instrument u) (isPlaying u) (currentTime u) (error u) (tempo u)
    (analysisProgress u)).
Definition setPdfImages (v : list string) : World -> World :=
  on_ui (fun u => mkUi (file u) v (isProcessing u) (score u)
    (instrument u) (isPlaying u) (currentTime u) (error u) (tempo u)
    (analysisProgress u)).
Definition setIsProcessing (v : bool) : World -> World :=
  on_ui (fun u => mkUi (file u) (pdfImages u) v (score u)
    (instrument u) (isPlaying u) (currentTime u) (error u) (tempo u)
    (analysisProgress u)).
Definition setScore (v : option Score) : World -> World :=
  on_ui (fun u => mkUi (file u) (pdfImages u) (isProcessing u) v
    (instrument u) (isPlaying u) (currentTime u) (error u) (tempo u)
    (analysisProgress u)).
Definition setInstrument (v : InstrumentName) : World -> World :=
  on_ui (fun u => mkUi (file u) (pdfImages u) (isProcessing u) (score u)
    v (isPlaying u) (currentTime u) (error u) (tempo u)
    (analysisProgress u)).
Definition setIsPlaying (v : bool) : World -> World :=
  on_ui (fun u => mkUi (file u) (pdfImages u) (isProcessing u) (score u)
    (instrument u) v (currentTime u) (error u) (tempo u)
    (analysisProgress u)).
Definition setCurrentTime (v : num) : World -> World :=
  on_ui (fun u => mkUi (file u) (pdfImages u) (isProcessing u) (score u)
    (instrument u) (isPlaying u) v (error u) (tempo u)
    (analysisProgress u)).
Definition setError (v : option string) : World -> World :=
  on_ui (fun u => mkUi (file u) (pdfImages u) (isProcessing u) (score u)
    (instrument u) (isPlaying u) (currentTime u) v (tempo u)
    (analysisProgress u)).
Definition setTempo (v : num) : World -> World :=
  on_ui (fun u => mkUi (file u) (pdfImages u) (isProcessing u) (score u)
    (instrument u) (isPlaying u) (currentTime u) (error u) v
    (analysisProgress u)).
Definition setAnalysisProgress (v : num) : World -> World :=
  on_ui (fun u => mkUi (file u) (pdfImages u) (isProcessing u) (score u)
    (instrument u) (isPlaying u) (currentTime u) (error u) (tempo u) v).

Definition set_audioContextRef (v : option Q) : World -> World :=
  on_refs (fun r => mkRefs v (playerRef r) (playbackTimeoutRef r)
    (startTimeRef r) (isPlayingRef r)).
Definition set_playerRef (v : option nat) : World -> World :=
  on_refs (fun r => mkRefs (audioContextRef r) v (playbackTimeoutRef r)
    (startTimeRef r) (isPlayingRef r)).
Definition set_playbackTimeoutRef (v : list nat) : World -> World :=
  on_refs (fun r => mkRefs (audioContextRef r) (playerRef r) v
    (startTimeRef r) (isPlayingRef r)).
Definition set_startTimeRef (v : Q) : World -> World :=
  on_refs (fun r => mkRefs (audioContextRef r) (playerRef r)
    (playbackTimeoutRef r) v (isPlayingRef r)).
Definition set_isPlayingRef (v : bool) : World -> World :=
  on_refs (fun r => mkRefs (audioContextRef r) (playerRef r)
    (playbackTimeoutRef r) (startTimeRef r) v).

Definition set_now (v : Q) : World -> World :=
  on_rt (fun r => mkRuntime v (timers r) (intervals r) (loads r)
    (parsing r) (nextId r) (log r) (uncaught r)).
Definition set_timers (v : list Timer) : World -> World :=
  on_rt (fun r => mkRuntime (now r) v (intervals r) (loads r)
    (parsing r) (nextId r) (log r) (uncaught r)).
Definition set_intervals (v : list Interval) : World -> World :=
  on_rt (fun r => mkRuntime (now r) (timers r) v (loads r)
    (parsing r) (nextId r) (log r) (uncaught r)).
Definition set_loads (v : list Load) : World -> World :=
  on_rt (fun r => mkRuntime (now r) (timers r) (intervals r) v
    (parsing r) (nextId r) (log r) (uncaught r)).
Definition set_parsing (v : nat) : World -> World :=
  on_rt (fun r => mkRuntime (now r) (timers r) (intervals r) (loads r)
    v (nextId r) (log r) (uncaught r)).
Definition set_nextId (v : nat) : World -> World :=
  on_rt (fun r => mkRuntime (now r) (timers r) (intervals r) (loads r)
    (parsing r) v (log r) (uncaught r)).
Definition set_log (v : list Effect) : World -> World :=
  on_rt (fun r => mkRuntime (now r) (timers r) (intervals r) (loads r)
    (parsing r) (nextId r) v (uncaught r)).
Definition set_uncaught (v : list string) : World -> World :=
  on_rt (fun r => mkRuntime (now r) (timers r) (intervals r) (loads r)
    (parsing r) (nextId r) (log r) v).

(** ** Browser primitives *)

(** [audioContextRef.current.currentTime]; [None] when the ref is null
    (reading it would throw). *)
Definition audio_now (w : World) : option Q :=
  match audioContextRef (refs w) with
  | Some epoch => Some (Qred (now (rt w) - epoch))
  | None => None
  end.

(** [setTimeout(cb, delay)] with [delay] in milliseconds: the delay is
    converted to a 32-bit integer and a negative one counts as 0.
    Returns the handle. *)
Definition setTimeout (cb : Callback) (delay : num) (w : World)
  : nat * World :=
  let id := nextId (rt w) in
  let ms := Z.max 0 (to_int32 delay) in
  let t := mkTimer id (Qred (now (rt w) + inject_Z ms / 1000)) cb in
  (id, set_nextId (S id) (set_timers (timers (rt w) ++ [t]) w)).

(** [clearTimeout(id)] *)
Definition clearTimeout (id : nat) (w : World) : World :=
  set_timers
    (filter (fun t => negb (Nat.eqb (timer_id t) id)) (timers (rt w))) w.

(** [setInterval(cb, 50)] for the progress callback. *)
Definition setInterval (beat : num) (s : Score) (w : World) : World :=
  let id := nextId (rt w) in
  let i := mkInterval id (Qred (now (rt w) + 50 / 1000)) beat s in
  set_nextId (S id) (set_intervals (intervals (rt w) ++ [i]) w).

(** [clearInterval(id)] *)
Definition clearInterval (id : nat) (w : World) : World :=
  set_intervals
    (filter (fun i => negb (Nat.eqb (interval_id i) id)) (intervals (rt w)))
    w.

Definition emit (e : Effect) (w : World) : World :=
  set_log (log (rt w) ++ [e]) w.

Definition throw (msg : string) (w : World) : World :=
  set_uncaught (uncaught (rt w) ++ [msg]) w.

(** ** The component's functions ([App.tsx]) *)

(** [handleFileChange], with the outcome of [pdfToImages] given
    ([None]: it threw).  [sel] is the chosen file, if any: its name and
    whether its type is [application/pdf]. *)
Definition handleFileChange (sel : option (string * bool))
    (images : option (list string)) (w : World) : World :=
  match sel with
  | Some (name, true) =>
      let w := setFile (Some name) w in
      let w := setScore None w in
      let w := setPdfImages [] w in
      let w := setError None w in
      match images with
      | Some imgs => setPdfImages imgs w
      | None => setError (Some "Failed to load PDF preview."%string) w
      end
  | _ => setError (Some "Please upload a valid PDF file."%string) w
  end.

(** [processFile] up to [await parseScoreFromImages(pdfImages)]. *)
Definition processFile (w : World) : World :=
  match file (ui w), pdfImages (ui w) with
  | None, _ | _, [] => w
  | Some _, _ :: _ =>
      let w := setIsProcessing true w in
      let w := setAnalysisProgress (of_Z 0) w in
      let w := setError None w in
      set_parsing (S (parsing (rt w))) w
  end.

(** One tick of the simulated progress of [processFile]; [r] is the
    value of [Math.random()]. *)
Definition analysis_tick (r : Q) (w : World) : World :=
  let prev := analysisProgress (ui w) in
  if gt (of_Z 90) prev || is_nan prev
  then setAnalysisProgress (add prev (mul (Fin r) (of_Z 10))) w
  else w.

(** [processFile] from the point where [parseScoreFromImages] settles,
    with the parsed score or [None] when it threw. *)
Definition processFile_settled (res : option Score) (w : World) : World :=
  let w := set_parsing (pred (parsing (rt w))) w in
  let w :=
    match res with
    | Some parsedScore =>
        let w := setScore (Some parsedScore) w in
        let w := setTempo (or_else (bpm parsedScore) (of_Z 120)) w in
        setAnalysisProgress (of_Z 100) w
    | None =>
        setError (Some "Failed to process PDF. Please try again."%string) w
    end in
  snd (setTimeout ProcessingOff (of_Z 500) w).

(** [stopPlayback] *)
Definition stopPlayback (w : World) : World :=
  let w := set_isPlayingRef false w in
  let w := setIsPlaying false w in
  let w := fold_left (fun w id => clearTimeout id w)
             (playbackTimeoutRef (refs w)) w in
  let w := set_playbackTimeoutRef [] w in
  let w := match playerRef (refs w) with
           | Some p => emit (StopAll p) w
           | None => w
           end in
  setCurrentTime (of_Z 0) w.

(** [startPlayback] up to [await Soundfont.instrument(...)]. *)
Definition startPlayback (w : World) : World :=
  match score (ui w) with
  | None => w
  | Some s =>
      let w := match audioContextRef (refs w) with
               | None => set_audioContextRef (Some (now (rt w))) w
               | Some _ => w
               end in
      let w := setIsPlaying true w in
      let w := set_isPlayingRef true w in
      let w := match audio_now w with
               | Some t => set_startTimeRef t w
               | None => w
               end in
      set_loads
        (loads (rt w) ++ [mkLoad s (tempo (ui w)) (instrument (ui w))]) w
  end.

(** The body of [score.notes.forEach]: one [setTimeout] per note, its
    handle pushed on [playbackTimeoutRef.current]. *)
Definition schedule_note (player : nat) (beatDuration : num)
    (w : World) (note : Note) : World :=
  let '(timeout, w) :=
    setTimeout (NoteTrigger player note beatDuration)
      (mul (mul (time note) beatDuration) (of_Z 1000)) w in
  set_playbackTimeoutRef (playbackTimeoutRef (refs w) ++ [timeout]) w.

(** [const beatDuration = 60 / tempo] *)
Definition beatDuration (tempo : num) : num := div (of_Z 60) tempo.

(** [startPlayback] from the point where the instrument has loaded.
    The player returned is a fresh object. *)
Definition startPlayback_loaded (l : Load) (w : World) : World :=
  let player := nextId (rt w) in
  let w := set_nextId (S player) w in
  let w := set_playerRef (Some player) w in
  let beat := beatDuration (ltempo l) in
  let w := fold_left (schedule_note player beat) (notes (lscore l)) w in
  setInterval beat (lscore l) w.

(** The [catch] branch of [startPlayback]: the load was rejected. *)
Definition startPlayback_failed (w : World) : World := stopPlayback w.

(** The body of a timer callback. *)
Definition run_callback (cb : Callback) (w : World) : World :=
  match cb with
  | NoteTrigger player note beat =>
      if negb (isPlayingRef (refs w)) then w
      else match audio_now w with
           | Some t =>
               emit (Play player (pitch note) t (mul (duration note) beat)) w
           | None => throw "TypeError"%string w
           end
  | ProcessingOff => setIsProcessing false w
  end.

(** The body of the progress interval callback. *)
Definition progress_tick (i : Interval) (w : World) : World :=
  if negb (isPlayingRef (refs w)) then clearInterval (interval_id i) w
  else
    match audio_now w with
    | None => throw "TypeError"%string w
    | Some t =>
        let elapsed :=
          div (sub (Fin t) (Fin (startTimeRef (refs w)))) (ibeat i) in
        let w := setCurrentTime elapsed w in
        let ns := notes (iscore i) in
        match array_get ns (Z.of_nat (List.length ns) - 1) with
        | None => throw "TypeError: lastNote is undefined"%string w
        | Some lastNote =>
            if gt elapsed
                 (add (add (time lastNote) (duration lastNote)) (of_Z 1))
            then clearInterval (interval_id i) (stopPlayback w)
            else w
        end
    end.

(** ** The event loop *)

Inductive Event : Type :=
| FileChange (sel : option (string * bool)) (images : option (list string))
| ClickTranscribe
| AnalysisTick (r : Q)
| Transcribed (res : option Score)
| TempoSlider (v : Z)
| PickInstrument (i : InstrumentName)
| ClickPlay
| ClickStop
| InstrumentSettled (k : nat) (ok : bool)
| TimerFires (id : nat)
| IntervalFires (id : nat)
| Wait (dt : Q).

Definition remove_nth {A : Type} (k : nat) (l : list A) : list A :=
  firstn k l ++ skipn (S k) l.

Definition rearm (id : nat) (w : World) : World :=
  set_intervals
    (map (fun i =>
            if Nat.eqb (interval_id i) id
            then mkInterval id (Qred (next_due i + 50 / 1000))
                   (ibeat i) (iscore i)
            else i)
         (intervals (rt w))) w.

(** One turn of the event loop.  An event that cannot happen in [w] (a
    button that is not shown, a timer that is not pending or not yet
    due) leaves [w] as it is.  The play button is rendered only with a
    score, and shows Stop, bound to [stopPlayback], when [isPlaying]
    and Play, bound to [startPlayback], otherwise; Transcribe is
    disabled without a file or while processing; the tempo slider of
    range 60..180 calls [setTempo(parseInt(value))]. *)
Definition step (w : World) (e : Event) : World :=
  match e with
  | FileChange sel images => handleFileChange sel images w
  | ClickTranscribe =>
      match file (ui w) with
      | Some _ => if isProcessing (ui w) then w else processFile w
      | None => w
      end
  | AnalysisTick r =>
      if Nat.eqb (parsing (rt w)) 0 then w else analysis_tick r w
  | Transcribed res =>
      if Nat.eqb (parsing (rt w)) 0 then w else processFile_settled res w
  | TempoSlider v => setTempo (of_Z v) w
  | PickInstrument i => setInstrument i w
  | ClickPlay =>
      match score (ui w) with
      | Some _ => if isPlaying (ui w) then w else startPlayback w
      | None => w
      end
  | ClickStop =>
      match score (ui w) with
      | Some _ => if isPlaying (ui w) then stopPlayback w else w
      | None => w
      end
  | InstrumentSettled k ok =>
      match nth_error (loads (rt w)) k with
      | Some l =>
          let w := set_loads (remove_nth k (loads (rt w))) w in
          if ok then startPlayback_loaded l w else startPlayback_failed w
      | None => w
      end
  | TimerFires id =>
      match find (fun t => Nat.eqb (timer_id t) id) (timers (rt w)) with
      | Some t =>
          if Qle_bool (due t) (now (rt w))
          then run_callback (callback t) (clearTimeout id w)
          else w
      | None => w
      end
  | IntervalFires id =>
      match find (fun i => Nat.eqb (interval_id i) id) (intervals (rt w)) with
      | Some i =>
          if Qle_bool (next_due i) (now (rt w))
          then progress_tick i (rearm id w)
          else w
      | None => w
      end
  | Wait dt =>
      if Qle_bool 0 dt then set_now (Qred (now (rt w) + dt)) w else w
  end.

Definition run (w : World) (es : list Event) : World := fold_left step es w.

(** * Notions used in the statements *)

(** ** Tempo conversions

    The component has no separate conversion functions: the forward
    conversion is the product [note.time * beatDuration] in the timer
    delay, the inverse one the quotient
    [(currentTime - startTimeRef.current) / beatDuration] of the progress
    callback.  They are named here after their roles. *)

Definition beatsToSeconds (beats bpm : num) : num :=
  mul beats (beatDuration bpm).



(** ** Scheduling *)

Definition note (p : string) (t d : Q) : Note := mkNote p (Fin t) (Fin d).

(** Delay, in whole milliseconds, that [setTimeout] applies to the
    trigger of note [n]. *)
Definition trigger_delay_ms (beat : num) (n : Note) : Z :=
  Z.max 0 (to_int32 (mul (mul (time n) beat) (of_Z 1000))).

(** The timers made by the [forEach] loop run at instant [t0], the first
    handle being [id]. *)
Fixpoint timers_for (player : nat) (beat : num) (t0 : Q) (id : nat)
    (ns : list Note) : list Timer :=
  match ns with
  | [] => []
  | n :: rest =>
      mkTimer id (Qred (t0 + inject_Z (trigger_delay_ms beat n) / 1000))
              (NoteTrigger player n beat)
      :: timers_for player beat t0 (S id) rest
  end.

Definition is_trigger (t : Timer) : bool :=
  match callback t with NoteTrigger _ _ _ => true | ProcessingOff => false end.

(** The note triggers still in the timer queue. *)
Definition pending_triggers (w : World) : list Timer :=
  filter is_trigger (timers (rt w)).

(** [t] is one of the timers that [stopPlayback] clears. *)
Definition in_handles (ids : list nat) (t : Timer) : bool :=
  existsb (Nat.eqb (timer_id t)) ids.

(** Every note trigger in the timer queue has its handle on
    [playbackTimeoutRef.current]. *)
Definition triggers_registered (w : World) : Prop :=
  forall t,
    In t (timers (rt w)) ->
    is_trigger t = true ->
    In (timer_id t) (playbackTimeoutRef (refs w)).

Definition is_play (e : Effect) : bool :=
  match e with Play _ _ _ _ => true | StopAll _ => false end.

(** The notes the renderer was asked to play so far. *)
Definition plays (w : World) : list Effect := filter is_play (log (rt w)).

Definition silent_step (w w' : World) : Prop :=
  isPlayingRef (refs w') = false /\ plays w' = plays w.

(** Two states that differ at most in the [tempo] cell. *)
Definition same_but_tempo (w1 w2 : World) : Prop :=
  setTempo (of_Z 0) w1 = setTempo (of_Z 0) w2.

(** ** Completion *)

Definition num_max (x y : num) : num := if gt y x then y else x.

(** The end beat as the specification words it: the largest
    [startBeat + durationBeats] over all notes. *)
Definition spec_endBeat (ns : list Note) : num :=
  fold_left (fun m n => num_max m (add (time n) (duration n))) ns NegInf.

(** The note whose end the progress callback uses: the last one of the
    list, [undefined] for an empty list. *)
Definition lastNote (s : Score) : option Note :=
  array_get (notes s) (Z.of_nat (List.length (notes s)) - 1).

(** [lastNote.time + lastNote.duration + 1] *)
Definition completion_threshold (n : Note) : num :=
  add (add (time n) (duration n)) (of_Z 1).

(** [elapsed] as computed by a tick of interval [i] in [w]. *)
Definition elapsed_beats (i : Interval) (w : World) : option num :=
  match audio_now w with
  | Some t => Some (div (sub (Fin t) (Fin (startTimeRef (refs w)))) (ibeat i))
  | None => None
  end.

(** ** Scores and sessions used as examples *)

(** The component after a PDF was chosen and transcribed as [s]. *)
Definition transcribed (s : Score) : World :=
  run initial
    [FileChange (Some ("score.pdf"%string, true)) (Some ["page1"%string]);
     ClickTranscribe;
     Transcribed (Some s)].

Definition score_with_bpm (b : num) : Score :=
  mkScore "Etude"%string b [mkNote "E4"%string (of_Z 0) (Fin (1 # 2))].

Definition chord : Score :=
  mkScore "Chord"%string (of_Z 120)
    [note "C4" 0 1; note "E4" 0 1; note "G4" 1 1].

Definition ends_on_a4 : Score :=
  mkScore "Long"%string (of_Z 60) [note "C4" 0 1; note "A4" 10 2].

Definition long_first : Score :=
  mkScore "Pedal"%string (of_Z 60) [note "C4" 0 10; note "E4" 1 1].

Definition no_notes : Score := mkScore "Blank"%string (of_Z 120) [].

Definition backwards : Score :=
  mkScore "Backwards"%string (of_Z (-60)) [note "C4" 1 1].

Definition malformed : Score :=
  mkScore "Malformed"%string (of_Z 120)
    [note "C4" (-1) 1; note "D4" 1 (-2); note "E4" 1 1].

Definition solo : Score := mkScore "Solo"%string (of_Z 60) [note "A3" 2 1].

(** The playing session of [ends_on_a4] at 60 bpm, 13.05 seconds in,
    and its progress interval. *)
Definition a4_playing : World :=
  run (transcribed ends_on_a4)
    [ClickPlay; InstrumentSettled 0 true; Wait (261 # 20)].

Definition a4_interval : Interval :=
  mkInterval 4 (1 # 20) (Fin 1) ends_on_a4.

(** [chord] is playing when a second transcription, [solo], arrives. *)
Definition chord_playing_solo_loaded : World :=
  run (transcribed chord)
    [Wait (1 # 2); TimerFires 0; ClickTranscribe; ClickPlay;
     InstrumentSettled 0 true; Transcribed (Some solo)].

(** Play, Stop, the tempo slider moved from 120 to 60 and Play again,
    all while the instrument of the first call is still loading; half a
    second later the deferred end of the busy state runs, and after one
    second both loads have settled. *)
Definition restarted_during_load : World :=
  run (transcribed chord)
    [ClickPlay; ClickStop; TempoSlider 60; ClickPlay;
     Wait (1 # 2); TimerFires 0; Wait (1 # 2);
     InstrumentSettled 0 true; InstrumentSettled 0 true].

(** The timers and intervals that come due in [restarted_during_load]
    during the next 0.55 seconds, each run when it is due: the four
    triggers of beat 0, then every 50 ms the progress callbacks of both
    calls, and at 0.5 seconds the first call's trigger of beat 1. *)
Definition after_restart_schedule : list Event :=
  [TimerFires 2; TimerFires 3; TimerFires 7; TimerFires 8]
  ++ List.concat
       (repeat [Wait (1 # 20); IntervalFires 5; IntervalFires 10] 9)
  ++ [Wait (1 # 20); TimerFires 4; IntervalFires 5; IntervalFires 10;
      Wait (1 # 20); IntervalFires 5].

(** * Further notions *)

(** ** States between sessions, and handles *)

(** Nothing plays and the position shown is zero. *)
Definition idle_at_zero (w : World) : Prop :=
  isPlayingRef (refs w) = false
  /\ isPlaying (ui w) = false
  /\ currentTime (ui w) = of_Z 0.

(** The playing state shown and the flag the callbacks read agree. *)
Definition flags_agree (w : World) : Prop :=
  isPlaying (ui w) = isPlayingRef (refs w).

(** Every handle in use is below the next one to be given out. *)
Definition handles_fresh (w : World) : Prop :=
  (forall t, In t (timers (rt w)) -> (timer_id t < nextId (rt w))%nat)
  /\ (forall i, In i (intervals (rt w)) ->
        (interval_id i < nextId (rt w))%nat).

(** The simulated analysis progress is a percentage. *)
Definition progress_in_range (w : World) : Prop :=
  exists p, analysisProgress (ui w) = Fin p /\ 0 <= p /\ p <= 100.

(** Every value drawn from [Math.random()] lies in [[0, 1)]. *)
Definition random_in_range (es : list Event) : Prop :=
  forall r, In (AnalysisTick r) es -> 0 <= r /\ r < 1.

(** While the flag is up an audio context exists, and the recorded
    session start is not ahead of the audio clock. *)
Definition clock_ok (w : World) : Prop :=
  (isPlayingRef (refs w) = true -> audioContextRef (refs w) <> None)
  /\ (forall t, audio_now w = Some t -> startTimeRef (refs w) <= t).

(** Notes played so far plus note triggers still pending. *)
Definition played_or_pending (w : World) : nat :=
  (List.length (plays w) + List.length (pending_triggers w))%nat.

(** Events that are not the resumption of a [startPlayback] call whose
    instrument has loaded. *)
Definition no_load_completes (es : list Event) : Prop :=
  forall k, ~ In (InstrumentSettled k true) es.

(** ** What a session asks of the renderer *)

(** What the renderer is asked by effect [e], when it is a [play] of
    the player [player]: the pitch and the duration in seconds. *)
Definition play_request (player : nat) (e : Effect) : list (string * num) :=
  match e with
  | Play p pi _ seconds =>
      if Nat.eqb p player then [(pi, seconds)] else []
  | StopAll _ => []
  end.

(** What the pending timer [t] will ask of the renderer, when it is a
    note trigger of the player [player]. *)
Definition trigger_request (player : nat) (t : Timer)
  : list (string * num) :=
  match callback t with
  | NoteTrigger p n beat =>
      if Nat.eqb p player then [(pitch n, mul (duration n) beat)] else []
  | ProcessingOff => []
  end.

(** The requests made so far to [player], and those still pending. *)
Definition played_by (player : nat) (w : World) : list (string * num) :=
  flat_map (play_request player) (log (rt w)).

Definition pending_for (player : nat) (w : World) : list (string * num) :=
  flat_map (trigger_request player) (timers (rt w)).

(** One request per note of the score: its pitch, for
    [note.duration * beatDuration] seconds. *)
Definition score_requests (beat : num) (s : Score) : list (string * num) :=
  map (fun n => (pitch n, mul (duration n) beat)) (notes s).

(** Events other than a Play click and the settling of an instrument
    load. *)
Definition starts_no_session (e : Event) : bool :=
  match e with
  | ClickPlay | InstrumentSettled _ _ => false
  | _ => true
  end.

(** No two pending timers share a handle. *)
Definition handles_unique (w : World) : Prop :=
  NoDup (map timer_id (timers (rt w))).

(** Every player that a pending trigger or a past request names was
    created before the next handle to be given out. *)
Definition players_fresh (w : World) : Prop :=
  (forall t p n b,
      In t (timers (rt w)) -> callback t = NoteTrigger p n b ->
      (p < nextId (rt w))%nat)
  /\ (forall p pi a d,
        In (Play p pi a d) (log (rt w)) -> (p < nextId (rt w))%nat).

(** ** Results of calls that may throw *)

Inductive Outcome (A : Type) : Type :=
| Returned (a : A)
| Thrown (msg : string).

Arguments Returned {A} a.
Arguments Thrown {A} msg.

(** ** Page images ([utils/pdf.ts]) *)

(** [s.split(c)] for a one-character separator. *)
Fixpoint split_on (c : ascii) (s : string) : list string :=
  match s with
  | EmptyString => [EmptyString]
  | String a rest =>
      if Ascii.eqb a c then EmptyString :: split_on c rest
      else match split_on c rest with
           | h :: t => String a h :: t
           | [] => [String a EmptyString]
           end
  end.

(** [dataUrl.split(',')[1]]; [None] is [undefined]. *)
Definition base64_of (dataUrl : string) : option string :=
  nth_error (split_on ","%char dataUrl) 1.

(** What the body of the page loop meets for one page: no 2D context
    (the page is skipped), a rendered canvas with its data URL, or an
    exception from [getPage] or [render]. *)
Inductive PageOutcome : Type :=
| NoContext
| Rendered (dataUrl : string)
| PageFails (msg : string).

(** The loop [for (let i = 1; i <= pdf.numPages; i++)], with [images]
    the array built so far. *)
Fixpoint render_pages (pages : list PageOutcome)
    (images : list (option string)) : Outcome (list (option string)) :=
  match pages with
  | [] => Returned images
  | NoContext :: rest => render_pages rest images
  | Rendered dataUrl :: rest =>
      render_pages rest (images ++ [base64_of dataUrl])
  | PageFails msg :: _ => Thrown msg
  end.

(** [pdfToImages], given what [getDocument] yields: the pages, or an
    exception. *)
Definition pdfToImages (doc : Outcome (list PageOutcome))
  : Outcome (list (option string)) :=
  match doc with
  | Returned pages => render_pages pages []
  | Thrown msg => Thrown msg
  end.

(** The [src] of a page image in the viewer:
    [`data:image/png;base64,${img}`]. *)
Definition img_src (img : string) : string :=
  ("data:image/png;base64," ++ img)%string.

(** The data URLs of the pages that were rendered, in page order. *)
Fixpoint rendered_urls (pages : list PageOutcome) : list string :=
  match pages with
  | [] => []
  | Rendered dataUrl :: rest => dataUrl :: rendered_urls rest
  | _ :: rest => rendered_urls rest
  end.

Fixpoint page_failure (pages : list PageOutcome) : option string :=
  match pages with
  | [] => None
  | PageFails msg :: _ => Some msg
  | _ :: rest => page_failure rest
  end.

Fixpoint has_char (c : ascii) (s : string) : bool :=
  match s with
  | EmptyString => false
  | String a rest => Ascii.eqb a c || has_char c rest
  end.

(** ** The transcription request ([services/gemini.ts]) *)

Inductive Part : Type :=
| InlineData (mimeType : string) (data : string)
| TextPart (text : string).

Definition transcribe_prompt : string :=
  "Transcribe this music score/guitar tab into the specified JSON format. Include all notes from all pages provided."%string.

(** [imageParts] *)
Definition imageParts (base64Images : list string) : list Part :=
  map (fun data => InlineData "image/png"%string data) base64Images.

(** The [parts] of the one content of the request. *)
Definition request_parts (base64Images : list string) : list Part :=
  imageParts base64Images ++ [TextPart transcribe_prompt].

Section Gemini.

(** The service: from the parts of the request to [response.text]
    ([None]: undefined), or an exception. *)
Variable generateContent : list Part -> Outcome (option string).

(** [JSON.parse(text) as Score]: a score, or a [SyntaxError].  The
    cast is unchecked; the parsed value is taken to have the shape
    of the response schema. *)
Variable JSON_parse : string -> Outcome Score.

(** [parseScoreFromImages] *)
Definition parseScoreFromImages (base64Images : list string)
  : Outcome Score :=
  match generateContent (request_parts base64Images) with
  | Thrown msg => Thrown msg
  | Returned None => Thrown "No response from Gemini"%string
  | Returned (Some EmptyString) => Thrown "No response from Gemini"%string
  | Returned (Some text) => JSON_parse text
  end.

(** [processFile] from start to the end of its [finally] block, for
    a state in which it runs. *)
Definition processFile_whole (w : World) : World :=
  match file (ui w), pdfImages (ui w) with
  | None, _ | _, [] => w
  | Some _, _ :: _ =>
      match parseScoreFromImages (pdfImages (ui w)) with
      | Returned parsedScore =>
          processFile_settled (Some parsedScore) (processFile w)
      | Thrown _ => processFile_settled None (processFile w)
      end
  end.

(** [processFile] resumed in state [v] when the call
    [parseScoreFromImages(pdfImages)], made with the page images
    [imgs], settles: the [try] block after the [await], or the
    [catch] block, and then the [finally] block.  Between the call and
    [v] the simulated progress may have ticked. *)
Definition processFile_resumed (imgs : list string) (v : World) : World :=
  match parseScoreFromImages imgs with
  | Returned parsedScore => processFile_settled (Some parsedScore) v
  | Thrown _ => processFile_settled None v
  end.

End Gemini.

(** ** The visualizer ([App.tsx], render) *)

(** [x >= y] *)
Definition num_ge (x y : num) : bool :=
  match x, y with
  | NaN, _ | _, NaN => false
  | Fin a, Fin b => Qle_bool b a
  | PosInf, _ => true
  | _, NegInf => true
  | _, _ => false
  end.

(** [const xPos = 50 + (note.time - currentTime) * 100] *)
Definition xPos (n : Note) (ct : num) : num :=
  add (of_Z 50) (mul (sub (time n) ct) (of_Z 100)).

(** The bar of a note is rendered unless
    [xPos < -100 || xPos > 500]. *)
Definition note_drawn (n : Note) (ct : num) : bool :=
  negb (gt (of_Z (-100)) (xPos n ct) || gt (xPos n ct) (of_Z 500)).

(** [currentTime >= note.time && currentTime <= note.time + note.duration] *)
Definition note_active (n : Note) (ct : num) : bool :=
  num_ge ct (time n) && num_ge (add (time n) (duration n)) ct.

(** [s.charCodeAt(0)] of a string of ASCII characters. *)
Definition charCodeAt0 (s : string) : num :=
  match s with
  | EmptyString => NaN
  | String c _ => of_Z (Z.of_nat (nat_of_ascii c))
  end.

(** [s.slice(-1)] *)
Fixpoint slice_last (s : string) : string :=
  match s with
  | EmptyString => EmptyString
  | String c EmptyString => s
  | String _ rest => slice_last rest
  end.

Definition is_digit (c : ascii) : bool :=
  (48 <=? nat_of_ascii c)%nat && (nat_of_ascii c <=? 57)%nat.

(** [parseInt(s)] for a string of at most one character. *)
Definition parseInt_char (s : string) : num :=
  match s with
  | String c EmptyString =>
      if is_digit c then of_Z (Z.of_nat (nat_of_ascii c) - 48) else NaN
  | _ => NaN
  end.

(** The [top] of a note's bar, in pixels:
    [(72 - (pitch.charCodeAt(0) + parseInt(pitch.slice(-1)) * 12)) * 3 + 80]. *)
Definition pitch_top (p : string) : num :=
  add (mul (sub (of_Z 72)
                (add (charCodeAt0 p)
                     (mul (parseInt_char (slice_last p)) (of_Z 12))))
           (of_Z 3))
      (of_Z 80).

(** The status column of the note table in the earlier version of the
    component kept with [services/gemini.ts]:
    [currentTime > note.time + note.duration ? 'PAST' :
     currentTime > note.time ? 'ACTIVE' : 'PENDING']. *)
Inductive NoteStatus : Type := PAST | ACTIVE | PENDING.

Definition note_status (n : Note) (ct : num) : NoteStatus :=
  if gt ct (add (time n) (duration n)) then PAST
  else if gt ct (time n) then ACTIVE else PENDING.

(** * Properties *)

(** ** Arithmetic of the number model *)

Example div_60_120 : div (of_Z 60) (of_Z 120) = Fin (1 # 2).
Proof. reflexivity. Qed.

Example div_60_0 : div (of_Z 60) (of_Z 0) = PosInf.
Proof. reflexivity. Qed.

Example to_int32_500 : to_int32 (Fin 500) = 500%Z.
Proof. reflexivity. Qed.

Example to_int32_neg_half : to_int32 (Fin (- (3 # 2))) = (-1)%Z.
Proof. reflexivity. Qed.

(** ** Round trip of the tempo conversions *)

(** The delay of a trigger is the forward conversion of the note's
    start, in milliseconds. *)
Lemma schedule_note_delay (player : nat) (tempo : num) (w : World) (n : Note) :
  schedule_note player (beatDuration tempo) w n =
  (let '(id, w') :=
     setTimeout (NoteTrigger player n (beatDuration tempo))
       (mul (beatsToSeconds (time n) tempo) (of_Z 1000)) w in
   set_playbackTimeoutRef (playbackTimeoutRef (refs w') ++ [id]) w').
Proof. reflexivity. Qed.

Lemma Qeq_bool_pos (q : Q) : 0 < q -> Qeq_bool q 0 = false.
Proof.
  intros H. destruct (Qeq_bool q 0) eqn:E; [|reflexivity].
  apply Qeq_bool_eq in E. rewrite E in H. exfalso. apply (Qlt_irrefl 0 H).
Qed.

Lemma Qeq_bool_nonzero (q : Q) : ~ q == 0 -> Qeq_bool q 0 = false.
Proof.
  intros H. destruct (Qeq_bool q 0) eqn:E; [|reflexivity].
  apply Qeq_bool_eq in E. contradiction.
Qed.

Lemma beatDuration_pos (bpm : Q) :
  0 < bpm ->
  beatDuration (Fin bpm) = Fin (Qred (60 / bpm)) /\ 0 < Qred (60 / bpm).
Proof.
  intros H. unfold beatDuration, div, of_Z.
  change (inject_Z 60) with 60.
  rewrite (Qeq_bool_pos bpm H). split; [reflexivity|].
  rewrite Qred_correct. unfold Qdiv.
  apply Qmult_lt_0_compat; [reflexivity|]. now apply Qinv_lt_0_compat.
Qed.



(** ** Tempo taken from a transcription *)

Lemma truthy_false (x : num) :
  truthy x = false <-> x = NaN \/ exists q, x = Fin q /\ q == 0.
Proof.
  split.
  - destruct x as [q| | |]; simpl; intros H; try discriminate.
    + right. exists q. split; [reflexivity|].
      apply Qeq_bool_eq. now destruct (Qeq_bool q 0).
    + now left.
  - intros [->|[q [-> Hq]]]; [reflexivity|].
    simpl. apply Qeq_eq_bool in Hq. now rewrite Hq.
Qed.

Lemma processFile_settled_ui (s : Score) (w : World) :
  ui (processFile_settled (Some s) w) =
  ui (setAnalysisProgress (of_Z 100)
        (setTempo (or_else (bpm s) (of_Z 120)) (setScore (Some s) w))).
Proof. reflexivity. Qed.

(** C10. When the transcription succeeds, [processFile] stores the
    score and sets the playback tempo to [parsedScore.bpm || 120]: the
    transcribed bpm when it is non-zero, a negative one included, and
    120 when it is 0 or [NaN]. *)
Theorem processFile_tempo (s : Score) (w : World) :
  let w' := processFile_settled (Some s) w in
  score (ui w') = Some s
  /\ tempo (ui w') = or_else (bpm s) (of_Z 120)
  /\ (forall q, bpm s = Fin q -> ~ q == 0 -> tempo (ui w') = Fin q)
  /\ (forall q, bpm s = Fin q -> q < 0 -> tempo (ui w') = Fin q)
  /\ (forall q, bpm s = Fin q -> q == 0 -> tempo (ui w') = of_Z 120)
  /\ (bpm s = NaN -> tempo (ui w') = of_Z 120).
Proof.
  cbv zeta. rewrite processFile_settled_ui. cbn [ui setAnalysisProgress
    setTempo setScore on_ui score tempo].
  split; [reflexivity|]. split; [reflexivity|].
  unfold or_else. repeat split.
  - intros q -> Hq. cbn [truthy]. now rewrite (Qeq_bool_nonzero q Hq).
  - intros q -> Hq. cbn [truthy].
    rewrite (Qeq_bool_nonzero q); [reflexivity|].
    intro E. rewrite E in Hq. exact (Qlt_irrefl 0 Hq).
  - intros q -> Hq. cbn [truthy]. apply Qeq_eq_bool in Hq. now rewrite Hq.
  - intros ->. reflexivity.
Qed.

Lemma processFile_tempo_witness :
  tempo (ui (processFile_settled (Some (score_with_bpm (Fin (-90)))) initial))
    = Fin (-90)
  /\ tempo (ui (processFile_settled (Some (score_with_bpm (Fin 0))) initial))
    = of_Z 120
  /\ tempo (ui (processFile_settled (Some (score_with_bpm NaN)) initial))
    = of_Z 120.
Proof.
  pose proof (processFile_tempo (score_with_bpm (Fin (-90))) initial) as Hn.
  pose proof (processFile_tempo (score_with_bpm (Fin 0)) initial) as Hz.
  pose proof (processFile_tempo (score_with_bpm NaN) initial) as Hnan.
  cbv zeta in Hn, Hz, Hnan.
  destruct Hn as (_ & _ & _ & Hn & _).
  destruct Hz as (_ & _ & _ & _ & Hz & _).
  destruct Hnan as (_ & _ & _ & _ & _ & Hnan).
  split; [|split].
  - apply (Hn (-90)); reflexivity.
  - apply (Hz 0); reflexivity.
  - apply Hnan; reflexivity.
Defined.

(** ** What one [startPlayback] call schedules *)

Lemma timers_for_length player beat t0 id ns :
  List.length (timers_for player beat t0 id ns) = List.length ns.
Proof.
  revert id. induction ns as [|n ns IH]; intros id; simpl; [reflexivity|].
  now rewrite IH.
Qed.

Lemma timers_for_callbacks player beat t0 id ns :
  map callback (timers_for player beat t0 id ns)
  = map (fun n => NoteTrigger player n beat) ns.
Proof.
  revert id. induction ns as [|n ns IH]; intros id; simpl; [reflexivity|].
  now rewrite IH.
Qed.

Lemma timers_for_ids player beat t0 id ns :
  map timer_id (timers_for player beat t0 id ns) = seq id (List.length ns).
Proof.
  revert id. induction ns as [|n ns IH]; intros id; simpl; [reflexivity|].
  now rewrite IH.
Qed.

Lemma timers_for_due player beat t0 id ns t :
  In t (timers_for player beat t0 id ns) ->
  exists n,
    In n ns
    /\ due t = Qred (t0 + inject_Z (trigger_delay_ms beat n) / 1000).
Proof.
  revert id. induction ns as [|n ns IH]; intros id; cbn; [intros []|].
  intros [<-|Hin].
  - exists n. split; [now left|reflexivity].
  - destruct (IH _ Hin) as (m & Hm & Hd). exists m. split; [now right|exact Hd].
Qed.

Lemma timers_for_not_before player beat t0 id ns t :
  In t (timers_for player beat t0 id ns) -> t0 <= due t.
Proof.
  intros H. destruct (timers_for_due _ _ _ _ _ _ H) as (n & _ & ->).
  rewrite Qred_correct. rewrite <- (Qplus_0_r t0) at 1.
  apply Qplus_le_compat; [apply Qle_refl|].
  apply Qle_shift_div_l; [reflexivity|]. rewrite Qmult_0_l.
  unfold trigger_delay_ms, Qle. cbn. lia.
Qed.

(** The [forEach] loop in closed form. *)
Lemma schedule_notes_spec (player : nat) (beat : num) (ns : list Note) :
  forall w,
    fold_left (schedule_note player beat) ns w =
    set_playbackTimeoutRef
      (playbackTimeoutRef (refs w) ++ seq (nextId (rt w)) (List.length ns))
      (set_nextId (nextId (rt w) + List.length ns)
         (set_timers
            (timers (rt w)
             ++ timers_for player beat (now (rt w)) (nextId (rt w)) ns) w)).
Proof.
  induction ns as [|n ns IH]; intros [u [a p tr st f] [t ts ivs ls pa id lg un]].
  - cbn. now rewrite !app_nil_r, Nat.add_0_r.
  - cbn [fold_left]. rewrite IH. cbn.
    rewrite <- !app_assoc. cbn. now rewrite Nat.add_succ_r.
Qed.

(** What the resumed [startPlayback] changes, cell by cell. *)
Lemma startPlayback_loaded_spec (l : Load) (w : World) :
  let player := nextId (rt w) in
  let beat := beatDuration (ltempo l) in
  let ns := notes (lscore l) in
  let w' := startPlayback_loaded l w in
  ui w' = ui w
  /\ timers (rt w')
     = timers (rt w) ++ timers_for player beat (now (rt w)) (S player) ns
  /\ intervals (rt w')
     = intervals (rt w)
       ++ [mkInterval (S player + List.length ns)
             (Qred (now (rt w) + 50 / 1000)) beat (lscore l)]
  /\ playbackTimeoutRef (refs w')
     = playbackTimeoutRef (refs w) ++ seq (S player) (List.length ns)
  /\ playerRef (refs w') = Some player
  /\ isPlayingRef (refs w') = isPlayingRef (refs w)
  /\ startTimeRef (refs w') = startTimeRef (refs w)
  /\ audioContextRef (refs w') = audioContextRef (refs w)
  /\ now (rt w') = now (rt w)
  /\ log (rt w') = log (rt w)
  /\ uncaught (rt w') = uncaught (rt w)
  /\ loads (rt w') = loads (rt w).
Proof.
  cbv zeta. unfold startPlayback_loaded. rewrite schedule_notes_spec.
  destruct w as [u [a p tr st f] [t ts ivs ls pa id lg un]].
  cbn. repeat split; reflexivity.
Qed.

(** The trigger of G4, beat 1 of the chord at 120 bpm. *)
Example g4_delay : trigger_delay_ms (Fin (1 # 2)) (note "G4" 1 1) = 500%Z.
Proof. reflexivity. Qed.

(** ** What [stopPlayback] does *)

Lemma filter_twice {A : Type} (f g : A -> bool) (l : list A) :
  filter f (filter g l) = filter (fun x => g x && f x) l.
Proof.
  induction l as [|x l IH]; simpl; [reflexivity|].
  destruct (g x); simpl; [destruct (f x)|]; now rewrite IH.
Qed.

Lemma filter_all {A : Type} (f : A -> bool) (l : list A) :
  (forall x, f x = true) -> filter f l = l.
Proof.
  intros H. induction l as [|x l IH]; simpl; [reflexivity|].
  now rewrite H, IH.
Qed.

Lemma clear_all_spec (ids : list nat) :
  forall w,
    fold_left (fun w id => clearTimeout id w) ids w =
    set_timers (filter (fun t => negb (in_handles ids t)) (timers (rt w))) w.
Proof.
  induction ids as [|id ids IH]; intros [u r [t ts ivs ls pa nid lg un]].
  - cbn [fold_left]. rewrite filter_all by reflexivity. reflexivity.
  - cbn [fold_left]. rewrite IH. cbn. rewrite filter_twice.
    rewrite (filter_ext _ (fun t => negb (in_handles (id :: ids) t)));
      [reflexivity|].
    intros x. unfold in_handles. simpl. now rewrite negb_orb.
Qed.

(** What [stopPlayback] changes, cell by cell. *)
Lemma stopPlayback_spec (w : World) :
  let w' := stopPlayback w in
  isPlaying (ui w') = false
  /\ currentTime (ui w') = of_Z 0
  /\ isPlayingRef (refs w') = false
  /\ playbackTimeoutRef (refs w') = []
  /\ timers (rt w')
     = filter (fun t => negb (in_handles (playbackTimeoutRef (refs w)) t))
         (timers (rt w))
  /\ intervals (rt w') = intervals (rt w)
  /\ loads (rt w') = loads (rt w)
  /\ log (rt w')
     = log (rt w) ++ match playerRef (refs w) with
                     | Some p => [StopAll p]
                     | None => []
                     end.
Proof.
  cbv zeta. unfold stopPlayback. rewrite clear_all_spec.
  destruct w as [u [a p tr st f] [t ts ivs ls pa id lg un]].
  destruct p; cbn; rewrite ?app_nil_r; repeat split; reflexivity.
Qed.

(** Nothing is played by a callback that runs while the flag is down. *)
Lemma run_callback_stopped (cb : Callback) (w : World) :
  isPlayingRef (refs w) = false -> log (rt (run_callback cb w)) = log (rt w).
Proof.
  intros H. destruct cb; simpl; [now rewrite H|reflexivity].
Qed.

(** ** Natural completion *)

Lemma lastNote_nonempty (s : Score) :
  notes s <> [] -> exists n, lastNote s = Some n /\ n = last (notes s) n.
Proof.
  unfold lastNote, array_get. destruct (notes s) as [|a l] using rev_ind.
  - congruence.
  - intros _. exists a. rewrite last_last, length_app. simpl.
    replace (Z.of_nat (List.length l + 1) - 1)%Z
      with (Z.of_nat (List.length l)) by lia.
    destruct (Z.ltb_spec (Z.of_nat (List.length l)) 0); [lia|].
    rewrite Nat2Z.id, nth_error_app2, Nat.sub_diag by lia. now split.
Qed.

Lemma find_cleared (id : nat) (l : list Interval) :
  find (fun i => Nat.eqb (interval_id i) id)
       (filter (fun i => negb (Nat.eqb (interval_id i) id)) l) = None.
Proof.
  induction l as [|x l IH]; simpl; [reflexivity|].
  destruct (Nat.eqb (interval_id x) id) eqn:E; simpl; [exact IH|].
  now rewrite E.
Qed.

Lemma find_interval_id (id : nat) (l : list Interval) (i : Interval) :
  find (fun i => Nat.eqb (interval_id i) id) l = Some i -> interval_id i = id.
Proof.
  intros H. apply find_some in H. now apply Nat.eqb_eq.
Qed.

Lemma progress_tick_playing (i : Interval) (w : World) (e : num) :
  isPlayingRef (refs w) = true ->
  elapsed_beats i w = Some e ->
  progress_tick i w =
  match lastNote (iscore i) with
  | None =>
      throw "TypeError: lastNote is undefined"%string (setCurrentTime e w)
  | Some n =>
      if gt e (completion_threshold n)
      then clearInterval (interval_id i) (stopPlayback (setCurrentTime e w))
      else setCurrentTime e w
  end.
Proof.
  unfold progress_tick, elapsed_beats, lastNote, completion_threshold.
  intros -> He. cbn [negb]. destruct (audio_now w); [|discriminate].
  injection He as <-. reflexivity.
Qed.

Lemma step_interval_due (w : World) (id : nat) (i : Interval) :
  find (fun i => Nat.eqb (interval_id i) id) (intervals (rt w)) = Some i ->
  Qle_bool (next_due i) (now (rt w)) = true ->
  step w (IntervalFires id) = progress_tick i (rearm id w).
Proof.
  intros Hf Hd. cbn [step]. now rewrite Hf, Hd.
Qed.

(** C4, as the code has it. For a score with at least one note, a due
    tick of the progress interval of a playing session samples
    [elapsed] and compares it with [lastNote.time + lastNote.duration +
    1], where [lastNote] is the last note of the list (not the note
    that ends last).  When [elapsed] exceeds it the tick runs
    [stopPlayback] (flag down, position back to 0) and removes the
    interval, so that no later tick of it does anything: completion is
    signalled once.  Otherwise the tick only stores the position. *)
Theorem completion_on_last_note
    (w : World) (id : nat) (i : Interval) (e : num) :
  find (fun i => Nat.eqb (interval_id i) id) (intervals (rt w)) = Some i ->
  Qle_bool (next_due i) (now (rt w)) = true ->
  isPlayingRef (refs w) = true ->
  elapsed_beats i w = Some e ->
  notes (iscore i) <> [] ->
  let w' := step w (IntervalFires id) in
  exists n,
    lastNote (iscore i) = Some n
    /\ n = last (notes (iscore i)) n
    /\ (gt e (completion_threshold n) = true ->
        w' = clearInterval id (stopPlayback (setCurrentTime e (rearm id w)))
        /\ isPlaying (ui w') = false
        /\ isPlayingRef (refs w') = false
        /\ currentTime (ui w') = of_Z 0
        /\ find (fun i => Nat.eqb (interval_id i) id) (intervals (rt w'))
           = None
        /\ step w' (IntervalFires id) = w')
    /\ (gt e (completion_threshold n) = false ->
        w' = setCurrentTime e (rearm id w)
        /\ currentTime (ui w') = e
        /\ isPlayingRef (refs w') = true).
Proof.
  intros Hf Hd Hp He Hne. cbv zeta.
  destruct (lastNote_nonempty (iscore i) Hne) as [n [Hn Hl]].
  exists n. split; [exact Hn|]. split; [exact Hl|].
  rewrite (step_interval_due w id i Hf Hd).
  rewrite (progress_tick_playing i (rearm id w) e Hp He), Hn.
  rewrite (find_interval_id _ _ _ Hf).
  split; intros ->.
  - split; [reflexivity|].
    destruct (stopPlayback_spec (setCurrentTime e (rearm id w)))
      as (H1 & H2 & H3 & _ & _ & H6 & _).
    assert (Hnone :
      find (fun i0 => Nat.eqb (interval_id i0) id)
        (intervals
           (rt (clearInterval id
                  (stopPlayback (setCurrentTime e (rearm id w)))))) = None)
      by apply find_cleared.
    repeat split; try assumption.
    cbn [step]. now rewrite Hnone.
  - repeat split. exact Hp.
Qed.

(** ** Sessions on concrete scores *)

Example transcribed_chord_ready :
  score (ui (transcribed chord)) = Some chord
  /\ tempo (ui (transcribed chord)) = of_Z 120
  /\ isPlaying (ui (transcribed chord)) = false
  /\ pending_triggers (transcribed chord) = [].
Proof. repeat split. Qed.

(** With an instrument that loads at once the chord's triggers are due
    at 0, 0 and 0.5 seconds. *)
Example chord_immediate_load :
  map due (pending_triggers
             (run (transcribed chord) [ClickPlay; InstrumentSettled 0 true]))
  = [0; 0; 1 # 2].
Proof. reflexivity. Qed.

(** C1, at an instrument that takes one second to load. The session
    start [startTimeRef] is read before the [await]; the timers are set
    after it.  The chord at 120 bpm is then due 1.0, 1.0 and 1.5 seconds
    after the session start, not 0.0, 0.0 and 0.5, while the progress
    callback counts beats from the session start: when G4 (beat 1)
    sounds, the position shown is beat 3. *)
Theorem triggers_late_by_load_time :
  let w := run (transcribed chord)
             [ClickPlay; Wait 1; InstrumentSettled 0 true] in
  startTimeRef (refs w) = 0
  /\ map due (pending_triggers w) = [1; 1; 3 # 2]
  /\ map callback (pending_triggers w)
     = map (fun n => NoteTrigger 1 n (Fin (1 # 2))) (notes chord)
  /\ log (rt (run w [Wait (1 # 2); TimerFires 4]))
     = [Play 1 "G4" (3 # 2) (Fin (1 # 2))]
  /\ currentTime (ui (run w [Wait (1 # 2); TimerFires 4; IntervalFires 5]))
     = Fin 3.
Proof. repeat split. Qed.

(** C2, at stop and restart while the first instrument load is still
    pending. The first call resumes after [stopPlayback] has run and
    sets its timers then, so they are on no list a later stop clears;
    the restart has raised the one shared flag again, and the triggers
    of the stopped call (player 1) play next to those of the new one
    (player 6). *)
Theorem stopped_session_plays_after_restart :
  let w1 := run (transcribed chord) [ClickPlay; ClickStop] in
  let w2 := run w1 [ClickPlay; Wait 1;
                    InstrumentSettled 0 true; InstrumentSettled 0 true] in
  isPlaying (ui w1) = false
  /\ isPlayingRef (refs w1) = false
  /\ pending_triggers w1 = []
  /\ map timer_id (pending_triggers w2) = [2; 3; 4; 7; 8; 9]%nat
  /\ log (rt (run w2 [TimerFires 2; TimerFires 7]))
     = [Play 1 "C4" 1 (Fin (1 # 2)); Play 6 "C4" 1 (Fin (1 # 2))].
Proof. repeat split. Qed.

(** Without the restart the late timers of a call stopped during its
    load find the flag down and play nothing. *)
Example stopped_during_load_stays_silent :
  log (rt (run (transcribed chord)
             [ClickPlay; ClickStop; Wait 1; InstrumentSettled 0 true;
              TimerFires 2; TimerFires 3; Wait 1; TimerFires 4;
              IntervalFires 5]))
  = [].
Proof. reflexivity. Qed.

(** C4, at a score whose first note ends last. The claim takes the
    largest end beat, 10, so completion after beat 11; the code takes
    the last note's, 2, and stops the session at the first sample past
    beat 3, cutting the ten-beat note. *)
Lemma completion_before_longest_note_ends :
  spec_endBeat (notes long_first) = Fin 10
  /\ lastNote long_first = Some (note "E4" 1 1)
  /\ isPlaying
       (ui (run (transcribed long_first)
              [ClickPlay; InstrumentSettled 0 true; TimerFires 2;
               Wait (61 # 20)])) = true
  /\ gt (Fin (61 # 20)) (add (spec_endBeat (notes long_first)) (of_Z 1))
     = false
  /\ isPlaying
       (ui (run (transcribed long_first)
              [ClickPlay; InstrumentSettled 0 true; TimerFires 2;
               Wait (61 # 20); IntervalFires 4])) = false
  /\ log
       (rt (run (transcribed long_first)
              [ClickPlay; InstrumentSettled 0 true; TimerFires 2;
               Wait (61 # 20); IntervalFires 4]))
     = [Play 1 "C4" 0 (Fin 10); StopAll 1].
Proof. repeat split. Qed.

Lemma completion_on_last_note_witness :
  isPlaying (ui a4_playing) = true
  /\ isPlaying (ui (step a4_playing (IntervalFires 4))) = false
  /\ currentTime (ui (step a4_playing (IntervalFires 4))) = of_Z 0.
Proof.
  split; [reflexivity|].
  destruct (completion_on_last_note a4_playing 4 a4_interval
              (Fin (261 # 20)))
    as (n & Hn & _ & Hdone & _);
    [reflexivity | reflexivity | reflexivity | reflexivity | discriminate|].
  injection Hn as <-.
  destruct Hdone as (_ & H1 & _ & H2 & _); [reflexivity|].
  split; assumption.
Defined.

(** At exactly 13 beats the session of [ends_on_a4] still plays. *)
Example a4_not_done_at_13 :
  isPlaying
    (ui (run (transcribed ends_on_a4)
           [ClickPlay; InstrumentSettled 0 true; Wait 13; IntervalFires 4]))
  = true.
Proof. reflexivity. Qed.

(** ** A score without notes *)

Lemma progress_tick_no_notes (i : Interval) (w : World) (e : num) :
  notes (iscore i) = [] ->
  isPlayingRef (refs w) = true ->
  elapsed_beats i w = Some e ->
  progress_tick i w =
  throw "TypeError: lastNote is undefined"%string (setCurrentTime e w).
Proof.
  intros Hn Hp He. rewrite (progress_tick_playing i w e Hp He).
  unfold lastNote. now rewrite Hn.
Qed.

(** C5, at a score with an empty note list. No trigger is set, but the
    progress interval is: each of its ticks stores the sampled position
    and then reads [time] of the undefined last note, which throws; the
    session is never completed and stays in the playing state. *)
Theorem empty_score_never_completes :
  let w := run (transcribed no_notes) [ClickPlay; InstrumentSettled 0 true] in
  let w1 := run w [Wait (1 # 20); IntervalFires 2] in
  let w2 := run w1 [Wait (1 # 20); IntervalFires 2] in
  pending_triggers w = []
  /\ map interval_id (intervals (rt w)) = [2%nat]
  /\ uncaught (rt w1) = ["TypeError: lastNote is undefined"%string]
  /\ currentTime (ui w1) = Fin (1 # 10)
  /\ isPlaying (ui w1) = true
  /\ map interval_id (intervals (rt w1)) = [2%nat]
  /\ uncaught (rt w2)
     = ["TypeError: lastNote is undefined"%string;
        "TypeError: lastNote is undefined"%string]
  /\ currentTime (ui w2) = Fin (1 # 5)
  /\ isPlaying (ui w2) = true
  /\ isPlayingRef (refs w2) = true.
Proof. repeat split. Qed.

(** ** Tempo and note validation *)

(** C6, at a transcribed tempo of -60. [processFile] adopts it, and
    [startPlayback] starts: the state is playing, nothing is reported,
    the beat lasts -1 second and the note's trigger is set (due at once)
    and plays. *)
Lemma negative_tempo_starts_session :
  tempo (ui (transcribed backwards)) = of_Z (-60)
  /\ beatDuration (of_Z (-60)) = Fin (-1)
  /\ isPlaying
       (ui (run (transcribed backwards)
              [ClickPlay; InstrumentSettled 0 true])) = true
  /\ error
       (ui (run (transcribed backwards)
              [ClickPlay; InstrumentSettled 0 true])) = None
  /\ uncaught
       (rt (run (transcribed backwards)
              [ClickPlay; InstrumentSettled 0 true])) = []
  /\ map due
       (pending_triggers
          (run (transcribed backwards)
             [ClickPlay; InstrumentSettled 0 true])) = [0]
  /\ log
       (rt (run (transcribed backwards)
              [ClickPlay; InstrumentSettled 0 true; TimerFires 2]))
     = [Play 1 "C4" 0 (Fin (-1))].
Proof. repeat split. Qed.

(** What [startPlayback] changes before it suspends, cell by cell. *)
Lemma startPlayback_spec (w : World) (s : Score) :
  score (ui w) = Some s ->
  let w' := startPlayback w in
  isPlaying (ui w') = true
  /\ isPlayingRef (refs w') = true
  /\ error (ui w') = error (ui w)
  /\ tempo (ui w') = tempo (ui w)
  /\ score (ui w') = score (ui w)
  /\ loads (rt w')
     = loads (rt w) ++ [mkLoad s (tempo (ui w)) (instrument (ui w))]
  /\ timers (rt w') = timers (rt w)
  /\ intervals (rt w') = intervals (rt w)
  /\ playbackTimeoutRef (refs w') = playbackTimeoutRef (refs w)
  /\ playerRef (refs w') = playerRef (refs w)
  /\ log (rt w') = log (rt w)
  /\ uncaught (rt w') = uncaught (rt w).
Proof.
  intros Hs. cbv zeta.
  destruct w as [u [a p tr st f] [t ts ivs ls pa id lg un]].
  cbn in Hs. unfold startPlayback. cbn [ui score]. rewrite Hs.
  destruct a; cbn; repeat split; reflexivity || exact Hs.
Qed.

(** C6, as the code has it. [beatDuration] is [60 / tempo], a positive
    finite number for every tempo above 0, and is computed for any
    other tempo as well: no tempo is rejected.  With a score present,
    [startPlayback] at any tempo enters the playing state, reports
    nothing and suspends on the instrument load with that tempo; when
    the load settles one timer per note is added. *)
Theorem tempo_is_not_validated :
  (forall bpm : Q,
      0 < bpm ->
      exists d, beatDuration (Fin bpm) = Fin d /\ 0 < d /\ d == 60 / bpm)
  /\ (forall (w : World) (s : Score),
         score (ui w) = Some s ->
         isPlaying (ui (startPlayback w)) = true
         /\ error (ui (startPlayback w)) = error (ui w)
         /\ uncaught (rt (startPlayback w)) = uncaught (rt w)
         /\ loads (rt (startPlayback w))
            = loads (rt w) ++ [mkLoad s (tempo (ui w)) (instrument (ui w))])
  /\ (forall (l : Load) (w : World),
         List.length (timers (rt (startPlayback_loaded l w)))
         = (List.length (timers (rt w)) + List.length (notes (lscore l)))%nat
         /\ error (ui (startPlayback_loaded l w)) = error (ui w)
         /\ isPlaying (ui (startPlayback_loaded l w)) = isPlaying (ui w)
         /\ uncaught (rt (startPlayback_loaded l w)) = uncaught (rt w)).
Proof.
  split; [|split].
  - intros bpm H. destruct (beatDuration_pos bpm H) as [E P].
    exists (Qred (60 / bpm)). repeat split; try assumption.
    apply Qred_correct.
  - intros w s Hs.
    destruct (startPlayback_spec w s Hs)
      as (H1 & _ & H3 & _ & _ & H6 & _ & _ & _ & _ & _ & H12).
    repeat split; assumption.
  - intros l w.
    destruct (startPlayback_loaded_spec l w)
      as (Hu & Ht & _ & _ & _ & _ & _ & _ & _ & _ & Hun & _).
    rewrite Ht, Hu, Hun, length_app, timers_for_length.
    repeat split; reflexivity.
Qed.

Lemma tempo_is_not_validated_witness :
  (exists d, beatDuration (Fin 90) = Fin d /\ 0 < d /\ d == 60 / 90)
  /\ isPlaying (ui (startPlayback (transcribed backwards))) = true.
Proof.
  destruct tempo_is_not_validated as (Hpos & Hstart & _).
  split.
  - apply (Hpos 90). reflexivity.
  - apply (Hstart (transcribed backwards) backwards). reflexivity.
Defined.

(** C7, at a score with a negative start beat and a negative duration.
    Every note gets its trigger, nothing is reported, and each trigger
    plays its note when it fires. *)
Lemma malformed_notes_are_played :
  map callback
    (pending_triggers
       (run (transcribed malformed) [ClickPlay; InstrumentSettled 0 true]))
  = map (fun n => NoteTrigger 1 n (Fin (1 # 2))) (notes malformed)
  /\ error
       (ui (run (transcribed malformed)
              [ClickPlay; InstrumentSettled 0 true])) = None
  /\ uncaught
       (rt (run (transcribed malformed)
              [ClickPlay; InstrumentSettled 0 true])) = []
  /\ log
       (rt (run (transcribed malformed)
              [ClickPlay; InstrumentSettled 0 true; TimerFires 2;
               Wait (1 # 2); TimerFires 3; TimerFires 4]))
     = [Play 1 "C4" 0 (Fin (1 # 2));
        Play 1 "D4" (1 # 2) (Fin (-1));
        Play 1 "E4" (1 # 2) (Fin (1 # 2))].
Proof. repeat split. Qed.

(** C7, as the code has it. Timing fields are not inspected: when the
    instrument has loaded, the timers added are exactly one trigger
    per note of the score, in the order of the list, whatever the
    note's [time] and [duration]; no note is dropped and no warning or
    error is recorded.  A trigger that fires in a playing session plays
    its note. *)
Theorem every_note_is_scheduled (l : Load) (w : World) :
  let w' := startPlayback_loaded l w in
  (exists added,
      timers (rt w') = timers (rt w) ++ added
      /\ map callback added
         = map (fun n => NoteTrigger (nextId (rt w)) n
                           (beatDuration (ltempo l)))
               (notes (lscore l)))
  /\ error (ui w') = error (ui w)
  /\ uncaught (rt w') = uncaught (rt w)
  /\ (forall (player : nat) (n : Note) (beat : num) (v : World) (t : Q),
         isPlayingRef (refs v) = true ->
         audio_now v = Some t ->
         log (rt (run_callback (NoteTrigger player n beat) v))
         = log (rt v) ++ [Play player (pitch n) t (mul (duration n) beat)]).
Proof.
  cbv zeta.
  destruct (startPlayback_loaded_spec l w)
    as (Hu & Ht & _ & _ & _ & _ & _ & _ & _ & _ & Hun & _).
  split; [|split; [|split]].
  - eexists. split; [exact Ht|]. apply timers_for_callbacks.
  - now rewrite Hu.
  - exact Hun.
  - intros player n beat v t Hp Ha. cbn [run_callback].
    rewrite Hp, Ha. reflexivity.
Qed.

Lemma every_note_is_scheduled_witness :
  log (rt (run_callback
             (NoteTrigger 1 (note "D4" 1 (-2)) (Fin (1 # 2)))
             (run (transcribed malformed)
                [ClickPlay; InstrumentSettled 0 true])))
  = [Play 1 "D4" 0 (Fin (-1))].
Proof.
  destruct (every_note_is_scheduled
              (mkLoad malformed (of_Z 120) acoustic_guitar_nylon)
              (startPlayback (transcribed malformed)))
    as (_ & _ & _ & Hplay).
  apply (Hplay 1%nat (note "D4" 1 (-2)) (Fin (1 # 2))
           (run (transcribed malformed)
              [ClickPlay; InstrumentSettled 0 true]) 0);
    reflexivity.
Defined.

(** ** The instrument load between session start and scheduling *)

(** The session start recorded by [startPlayback] is the reading of
    the audio clock at the call. *)
Lemma startPlayback_startTime (w : World) (s : Score) :
  score (ui w) = Some s ->
  audio_now (startPlayback w) = Some (startTimeRef (refs (startPlayback w)))
  /\ now (rt (startPlayback w)) = now (rt w).
Proof.
  intros Hs. unfold startPlayback. rewrite Hs.
  destruct w as [u [a p tr st f] [t ts ivs ls pa id lg un]].
  destruct a; split; reflexivity.
Qed.

(** X23. A Play click, [dt] seconds of loading, and the resumed call.
    The queue gains one trigger per note, in the order of the list, and
    none of them is due before the instant the load ended.  The session
    start is the reading of the audio clock taken at the click; when
    the load ends that clock reads [dt] more, so every trigger is due
    [dt] or more after the session start, whatever its note's start
    beat. *)
Lemma load_time_shifts_triggers (w : World) (s : Score) (dt : Q) :
  score (ui w) = Some s ->
  isPlaying (ui w) = false ->
  loads (rt w) = [] ->
  0 <= dt ->
  let w' := run w [ClickPlay; Wait dt; InstrumentSettled 0 true] in
  exists added : list Timer,
    timers (rt w') = timers (rt w) ++ added
    /\ map callback added
       = map (fun n => NoteTrigger (nextId (rt w)) n
                         (beatDuration (tempo (ui w))))
           (notes s)
    /\ (forall t, In t added -> now (rt w') <= due t)
    /\ now (rt w') == now (rt w) + dt
    /\ startTimeRef (refs w') = startTimeRef (refs (startPlayback w))
    /\ audio_now (startPlayback w)
       = Some (startTimeRef (refs (startPlayback w)))
    /\ exists a, audio_now w' = Some a /\ a == startTimeRef (refs w') + dt.
Proof.
  intros Hs Hp Hl Hdt. cbv zeta. unfold run. cbn [fold_left].
  assert (E1 : step w ClickPlay = startPlayback w)
    by (cbn [step]; now rewrite Hs, Hp).
  rewrite E1.
  destruct (startPlayback_spec w s Hs)
    as (_ & _ & _ & Htempo & _ & Hloads & Htimers & _ & _ & _ & _ & _).
  destruct (startPlayback_startTime w s Hs) as [Haud Hnow].
  set (w1 := startPlayback w) in *.
  assert (E2 : step w1 (Wait dt) = set_now (Qred (now (rt w) + dt)) w1).
  { cbn [step]. apply Qle_bool_iff in Hdt. now rewrite Hdt, Hnow. }
  rewrite E2. set (w2 := set_now _ w1).
  assert (Hl2 : loads (rt w2)
                = [mkLoad s (tempo (ui w)) (instrument (ui w))])
    by (change (loads (rt w2)) with (loads (rt w1)); now rewrite Hloads, Hl).
  cbn [step]. rewrite Hl2. cbn [nth_error remove_nth firstn skipn app].
  destruct (startPlayback_loaded_spec
              (mkLoad s (tempo (ui w)) (instrument (ui w)))
              (set_loads [] w2))
    as (_ & Ht & _ & _ & _ & _ & Hst & Hctx & Hn & _).
  cbn [lscore ltempo] in Ht.
  set (w3 := startPlayback_loaded _ _) in *.
  change (timers (rt (set_loads [] w2))) with (timers (rt w1)) in Ht.
  change (now (rt (set_loads [] w2))) with (Qred (now (rt w) + dt)) in Ht, Hn.
  change (nextId (rt (set_loads [] w2))) with (nextId (rt w1)) in Ht.
  change (startTimeRef (refs (set_loads [] w2)))
    with (startTimeRef (refs w1)) in Hst.
  change (audioContextRef (refs (set_loads [] w2)))
    with (audioContextRef (refs w1)) in Hctx.
  assert (Hid : nextId (rt w1) = nextId (rt w)).
  { unfold w1, startPlayback. rewrite Hs.
    destruct w as [u [a p tr st f] [t ts ivs ls pa id lg un]].
    now destruct a. }
  rewrite Htimers, Hid in Ht.
  eexists. split; [exact Ht|]. split; [apply timers_for_callbacks|].
  split; [intros t Hin; rewrite Hn; now apply timers_for_not_before in Hin|].
  split; [rewrite Hn; apply Qred_correct|].
  split; [exact Hst|]. split; [exact Haud|].
  unfold audio_now in Haud |- *. rewrite Hctx, Hn, Hst.
  destruct (audioContextRef (refs w1)) as [ep|]; [|discriminate].
  eexists. split; [reflexivity|].
  assert (E : startTimeRef (refs w1) = Qred (now (rt w1) - ep))
    by congruence.
  rewrite E, Hnow, !Qred_correct. ring.
Qed.

(** ** Starting while a session plays *)

(** C3, at Play, Stop and Play again while the instrument of the
    first call is still loading, the tempo slider moved from 120 to 60
    in between.  [startPlayback] runs no stop sequence and the resumed
    first call does not look at the flag: when both loads have settled
    the state shown is one playing session at tempo 60, but the queue
    holds the triggers of both calls, those of the first with the beat
    duration of tempo 120, and both progress intervals run.  The
    renderer was sent no [stop], and is asked to play each note twice,
    by the player of the stopped call and by the player of the new
    one. *)
Theorem two_sessions_after_restart_during_load :
  let w0 := run (transcribed chord)
              [ClickPlay; ClickStop; TempoSlider 60; ClickPlay] in
  let w := restarted_during_load in
  List.length (loads (rt w0)) = 2%nat
  /\ pending_triggers w0 = []
  /\ isPlaying (ui w) = true
  /\ score (ui w) = Some chord
  /\ tempo (ui w) = of_Z 60
  /\ map callback (pending_triggers w)
     = map (fun n => NoteTrigger 1 n (Fin (1 # 2))) (notes chord)
       ++ map (fun n => NoteTrigger 6 n (Fin 1)) (notes chord)
  /\ map interval_id (intervals (rt w)) = [5; 10]%nat
  /\ log (rt w) = []
  /\ log (rt (run w [TimerFires 2; TimerFires 3; TimerFires 7; TimerFires 8]))
     = [Play 1 "C4" 1 (Fin (1 # 2)); Play 1 "E4" 1 (Fin (1 # 2));
        Play 6 "C4" 1 (Fin 1); Play 6 "E4" 1 (Fin 1)].
Proof. repeat split. Qed.

(** [startPlayback] runs no stop sequence: it
    leaves the timer queue, the intervals, the handle list, the
    player and the renderer as they are, whether or not a session is
    playing.  What keeps a start away from a playing session is the
    play button: while [isPlaying] holds it shows Stop and calls
    [stopPlayback], and a Play click is not possible. *)
Theorem start_runs_no_stop_sequence (w : World) :
  timers (rt (startPlayback w)) = timers (rt w)
  /\ intervals (rt (startPlayback w)) = intervals (rt w)
  /\ playbackTimeoutRef (refs (startPlayback w))
     = playbackTimeoutRef (refs w)
  /\ playerRef (refs (startPlayback w)) = playerRef (refs w)
  /\ log (rt (startPlayback w)) = log (rt w)
  /\ currentTime (ui (startPlayback w)) = currentTime (ui w)
  /\ (isPlaying (ui w) = true -> step w ClickPlay = w)
  /\ (isPlaying (ui w) = true ->
      score (ui w) <> None ->
      step w ClickStop = stopPlayback w)
  /\ (isPlaying (ui w) = false ->
      score (ui w) <> None ->
      step w ClickPlay = startPlayback w).
Proof.
  assert (Hsame :
    timers (rt (startPlayback w)) = timers (rt w)
    /\ intervals (rt (startPlayback w)) = intervals (rt w)
    /\ playbackTimeoutRef (refs (startPlayback w))
       = playbackTimeoutRef (refs w)
    /\ playerRef (refs (startPlayback w)) = playerRef (refs w)
    /\ log (rt (startPlayback w)) = log (rt w)
    /\ currentTime (ui (startPlayback w)) = currentTime (ui w)).
  { destruct (score (ui w)) as [s|] eqn:Hs.
    - destruct (startPlayback_spec w s Hs)
        as (_ & _ & _ & _ & _ & _ & H7 & H8 & H9 & H10 & H11 & _).
      repeat split; try assumption.
      unfold startPlayback. rewrite Hs.
      destruct w as [u [a p tr st f] [t ts ivs ls pa id lg un]].
      destruct a; reflexivity.
    - unfold startPlayback. rewrite Hs. repeat split. }
  destruct Hsame as (H1 & H2 & H3 & H4 & H5 & H6).
  repeat split; try assumption.
  - intros Hp. cbn [step]. rewrite Hp. now destruct (score (ui w)).
  - intros Hp Hs. cbn [step]. rewrite Hp.
    destruct (score (ui w)); [reflexivity|congruence].
  - intros Hp Hs. cbn [step]. rewrite Hp.
    destruct (score (ui w)); [reflexivity|congruence].
Qed.

Lemma start_runs_no_stop_sequence_witness :
  isPlaying (ui chord_playing_solo_loaded) = true
  /\ step chord_playing_solo_loaded ClickPlay = chord_playing_solo_loaded
  /\ step chord_playing_solo_loaded ClickStop
     = stopPlayback chord_playing_solo_loaded.
Proof.
  destruct (start_runs_no_stop_sequence chord_playing_solo_loaded)
    as (_ & _ & _ & _ & _ & _ & Hplay & Hstop & _).
  split; [reflexivity|]. split.
  - apply Hplay. reflexivity.
  - apply Hstop; [reflexivity|discriminate].
Defined.

(** ** The tempo of a running session *)

Lemma same_but_tempo_refl (w : World) : same_but_tempo w w.
Proof. reflexivity. Qed.

Lemma same_but_tempo_set (t : num) (w : World) :
  same_but_tempo (setTempo t w) w.
Proof. now destruct w as [[] ? ?]. Qed.

Lemma same_but_tempo_inv (w1 w2 : World) :
  same_but_tempo w1 w2 -> w1 = setTempo (tempo (ui w1)) w2.
Proof.
  unfold same_but_tempo.
  destruct w1 as [[] r1 t1], w2 as [[] r2 t2]. cbn.
  intros H. injection H as -> -> -> -> -> -> -> -> -> -> ->. reflexivity.
Qed.

Lemma same_but_tempo_observe (w1 w2 : World) :
  same_but_tempo w1 w2 ->
  refs w1 = refs w2 /\ rt w1 = rt w2
  /\ isPlaying (ui w1) = isPlaying (ui w2)
  /\ currentTime (ui w1) = currentTime (ui w2)
  /\ score (ui w1) = score (ui w2)
  /\ error (ui w1) = error (ui w2).
Proof.
  intros H. rewrite (same_but_tempo_inv w1 w2 H).
  destruct w2 as [[] r2 t2]. repeat split.
Qed.

Ltac break_world w :=
  let u := fresh "u" in
  destruct w as [u [? ? ? ? ?] [? ? ? ? ? ? ? ?]]; destruct u.

Ltac break_match :=
  repeat match goal with
         | |- context [match ?x with _ => _ end] =>
             destruct x eqn:?; cbn
         | |- context [if ?x then _ else _] => destruct x eqn:?; cbn
         end.

Lemma stopPlayback_setTempo (t : num) (w : World) :
  stopPlayback (setTempo t w) = setTempo t (stopPlayback w).
Proof.
  unfold stopPlayback. rewrite !clear_all_spec. break_world w. cbn.
  break_match; reflexivity.
Qed.

Lemma startPlayback_loaded_setTempo (l : Load) (t : num) (w : World) :
  startPlayback_loaded l (setTempo t w)
  = setTempo t (startPlayback_loaded l w).
Proof.
  unfold startPlayback_loaded. rewrite !schedule_notes_spec.
  break_world w. reflexivity.
Qed.

Lemma run_callback_setTempo (cb : Callback) (t : num) (w : World) :
  run_callback cb (setTempo t w) = setTempo t (run_callback cb w).
Proof.
  destruct cb as [player n beat|]; cbn [run_callback]; [|now break_world w].
  change (isPlayingRef (refs (setTempo t w))) with (isPlayingRef (refs w)).
  change (audio_now (setTempo t w)) with (audio_now w).
  destruct (isPlayingRef (refs w)); cbn [negb]; [|reflexivity].
  destruct (audio_now w); now break_world w.
Qed.

Lemma progress_tick_setTempo (i : Interval) (t : num) (w : World) :
  progress_tick i (setTempo t w) = setTempo t (progress_tick i w).
Proof.
  unfold progress_tick.
  change (isPlayingRef (refs (setTempo t w))) with (isPlayingRef (refs w)).
  change (audio_now (setTempo t w)) with (audio_now w).
  change (startTimeRef (refs (setTempo t w))) with (startTimeRef (refs w)).
  destruct (isPlayingRef (refs w)); cbn [negb].
  - destruct (audio_now w) as [a|]; [|now break_world w].
    set (e := div (sub (Fin a) (Fin (startTimeRef (refs w)))) (ibeat i)).
    destruct (array_get _ _) as [n|]; [|now break_world w].
    destruct (gt e _).
    + replace (setCurrentTime e (setTempo t w))
        with (setTempo t (setCurrentTime e w)) by now break_world w.
      rewrite stopPlayback_setTempo.
      now destruct (stopPlayback (setCurrentTime e w)) as [[] ? ?].
    + now break_world w.
  - now break_world w.
Qed.

Lemma same_but_tempo_setTempo_r (t : num) (a b : World) :
  a = setTempo t b -> same_but_tempo a b.
Proof. intros ->. apply same_but_tempo_set. Qed.

(** No event other than a Play click reads the [tempo] cell. *)
Lemma step_setTempo (t : num) (w : World) (e : Event) :
  e <> ClickPlay -> same_but_tempo (step (setTempo t w) e) (step w e).
Proof.
  intros He. destruct e as [sel images| |r|res|v|ins| | |k ok|id|id|dt].
  - apply (same_but_tempo_setTempo_r t). cbn [step]. unfold handleFileChange.
    destruct sel as [[name [|]]|]; try destruct images; now break_world w.
  - apply (same_but_tempo_setTempo_r t). cbn [step]. unfold processFile.
    change (file (ui (setTempo t w))) with (file (ui w)).
    change (isProcessing (ui (setTempo t w))) with (isProcessing (ui w)).
    change (pdfImages (ui (setTempo t w))) with (pdfImages (ui w)).
    destruct (file (ui w)); [|reflexivity].
    destruct (isProcessing (ui w)); [reflexivity|].
    destruct (pdfImages (ui w)); now break_world w.
  - apply (same_but_tempo_setTempo_r t). cbn [step]. unfold analysis_tick.
    change (parsing (rt (setTempo t w))) with (parsing (rt w)).
    change (analysisProgress (ui (setTempo t w)))
      with (analysisProgress (ui w)).
    destruct (Nat.eqb _ _); [reflexivity|].
    destruct (_ || _); now break_world w.
  - cbn [step].
    change (parsing (rt (setTempo t w))) with (parsing (rt w)).
    destruct (Nat.eqb _ _); [apply same_but_tempo_set|].
    destruct res as [s|].
    + unfold same_but_tempo. now break_world w.
    + apply (same_but_tempo_setTempo_r t). now break_world w.
  - unfold same_but_tempo. now break_world w.
  - apply (same_but_tempo_setTempo_r t). now break_world w.
  - congruence.
  - apply (same_but_tempo_setTempo_r t). cbn [step].
    change (score (ui (setTempo t w))) with (score (ui w)).
    change (isPlaying (ui (setTempo t w))) with (isPlaying (ui w)).
    destruct (score (ui w)); [|reflexivity].
    destruct (isPlaying (ui w)); [|reflexivity].
    apply stopPlayback_setTempo.
  - apply (same_but_tempo_setTempo_r t). cbn [step].
    change (loads (rt (setTempo t w))) with (loads (rt w)).
    destruct (nth_error _ _) as [l|]; [|reflexivity].
    replace (set_loads (remove_nth k (loads (rt w))) (setTempo t w))
      with (setTempo t (set_loads (remove_nth k (loads (rt w))) w))
      by now break_world w.
    destruct ok.
    + apply startPlayback_loaded_setTempo.
    + apply stopPlayback_setTempo.
  - apply (same_but_tempo_setTempo_r t). cbn [step].
    change (timers (rt (setTempo t w))) with (timers (rt w)).
    change (now (rt (setTempo t w))) with (now (rt w)).
    destruct (find _ _) as [tm|]; [|reflexivity].
    destruct (Qle_bool _ _); [|reflexivity].
    replace (clearTimeout id (setTempo t w))
      with (setTempo t (clearTimeout id w)) by now break_world w.
    apply run_callback_setTempo.
  - apply (same_but_tempo_setTempo_r t). cbn [step].
    change (intervals (rt (setTempo t w))) with (intervals (rt w)).
    change (now (rt (setTempo t w))) with (now (rt w)).
    destruct (find _ _) as [i|]; [|reflexivity].
    destruct (Qle_bool _ _); [|reflexivity].
    replace (rearm id (setTempo t w))
      with (setTempo t (rearm id w)) by now break_world w.
    apply progress_tick_setTempo.
  - apply (same_but_tempo_setTempo_r t). cbn [step].
    change (now (rt (setTempo t w))) with (now (rt w)).
    destruct (Qle_bool _ _); now break_world w.
Qed.

Lemma step_same_but_tempo (w1 w2 : World) (e : Event) :
  e <> ClickPlay ->
  same_but_tempo w1 w2 -> same_but_tempo (step w1 e) (step w2 e).
Proof.
  intros He H. rewrite (same_but_tempo_inv w1 w2 H).
  now apply step_setTempo.
Qed.

Lemma run_same_but_tempo (es : list Event) :
  ~ In ClickPlay es ->
  forall w1 w2,
    same_but_tempo w1 w2 -> same_but_tempo (run w1 es) (run w2 es).
Proof.
  unfold run. induction es as [|e es IH]; intros Hno w1 w2 H; [exact H|].
  cbn [fold_left]. apply IH.
  - intro Hin. apply Hno. now right.
  - apply step_same_but_tempo; [|exact H].
    intros ->. apply Hno. now left.
Qed.

(** The tempo of a call is the [tempo] cell as it was when
    [startPlayback] was called: the call carries it over the instrument
    load, and the one [beatDuration] computed from it is the constant
    in every trigger's delay and closure (hence in every duration
    handed to the renderer) and in the progress interval's closure.
    Moving the tempo slider at any point changes nothing but the
    [tempo] cell, as long as no new Play click follows: the timer queue
    with its due instants, the renderer calls with their durations, the
    reported position and the playing state all stay as they would have
    been. *)
Theorem tempo_fixed_for_session
    (w : World) (es1 es2 : list Event) (v : Z) :
  ~ In ClickPlay es2 ->
  (let a := run w (es1 ++ TempoSlider v :: es2) in
   let b := run w (es1 ++ es2) in
   same_but_tempo a b
   /\ rt a = rt b
   /\ refs a = refs b
   /\ currentTime (ui a) = currentTime (ui b)
   /\ isPlaying (ui a) = isPlaying (ui b))
  /\ (forall (w0 : World) (s : Score),
         score (ui w0) = Some s ->
         loads (rt (startPlayback w0))
         = loads (rt w0) ++ [mkLoad s (tempo (ui w0)) (instrument (ui w0))])
  /\ (forall (l : Load) (w0 : World),
         let beat := beatDuration (ltempo l) in
         timers (rt (startPlayback_loaded l w0))
         = timers (rt w0)
           ++ timers_for (nextId (rt w0)) beat (now (rt w0))
                (S (nextId (rt w0))) (notes (lscore l))
         /\ intervals (rt (startPlayback_loaded l w0))
            = intervals (rt w0)
              ++ [mkInterval
                    (S (nextId (rt w0)) + List.length (notes (lscore l)))
                    (Qred (now (rt w0) + 50 / 1000)) beat (lscore l)]).
Proof.
  intros Hno. split; [|split].
  - cbv zeta.
    assert (H : same_but_tempo (run w (es1 ++ TempoSlider v :: es2))
                               (run w (es1 ++ es2))).
    { unfold run. rewrite !fold_left_app. cbn [fold_left step].
      apply (run_same_but_tempo es2 Hno). apply same_but_tempo_set. }
    split; [exact H|].
    destruct (same_but_tempo_observe _ _ H) as (H1 & H2 & H3 & H4 & _).
    repeat split; assumption.
  - intros w0 s Hs.
    now destruct (startPlayback_spec w0 s Hs) as (_ & _ & _ & _ & _ & H & _).
  - intros l w0. cbv zeta.
    destruct (startPlayback_loaded_spec l w0) as (_ & Ht & Hi & _).
    split; assumption.
Qed.

Lemma tempo_fixed_for_session_witness :
  rt (run (transcribed chord)
        ([ClickPlay; InstrumentSettled 0 true]
         ++ TempoSlider 60
            :: [TimerFires 2; Wait (1 # 2); TimerFires 4; IntervalFires 5]))
  = rt (run (transcribed chord)
          ([ClickPlay; InstrumentSettled 0 true]
           ++ [TimerFires 2; Wait (1 # 2); TimerFires 4; IntervalFires 5])).
Proof.
  apply (tempo_fixed_for_session (transcribed chord)
           [ClickPlay; InstrumentSettled 0 true]
           [TimerFires 2; Wait (1 # 2); TimerFires 4; IntervalFires 5] 60).
  simpl. intuition discriminate.
Defined.

(** C8, at Play, Stop, the tempo slider moved from 120 to 60, and Play
    again while the instrument of the first call is still loading.
    The callbacks of the stopped call keep the beat duration of tempo
    120 and run in the restarted session next to those of the new
    call: the renderer gets durations of 0.5 and of 1 second for the
    same one-beat notes; 1.05 seconds after the session start the
    position is computed as beat 2.1 by one progress callback and as
    beat 1.05 by the other; and at 1.55 seconds the callback of the
    stopped call finds beat 3.1 past its threshold of 3 and stops the
    session, before the new call's G4, due at 2 seconds, has played. *)
Theorem restarted_session_uses_two_tempos :
  let w := restarted_during_load in
  tempo (ui w) = of_Z 60
  /\ isPlaying (ui w) = true
  /\ startTimeRef (refs w) = 0
  /\ audio_now w = Some 1
  /\ map (fun i => (interval_id i, ibeat i)) (intervals (rt w))
     = [(5%nat, Fin (1 # 2)); (10%nat, Fin 1)]
  /\ map (fun t => (timer_id t, due t, callback t)) (pending_triggers w)
     = [(2%nat, 1, NoteTrigger 1 (note "C4" 0 1) (Fin (1 # 2)));
        (3%nat, 1, NoteTrigger 1 (note "E4" 0 1) (Fin (1 # 2)));
        (4%nat, 3 # 2, NoteTrigger 1 (note "G4" 1 1) (Fin (1 # 2)));
        (7%nat, 1, NoteTrigger 6 (note "C4" 0 1) (Fin 1));
        (8%nat, 1, NoteTrigger 6 (note "E4" 0 1) (Fin 1));
        (9%nat, 2, NoteTrigger 6 (note "G4" 1 1) (Fin 1))]
  /\ log (rt (run w [TimerFires 2; TimerFires 3; TimerFires 7; TimerFires 8]))
     = [Play 1 "C4" 1 (Fin (1 # 2)); Play 1 "E4" 1 (Fin (1 # 2));
        Play 6 "C4" 1 (Fin 1); Play 6 "E4" 1 (Fin 1)]
  /\ currentTime
       (ui (run w [TimerFires 2; TimerFires 3; TimerFires 7; TimerFires 8;
                   Wait (1 # 20); IntervalFires 5]))
     = Fin (21 # 10)
  /\ currentTime
       (ui (run w [TimerFires 2; TimerFires 3; TimerFires 7; TimerFires 8;
                   Wait (1 # 20); IntervalFires 5; IntervalFires 10]))
     = Fin (21 # 20)
  /\ isPlaying (ui (run w after_restart_schedule)) = false
  /\ now (rt (run w after_restart_schedule)) = 31 # 20
  /\ timers (rt (run w after_restart_schedule)) = []
  /\ log (rt (run w after_restart_schedule))
     = [Play 1 "C4" 1 (Fin (1 # 2)); Play 1 "E4" 1 (Fin (1 # 2));
        Play 6 "C4" 1 (Fin 1); Play 6 "E4" 1 (Fin 1);
        Play 1 "G4" (3 # 2) (Fin (1 # 2)); StopAll 6].
Proof. repeat split. Qed.

(** The slider does count for the next session. *)
Example slider_before_play_changes_delays :
  map due
    (pending_triggers
       (run (transcribed chord)
          [TempoSlider 60; ClickPlay; InstrumentSettled 0 true]))
  = [0; 0; 1].
Proof. reflexivity. Qed.

(** ** What holds of stopping in every reachable state *)

Lemma in_handles_true (ids : list nat) (t : Timer) :
  In (timer_id t) ids -> in_handles ids t = true.
Proof.
  intros H. unfold in_handles. apply existsb_exists.
  exists (timer_id t). split; [exact H|apply Nat.eqb_refl].
Qed.

Lemma stopPlayback_no_triggers (w : World) :
  triggers_registered w -> pending_triggers (stopPlayback w) = [].
Proof.
  intros Hreg. unfold pending_triggers.
  destruct (stopPlayback_spec w) as (_ & _ & _ & _ & Ht & _).
  rewrite Ht, filter_twice. clear Ht.
  match goal with |- ?f = [] => destruct f as [|t l] eqn:E end;
    [reflexivity|].
  assert (Hin : In t (t :: l)) by now left.
  rewrite <- E in Hin. apply filter_In in Hin. destruct Hin as [Hin Hb].
  apply andb_prop in Hb. destruct Hb as [Hb Htr].
  rewrite (in_handles_true _ _ (Hreg t Hin Htr)) in Hb. discriminate.
Qed.

Lemma stopPlayback_registered (w : World) :
  triggers_registered w -> triggers_registered (stopPlayback w).
Proof.
  intros Hreg t Hin Htr.
  assert (Hp : In t (pending_triggers (stopPlayback w)))
    by (apply filter_In; now split).
  rewrite (stopPlayback_no_triggers w Hreg) in Hp. destruct Hp.
Qed.

Lemma registered_same (w w' : World) :
  timers (rt w') = timers (rt w) ->
  playbackTimeoutRef (refs w') = playbackTimeoutRef (refs w) ->
  triggers_registered w -> triggers_registered w'.
Proof.
  intros Ht Hr Hreg t. rewrite Ht, Hr. apply Hreg.
Qed.

Lemma registered_fewer (w w' : World) :
  incl (timers (rt w')) (timers (rt w)) ->
  playbackTimeoutRef (refs w') = playbackTimeoutRef (refs w) ->
  triggers_registered w -> triggers_registered w'.
Proof.
  intros Ht Hr Hreg t Hin. rewrite Hr. apply Hreg. now apply Ht.
Qed.

Lemma startPlayback_loaded_registered (l : Load) (w : World) :
  triggers_registered w -> triggers_registered (startPlayback_loaded l w).
Proof.
  intros Hreg t Hin Htr.
  destruct (startPlayback_loaded_spec l w) as (_ & Ht & _ & Hr & _).
  rewrite Ht in Hin. rewrite Hr. apply in_or_app.
  apply in_app_or in Hin. destruct Hin as [Hin|Hin].
  - left. now apply Hreg.
  - right. erewrite <- timers_for_ids. apply in_map. exact Hin.
Qed.

Lemma run_callback_registered (cb : Callback) (w : World) :
  triggers_registered w -> triggers_registered (run_callback cb w).
Proof.
  apply registered_same; destruct cb as [p n b|]; cbn [run_callback];
    try reflexivity;
    destruct (negb _); try reflexivity; destruct (audio_now w); reflexivity.
Qed.

Lemma progress_tick_registered (i : Interval) (w : World) :
  triggers_registered w -> triggers_registered (progress_tick i w).
Proof.
  intros Hreg. unfold progress_tick.
  destruct (negb _); [exact Hreg|].
  destruct (audio_now w) as [a|]; [|exact Hreg].
  destruct (array_get _ _) as [n|]; [|exact Hreg].
  destruct (gt _ _); [|exact Hreg].
  match goal with
  | |- triggers_registered (clearInterval _ ?x) =>
      apply (registered_same x); [reflexivity|reflexivity|]
  end.
  apply stopPlayback_registered. exact Hreg.
Qed.

Lemma step_registered (w : World) (e : Event) :
  triggers_registered w -> triggers_registered (step w e).
Proof.
  intros Hreg. destruct e as [sel images| |r|res|v|ins| | |k ok|id|id|dt];
    cbn [step].
  - apply (registered_same w); [| |exact Hreg]; unfold handleFileChange;
      destruct sel as [[name [|]]|]; try destruct images; reflexivity.
  - destruct (file (ui w)); [|exact Hreg].
    destruct (isProcessing (ui w)); [exact Hreg|].
    apply (registered_same w); [| |exact Hreg]; unfold processFile;
      destruct (file (ui w)); try reflexivity;
      destruct (pdfImages (ui w)); reflexivity.
  - destruct (Nat.eqb _ _); [exact Hreg|].
    apply (registered_same w); [| |exact Hreg]; unfold analysis_tick;
      destruct (_ || _); reflexivity.
  - destruct (Nat.eqb _ _); [exact Hreg|].
    intros t Hin Htr.
    assert (Hts : timers (rt (processFile_settled res w))
                  = timers (rt w)
                    ++ [mkTimer (nextId (rt w))
                          (Qred (now (rt w) + inject_Z 500 / 1000))
                          ProcessingOff])
      by (destruct res; reflexivity).
    assert (Hr : playbackTimeoutRef (refs (processFile_settled res w))
                 = playbackTimeoutRef (refs w))
      by (destruct res; reflexivity).
    rewrite Hts in Hin. rewrite Hr. apply in_app_or in Hin.
    destruct Hin as [Hin|[<-|[]]]; [now apply Hreg|discriminate].
  - exact Hreg.
  - exact Hreg.
  - destruct (score (ui w)) as [s|] eqn:Hs; [|exact Hreg].
    destruct (isPlaying (ui w)); [exact Hreg|].
    destruct (startPlayback_spec w s Hs)
      as (_ & _ & _ & _ & _ & _ & Ht & _ & Hr & _).
    now apply (registered_same w).
  - destruct (score (ui w)); [|exact Hreg].
    destruct (isPlaying (ui w)); [|exact Hreg].
    now apply stopPlayback_registered.
  - destruct (nth_error _ _) as [l|]; [|exact Hreg].
    destruct ok.
    + apply startPlayback_loaded_registered. exact Hreg.
    + apply stopPlayback_registered. exact Hreg.
  - destruct (find _ _) as [tm|]; [|exact Hreg].
    destruct (Qle_bool _ _); [|exact Hreg].
    apply run_callback_registered.
    apply (registered_fewer w); [|reflexivity|exact Hreg].
    intros x Hx. cbn in Hx. now apply filter_In in Hx.
  - destruct (find _ _) as [i|]; [|exact Hreg].
    destruct (Qle_bool _ _); [|exact Hreg].
    apply progress_tick_registered. exact Hreg.
  - destruct (Qle_bool _ _); exact Hreg.
Qed.

Lemma reachable_registered (es : list Event) :
  triggers_registered (run initial es).
Proof.
  unfold run. rewrite <- (rev_involutive es).
  induction (rev es) as [|e l IH]; [intros t []|].
  cbn [rev]. rewrite fold_left_app. cbn [fold_left].
  apply step_registered. exact IH.
Qed.

(** X4. In every state the component can reach, [stopPlayback] leaves
    no note trigger in the timer queue, takes the flag and the playing
    state down and resets the position. *)
Lemma stopPlayback_cancels_all (es : list Event) :
  pending_triggers (stopPlayback (run initial es)) = []
  /\ isPlayingRef (refs (stopPlayback (run initial es))) = false
  /\ isPlaying (ui (stopPlayback (run initial es))) = false
  /\ currentTime (ui (stopPlayback (run initial es))) = of_Z 0.
Proof.
  split; [apply stopPlayback_no_triggers, reachable_registered|].
  now destruct (stopPlayback_spec (run initial es)) as (H1 & H2 & H3 & _).
Qed.

Lemma silent_same (w w' : World) :
  isPlayingRef (refs w) = false ->
  refs w' = refs w -> log (rt w') = log (rt w) -> silent_step w w'.
Proof.
  intros Hf Hr Hl. unfold silent_step, plays. now rewrite Hr, Hl.
Qed.

Lemma stopPlayback_silent (w : World) : silent_step w (stopPlayback w).
Proof.
  destruct (stopPlayback_spec w) as (_ & _ & Hf & _ & _ & _ & _ & Hl).
  split; [exact Hf|]. unfold plays. rewrite Hl, filter_app.
  destruct (playerRef (refs w)); cbn; now rewrite app_nil_r.
Qed.

Lemma step_silent (w : World) (e : Event) :
  isPlayingRef (refs w) = false ->
  e <> ClickPlay ->
  silent_step w (step w e).
Proof.
  intros Hf He.
  destruct e as [sel images| |r|res|v|ins| | |k ok|id|id|dt]; cbn [step].
  - apply silent_same; [exact Hf| |]; unfold handleFileChange;
      destruct sel as [[name [|]]|]; try destruct images; reflexivity.
  - destruct (file (ui w)) eqn:Hfile; [|now apply silent_same].
    destruct (isProcessing (ui w)); [now apply silent_same|].
    apply silent_same; [exact Hf| |]; unfold processFile; rewrite Hfile;
      destruct (pdfImages (ui w)); reflexivity.
  - destruct (Nat.eqb _ _); [now apply silent_same|].
    apply silent_same; [exact Hf| |]; unfold analysis_tick;
      destruct (_ || _); reflexivity.
  - destruct (Nat.eqb _ _); [now apply silent_same|].
    apply silent_same; [exact Hf| |]; destruct res; reflexivity.
  - now apply silent_same.
  - now apply silent_same.
  - congruence.
  - destruct (score (ui w)); [|now apply silent_same].
    destruct (isPlaying (ui w)); [|now apply silent_same].
    apply stopPlayback_silent.
  - destruct (nth_error _ _) as [l|]; [|now apply silent_same].
    destruct ok.
    + destruct (startPlayback_loaded_spec l
                  (set_loads (remove_nth k (loads (rt w))) w))
        as (_ & _ & _ & _ & _ & Hf' & _ & _ & _ & Hl & _).
      split; [now rewrite Hf'|]. unfold plays. now rewrite Hl.
    + apply (stopPlayback_silent (set_loads _ w)).
  - destruct (find _ _) as [tm|]; [|now apply silent_same].
    destruct (Qle_bool _ _); [|now apply silent_same].
    destruct (callback tm) as [p n b|]; cbn [run_callback].
    + change (isPlayingRef (refs (clearTimeout id w)))
        with (isPlayingRef (refs w)).
      rewrite Hf. now apply silent_same.
    + now apply silent_same.
  - destruct (find _ _) as [i|]; [|now apply silent_same].
    destruct (Qle_bool _ _); [|now apply silent_same].
    unfold progress_tick.
    change (isPlayingRef (refs (rearm id w))) with (isPlayingRef (refs w)).
    rewrite Hf. now apply silent_same.
  - destruct (Qle_bool _ _); now apply silent_same.
Qed.

(** Once the flag is down, as after [stopPlayback], nothing is played
    until the next Play click, whatever timers still fire and whatever
    instrument loads still settle. *)
Lemma silent_until_next_play (es : list Event) :
  ~ In ClickPlay es ->
  forall w,
    isPlayingRef (refs w) = false ->
    isPlayingRef (refs (run w es)) = false /\ plays (run w es) = plays w.
Proof.
  unfold run. induction es as [|e es IH]; intros Hno w Hf; [now split|].
  cbn [fold_left].
  assert (He : e <> ClickPlay) by (intros ->; apply Hno; now left).
  destruct (step_silent w e Hf He) as [Hf' Hp].
  destruct (IH (fun H => Hno (or_intror H)) (step w e) Hf') as [H1 H2].
  split; [exact H1|]. now rewrite H2.
Qed.

(** * Further properties *)

(** ** What the callbacks can do to a state *)

Lemma run_callback_cases (cb : Callback) (w : World) :
  run_callback cb w = w
  \/ (exists e, run_callback cb w = emit e w /\ isPlayingRef (refs w) = true)
  \/ (exists m, run_callback cb w = throw m w)
  \/ run_callback cb w = setIsProcessing false w.
Proof.
  destruct cb as [p n b|]; cbn [run_callback]; [|now right; right; right].
  destruct (isPlayingRef (refs w)) eqn:Hf; cbn [negb]; [|now left].
  destruct (audio_now w).
  - right; left. eexists. now split.
  - right; right; left. now eexists.
Qed.

Lemma progress_tick_cases (i : Interval) (w : World) :
  (isPlayingRef (refs w) = false
   /\ progress_tick i w = clearInterval (interval_id i) w)
  \/ (isPlayingRef (refs w) = true
      /\ ((exists m, progress_tick i w = throw m w)
          \/ (exists e m, progress_tick i w = throw m (setCurrentTime e w))
          \/ (exists e,
                progress_tick i w
                = clearInterval (interval_id i)
                    (stopPlayback (setCurrentTime e w)))
          \/ (exists e, progress_tick i w = setCurrentTime e w))).
Proof.
  unfold progress_tick.
  destruct (isPlayingRef (refs w)) eqn:Hf; cbn [negb]; [right|now left].
  split; [reflexivity|].
  destruct (audio_now w) as [a|]; [|left; now eexists].
  destruct (array_get _ _) as [n|]; [|right; left; now do 2 eexists].
  destruct (gt _ _).
  - right; right; left. now eexists.
  - right; right; right. now eexists.
Qed.

Lemma stopPlayback_audioContext (w : World) :
  audioContextRef (refs (stopPlayback w)) = audioContextRef (refs w)
  /\ playerRef (refs (stopPlayback w)) = playerRef (refs w)
  /\ startTimeRef (refs (stopPlayback w)) = startTimeRef (refs w)
  /\ nextId (rt (stopPlayback w)) = nextId (rt w)
  /\ now (rt (stopPlayback w)) = now (rt w)
  /\ score (ui (stopPlayback w)) = score (ui w)
  /\ tempo (ui (stopPlayback w)) = tempo (ui w)
  /\ error (ui (stopPlayback w)) = error (ui w).
Proof.
  unfold stopPlayback. rewrite clear_all_spec.
  destruct w as [u [a p tr st f] [t ts ivs ls pa id lg un]].
  destruct p; repeat split; reflexivity.
Qed.

(** ** The playing state and the flag *)

Lemma stopPlayback_flags (w : World) : flags_agree (stopPlayback w).
Proof.
  unfold flags_agree.
  destruct (stopPlayback_spec w) as (H1 & _ & H3 & _). now rewrite H1, H3.
Qed.

Lemma step_flags_agree (w : World) (e : Event) :
  flags_agree w -> flags_agree (step w e).
Proof.
  intros H. destruct e as [sel images| |r|res|v|ins| | |k ok|id|id|dt];
    cbn [step].
  - unfold handleFileChange.
    destruct sel as [[name [|]]|]; try destruct images; exact H.
  - destruct (file (ui w)) eqn:Hfile; [|exact H].
    destruct (isProcessing (ui w)); [exact H|].
    unfold processFile. rewrite Hfile.
    destruct (pdfImages (ui w)); exact H.
  - destruct (Nat.eqb _ _); [exact H|].
    unfold analysis_tick. destruct (_ || _); exact H.
  - destruct (Nat.eqb _ _); [exact H|]. destruct res; exact H.
  - exact H.
  - exact H.
  - destruct (score (ui w)) as [s|] eqn:Hs; [|exact H].
    destruct (isPlaying (ui w)) eqn:Hp; [exact H|].
    destruct (startPlayback_spec w s Hs) as (H1 & H2 & _).
    unfold flags_agree. now rewrite H1, H2.
  - destruct (score (ui w)); [|exact H].
    destruct (isPlaying (ui w)); [|exact H].
    apply stopPlayback_flags.
  - destruct (nth_error _ _) as [l|]; [|exact H].
    destruct ok.
    + destruct (startPlayback_loaded_spec l
                  (set_loads (remove_nth k (loads (rt w))) w))
        as (Hu & _ & _ & _ & _ & Hf & _).
      unfold flags_agree. rewrite Hu, Hf. exact H.
    + apply stopPlayback_flags.
  - destruct (find _ _) as [tm|]; [|exact H].
    destruct (Qle_bool _ _); [|exact H].
    destruct (run_callback_cases (callback tm) (clearTimeout id w))
      as [E|[(x & E & _)|[(m & E)|E]]]; rewrite E; exact H.
  - destruct (find _ _) as [i|]; [|exact H].
    destruct (Qle_bool _ _); [|exact H].
    destruct (progress_tick_cases i (rearm id w))
      as [[_ E]|[_ [(m & E)|[(x & m & E)|[(x & E)|(x & E)]]]]]; rewrite E;
      try exact H.
    apply (stopPlayback_flags (setCurrentTime x (rearm id w))).
  - destruct (Qle_bool _ _); exact H.
Qed.

(** X1. In every state the component can reach, the [isPlaying] cell
    that the button and the status line read and the
    [isPlayingRef.current] flag that the callbacks read have the same
    value. *)
Theorem playing_state_matches_flag (es : list Event) :
  isPlaying (ui (run initial es)) = isPlayingRef (refs (run initial es)).
Proof.
  change (flags_agree (run initial es)).
  unfold run. rewrite <- (rev_involutive es).
  induction (rev es) as [|e l IH]; [reflexivity|].
  cbn [rev]. rewrite fold_left_app. cbn [fold_left].
  apply step_flags_agree. exact IH.
Qed.

(** ** The audio context *)

Lemma step_audioContext (w : World) (e : Event) (c : Q) :
  audioContextRef (refs w) = Some c ->
  audioContextRef (refs (step w e)) = Some c.
Proof.
  intros H. destruct e as [sel images| |r|res|v|ins| | |k ok|id|id|dt];
    cbn [step].
  - unfold handleFileChange.
    destruct sel as [[name [|]]|]; try destruct images; exact H.
  - destruct (file (ui w)) eqn:Hfile; [|exact H].
    destruct (isProcessing (ui w)); [exact H|].
    unfold processFile. rewrite Hfile.
    destruct (pdfImages (ui w)); exact H.
  - destruct (Nat.eqb _ _); [exact H|].
    unfold analysis_tick. destruct (_ || _); exact H.
  - destruct (Nat.eqb _ _); [exact H|]. destruct res; exact H.
  - exact H.
  - exact H.
  - destruct (score (ui w)) as [s|] eqn:Hs; [|exact H].
    destruct (isPlaying (ui w)); [exact H|].
    unfold startPlayback. rewrite Hs, H.
    unfold audio_now. cbn. rewrite H. exact H.
  - destruct (score (ui w)); [|exact H].
    destruct (isPlaying (ui w)); [|exact H].
    destruct (stopPlayback_audioContext w) as [E _]. now rewrite E.
  - destruct (nth_error _ _) as [l|]; [|exact H].
    destruct ok.
    + destruct (startPlayback_loaded_spec l
                  (set_loads (remove_nth k (loads (rt w))) w))
        as (_ & _ & _ & _ & _ & _ & _ & Ha & _).
      rewrite Ha. exact H.
    + destruct (stopPlayback_audioContext
                  (set_loads (remove_nth k (loads (rt w))) w)) as [E _].
      unfold startPlayback_failed. rewrite E. exact H.
  - destruct (find _ _) as [tm|]; [|exact H].
    destruct (Qle_bool _ _); [|exact H].
    destruct (run_callback_cases (callback tm) (clearTimeout id w))
      as [E|[(x & E & _)|[(m & E)|E]]]; rewrite E; exact H.
  - destruct (find _ _) as [i|]; [|exact H].
    destruct (Qle_bool _ _); [|exact H].
    destruct (progress_tick_cases i (rearm id w))
      as [[_ E]|[_ [(m & E)|[(x & m & E)|[(x & E)|(x & E)]]]]]; rewrite E;
      try exact H.
    destruct (stopPlayback_audioContext (setCurrentTime x (rearm id w)))
      as [E' _].
    cbn [clearInterval set_intervals on_rt refs]. rewrite E'. exact H.
  - destruct (Qle_bool _ _); exact H.
Qed.

(** X2. The audio context is created at most once: from the moment
    [audioContextRef.current] is set, no event replaces or clears it,
    so every session of the component reads the same audio clock. *)
Theorem audio_context_created_once (es : list Event) (w : World) (c : Q) :
  audioContextRef (refs w) = Some c ->
  audioContextRef (refs (run w es)) = Some c.
Proof.
  unfold run. revert w. induction es as [|e es IH]; intros w H; [exact H|].
  cbn [fold_left]. apply IH. now apply step_audioContext.
Qed.

Lemma audio_context_created_once_witness :
  audioContextRef
    (refs (run (run (transcribed chord) [Wait 2; ClickPlay])
             [InstrumentSettled 0 true; Wait 5; ClickStop; Wait 3;
              ClickPlay; InstrumentSettled 0 false]))
  = Some 2.
Proof.
  apply (audio_context_created_once
           [InstrumentSettled 0 true; Wait 5; ClickStop; Wait 3;
            ClickPlay; InstrumentSettled 0 false]
           (run (transcribed chord) [Wait 2; ClickPlay]) 2).
  reflexivity.
Defined.

(** ** Between two sessions *)

Lemma stopPlayback_idle (w : World) : idle_at_zero (stopPlayback w).
Proof.
  destruct (stopPlayback_spec w) as (H1 & H2 & H3 & _).
  repeat split; assumption.
Qed.

Lemma step_idle (w : World) (e : Event) :
  idle_at_zero w -> e <> ClickPlay -> idle_at_zero (step w e).
Proof.
  intros H He. pose proof H as (Hf & Hp & Hc).
  destruct e as [sel images| |r|res|v|ins| | |k ok|id|id|dt]; cbn [step].
  - unfold handleFileChange.
    destruct sel as [[name [|]]|]; try destruct images; exact H.
  - destruct (file (ui w)) eqn:Hfile; [|exact H].
    destruct (isProcessing (ui w)); [exact H|].
    unfold processFile. rewrite Hfile.
    destruct (pdfImages (ui w)); exact H.
  - destruct (Nat.eqb _ _); [exact H|].
    unfold analysis_tick. destruct (_ || _); exact H.
  - destruct (Nat.eqb _ _); [exact H|]. destruct res; exact H.
  - exact H.
  - exact H.
  - congruence.
  - destruct (score (ui w)); [|exact H].
    destruct (isPlaying (ui w)); [|exact H].
    apply stopPlayback_idle.
  - destruct (nth_error _ _) as [l|]; [|exact H].
    destruct ok.
    + destruct (startPlayback_loaded_spec l
                  (set_loads (remove_nth k (loads (rt w))) w))
        as (Hu & _ & _ & _ & _ & Hf' & _).
      unfold idle_at_zero. rewrite Hu, Hf'. exact H.
    + apply stopPlayback_idle.
  - destruct (find _ _) as [tm|]; [|exact H].
    destruct (Qle_bool _ _); [|exact H].
    destruct (run_callback_cases (callback tm) (clearTimeout id w))
      as [E|[(x & E & _)|[(m & E)|E]]]; rewrite E; exact H.
  - destruct (find _ _) as [i|]; [|exact H].
    destruct (Qle_bool _ _); [|exact H].
    destruct (progress_tick_cases i (rearm id w)) as [[_ E]|[Hup _]].
    + rewrite E. exact H.
    + cbn in Hup. congruence.
  - destruct (Qle_bool _ _); exact H.
Qed.

(** X3. After [stopPlayback], and until the next Play click, the
    component stays idle whatever else happens (timers and intervals
    of the stopped session firing late, instrument loads settling or
    failing, transcriptions arriving, the tempo slider moving): the
    state shown is not playing, the position stays at zero, and the
    renderer is asked to play nothing. *)
Theorem idle_after_stop (es : list Event) (w : World) :
  ~ In ClickPlay es ->
  let w' := run (stopPlayback w) es in
  isPlaying (ui w') = false
  /\ currentTime (ui w') = of_Z 0
  /\ isPlayingRef (refs w') = false
  /\ plays w' = plays w.
Proof.
  intros Hno. cbv zeta.
  assert (Hgen : forall v, idle_at_zero v ->
                 idle_at_zero (run v es) /\ plays (run v es) = plays v).
  { unfold run. induction es as [|e es IH]; intros v Hv; [now split|].
    cbn [fold_left].
    assert (He : e <> ClickPlay) by (intros ->; apply Hno; now left).
    destruct (step_silent v e (proj1 Hv) He) as [_ Hp].
    destruct (IH (fun H => Hno (or_intror H)) (step v e)
                (step_idle v e Hv He)) as [H1 H2].
    split; [exact H1|]. now rewrite H2. }
  destruct (Hgen (stopPlayback w) (stopPlayback_idle w))
    as ((Hf & Hp & Hc) & Hpl).
  destruct (stopPlayback_silent w) as [_ Hs].
  rewrite Hpl, Hs. repeat split; assumption.
Qed.

Lemma idle_after_stop_witness :
  currentTime
    (ui (run (stopPlayback
                (run (transcribed chord)
                   [ClickPlay; InstrumentSettled 0 true; TimerFires 2]))
           [Wait (1 # 2); TimerFires 4; IntervalFires 5; TempoSlider 90;
            Wait 1; TimerFires 3]))
  = of_Z 0
  /\ plays
       (run (stopPlayback
               (run (transcribed chord)
                  [ClickPlay; InstrumentSettled 0 true; TimerFires 2]))
          [Wait (1 # 2); TimerFires 4; IntervalFires 5; TempoSlider 90;
           Wait 1; TimerFires 3])
     = [Play 1 "C4" 0 (Fin (1 # 2))].
Proof.
  destruct (idle_after_stop
              [Wait (1 # 2); TimerFires 4; IntervalFires 5; TempoSlider 90;
               Wait 1; TimerFires 3]
              (run (transcribed chord)
                 [ClickPlay; InstrumentSettled 0 true; TimerFires 2]))
    as (_ & Hc & _ & Hp).
  - simpl. intuition discriminate.
  - split; [exact Hc|]. rewrite Hp. reflexivity.
Defined.

(** X5. Stopping twice: the second [stopPlayback] changes nothing in
    the component, but it is not a no-op for the renderer, which is
    told to stop again whenever a player has ever been loaded
    ([playerRef.current] is never cleared). *)
Theorem stop_twice (w : World) :
  stopPlayback (stopPlayback w)
  = match playerRef (refs w) with
    | Some p => emit (StopAll p) (stopPlayback w)
    | None => stopPlayback w
    end.
Proof.
  unfold stopPlayback. rewrite !clear_all_spec.
  destruct w as [[] [a p tr st f] [t ts ivs ls pa id lg un]].
  destruct p; cbn; rewrite filter_all by reflexivity; reflexivity.
Qed.

(** ** Choosing a file *)

(** X6. Choosing another PDF while a session plays clears the score
    but does not stop the session: the flag, the pending triggers, the
    progress interval and the renderer are untouched and the state
    shown remains playing.  Since the play/stop button is rendered
    only with a score, the running session can then not be stopped by
    a click. *)
Theorem new_pdf_leaves_session_running
    (w : World) (name : string) (images : option (list string)) :
  let w' := handleFileChange (Some (name, true)) images w in
  score (ui w') = None
  /\ file (ui w') = Some name
  /\ refs w' = refs w
  /\ rt w' = rt w
  /\ isPlaying (ui w') = isPlaying (ui w)
  /\ currentTime (ui w') = currentTime (ui w)
  /\ step w' ClickStop = w'
  /\ step w' ClickPlay = w'.
Proof.
  cbv zeta. unfold handleFileChange.
  destruct images; repeat split; reflexivity.
Qed.

(** X7. Transcribe needs page images: with no page image in the
    state, a click on Transcribe does nothing at all: no processing
    state, no request, no message.  That is the state after a PDF was
    chosen whose preview failed: the file is set (so the button is
    enabled), the preview error is shown, and the image list is
    empty. *)
Theorem transcribe_without_pages_does_nothing (w : World) :
  (pdfImages (ui w) = [] -> step w ClickTranscribe = w)
  /\ (forall name,
         let w' := handleFileChange (Some (name, true)) None w in
         file (ui w') = Some name
         /\ pdfImages (ui w') = []
         /\ error (ui w') = Some "Failed to load PDF preview."%string
         /\ step w' ClickTranscribe = w').
Proof.
  assert (H : forall v, pdfImages (ui v) = [] -> step v ClickTranscribe = v).
  { intros v Hp. cbn [step]. destruct (file (ui v)) eqn:Hf; [|reflexivity].
    destruct (isProcessing (ui v)); [reflexivity|].
    unfold processFile. now rewrite Hf, Hp. }
  split; [apply H|].
  intros name. cbv zeta. repeat split. now apply H.
Qed.

Lemma transcribe_without_pages_does_nothing_witness :
  step (handleFileChange (Some ("tab.pdf"%string, true)) (Some []) initial)
       ClickTranscribe
  = handleFileChange (Some ("tab.pdf"%string, true)) (Some []) initial.
Proof.
  apply (proj1 (transcribe_without_pages_does_nothing
                  (handleFileChange (Some ("tab.pdf"%string, true))
                     (Some []) initial))).
  reflexivity.
Defined.

(** ** The simulated analysis progress *)

Lemma stopPlayback_ui_rest (w : World) :
  analysisProgress (ui (stopPlayback w)) = analysisProgress (ui w)
  /\ isProcessing (ui (stopPlayback w)) = isProcessing (ui w)
  /\ file (ui (stopPlayback w)) = file (ui w)
  /\ pdfImages (ui (stopPlayback w)) = pdfImages (ui w).
Proof.
  unfold stopPlayback. rewrite clear_all_spec.
  destruct w as [u [a p tr st f] [t ts ivs ls pa id lg un]].
  destruct p; repeat split; reflexivity.
Qed.

Lemma analysis_tick_in_range (r : Q) (w : World) :
  0 <= r -> r < 1 ->
  progress_in_range w -> progress_in_range (analysis_tick r w).
Proof.
  intros Hr0 Hr1 (p & Hp & H0 & H100). unfold analysis_tick. rewrite Hp.
  cbn [gt of_Z is_nan orb].
  destruct (Qle_bool (inject_Z 90) p) eqn:E; cbn [negb orb].
  - exists p. now repeat split.
  - assert (Hlt : p < 90).
    { apply Qnot_le_lt. intro Hle. apply Qle_bool_iff in Hle.
      change (inject_Z 90) with 90 in E. congruence. }
    eexists. split; [reflexivity|].
    cbn [mul add]. rewrite !Qred_correct.
    change (inject_Z 10) with 10.
    split.
    + apply (Qle_trans _ (0 + 0)); [discriminate|].
      apply Qplus_le_compat; [exact H0|].
      apply Qmult_le_0_compat; [exact Hr0|discriminate].
    + apply Qlt_le_weak.
      apply (Qlt_le_trans _ (90 + 1 * 10)); [|discriminate].
      apply Qplus_lt_le_compat; [exact Hlt|].
      apply Qmult_le_compat_r; [now apply Qlt_le_weak|discriminate].
Qed.

Lemma step_progress_in_range (w : World) (e : Event) :
  (forall r, e = AnalysisTick r -> 0 <= r /\ r < 1) ->
  progress_in_range w -> progress_in_range (step w e).
Proof.
  intros Hr H. destruct e as [sel images| |r|res|v|ins| | |k ok|id|id|dt];
    cbn [step].
  - unfold handleFileChange.
    destruct sel as [[name [|]]|]; try destruct images; exact H.
  - destruct (file (ui w)) eqn:Hfile; [|exact H].
    destruct (isProcessing (ui w)); [exact H|].
    unfold processFile. rewrite Hfile.
    destruct (pdfImages (ui w)); [exact H|].
    exists 0. repeat split; discriminate.
  - destruct (Nat.eqb _ _); [exact H|].
    destruct (Hr r eq_refl). now apply analysis_tick_in_range.
  - destruct (Nat.eqb _ _); [exact H|]. destruct res; [|exact H].
    exists 100. repeat split; discriminate.
  - exact H.
  - exact H.
  - destruct (score (ui w)) as [s|] eqn:Hs; [|exact H].
    destruct (isPlaying (ui w)); [exact H|].
    unfold startPlayback. rewrite Hs.
    destruct (audioContextRef (refs w)) eqn:Ha; unfold audio_now; cbn;
      rewrite ?Ha; exact H.
  - destruct (score (ui w)); [|exact H].
    destruct (isPlaying (ui w)); [|exact H].
    unfold progress_in_range.
    destruct (stopPlayback_ui_rest w) as [E _]. now rewrite E.
  - destruct (nth_error _ _) as [l|]; [|exact H].
    destruct ok.
    + destruct (startPlayback_loaded_spec l
                  (set_loads (remove_nth k (loads (rt w))) w)) as (Hu & _).
      unfold progress_in_range. rewrite Hu. exact H.
    + unfold progress_in_range, startPlayback_failed.
      destruct (stopPlayback_ui_rest
                  (set_loads (remove_nth k (loads (rt w))) w)) as [E _].
      rewrite E. exact H.
  - destruct (find _ _) as [tm|]; [|exact H].
    destruct (Qle_bool _ _); [|exact H].
    destruct (run_callback_cases (callback tm) (clearTimeout id w))
      as [E|[(x & E & _)|[(m & E)|E]]]; rewrite E; exact H.
  - destruct (find _ _) as [i|]; [|exact H].
    destruct (Qle_bool _ _); [|exact H].
    destruct (progress_tick_cases i (rearm id w))
      as [[_ E]|[_ [(m & E)|[(x & m & E)|[(x & E)|(x & E)]]]]]; rewrite E;
      try exact H.
    unfold progress_in_range.
    destruct (stopPlayback_ui_rest (setCurrentTime x (rearm id w)))
      as [E' _].
    cbn [clearInterval set_intervals on_rt ui]. rewrite E'. exact H.
  - destruct (Qle_bool _ _); exact H.
Qed.

(** X9. The analysis progress shown while a PDF is being transcribed
    is always a percentage between 0 and 100: the simulated steps stop
    adding once 90 is reached, each adds less than 10, and only a
    successful transcription sets 100.  (The random values are those
    [Math.random] can return.) *)
Theorem analysis_progress_is_a_percentage (es : list Event) :
  random_in_range es ->
  exists p,
    analysisProgress (ui (run initial es)) = Fin p /\ 0 <= p /\ p <= 100.
Proof.
  intros Hr. change (progress_in_range (run initial es)).
  assert (Hgen : forall w, progress_in_range w ->
                           progress_in_range (run w es)).
  { unfold run. induction es as [|e es IH]; intros w Hw; [exact Hw|].
    cbn [fold_left]. apply IH.
    - intros r Hin. apply Hr. now right.
    - apply step_progress_in_range; [|exact Hw].
      intros r ->. apply Hr. now left. }
  apply Hgen. exists 0. repeat split; discriminate.
Qed.

Lemma analysis_progress_is_a_percentage_witness :
  exists p,
    analysisProgress
      (ui (run initial
             [FileChange (Some ("score.pdf"%string, true))
                (Some ["page1"%string]);
              ClickTranscribe; AnalysisTick (9 # 10); AnalysisTick (1 # 2);
              AnalysisTick (99 # 100)]))
    = Fin p /\ 0 <= p /\ p <= 100.
Proof.
  apply analysis_progress_is_a_percentage.
  intros r [H|[H|[H|[H|[H|[]]]]]]; try discriminate;
    injection H as <-; split; reflexivity || discriminate.
Defined.

(** ** The audio clock and the session start *)

Lemma clock_ok_frame (w w' : World) :
  audioContextRef (refs w') = audioContextRef (refs w) ->
  startTimeRef (refs w') = startTimeRef (refs w) ->
  now (rt w') = now (rt w) ->
  (isPlayingRef (refs w') = true -> isPlayingRef (refs w) = true) ->
  clock_ok w -> clock_ok w'.
Proof.
  intros Ha Hs Hn Hf [H1 H2]. split.
  - intros Hup. rewrite Ha. apply H1. now apply Hf.
  - intros t. unfold audio_now. rewrite Ha, Hs, Hn. apply H2.
Qed.

Lemma stopPlayback_clock_ok (w : World) :
  clock_ok w -> clock_ok (stopPlayback w).
Proof.
  destruct (stopPlayback_audioContext w) as (Ha & _ & Hs & _ & Hn & _).
  destruct (stopPlayback_spec w) as (_ & _ & Hf & _).
  apply clock_ok_frame; try assumption. congruence.
Qed.

Lemma startPlayback_clock_ok (w : World) (s : Score) :
  score (ui w) = Some s -> clock_ok (startPlayback w).
Proof.
  intros Hs. unfold startPlayback. rewrite Hs.
  destruct w as [u [a p tr st f] [t ts ivs ls pa id lg un]].
  destruct a as [ep|]; unfold clock_ok, audio_now; cbn; split;
    try discriminate; intros x E; injection E as <-; apply Qle_refl.
Qed.

Lemma step_clock_ok (w : World) (e : Event) :
  clock_ok w -> clock_ok (step w e).
Proof.
  intros H. destruct e as [sel images| |r|res|v|ins| | |k ok|id|id|dt];
    cbn [step].
  - unfold handleFileChange.
    destruct sel as [[name [|]]|]; try destruct images; exact H.
  - destruct (file (ui w)) eqn:Hfile; [|exact H].
    destruct (isProcessing (ui w)); [exact H|].
    unfold processFile. rewrite Hfile.
    destruct (pdfImages (ui w)); exact H.
  - destruct (Nat.eqb _ _); [exact H|].
    unfold analysis_tick. destruct (_ || _); exact H.
  - destruct (Nat.eqb _ _); [exact H|]. destruct res; exact H.
  - exact H.
  - exact H.
  - destruct (score (ui w)) as [s|] eqn:Hs; [|exact H].
    destruct (isPlaying (ui w)); [exact H|].
    now apply (startPlayback_clock_ok w s).
  - destruct (score (ui w)); [|exact H].
    destruct (isPlaying (ui w)); [|exact H].
    now apply stopPlayback_clock_ok.
  - destruct (nth_error _ _) as [l|]; [|exact H].
    destruct ok.
    + destruct (startPlayback_loaded_spec l
                  (set_loads (remove_nth k (loads (rt w))) w))
        as (_ & _ & _ & _ & _ & Hf & Hs & Ha & Hn & _).
      apply (clock_ok_frame (set_loads (remove_nth k (loads (rt w))) w));
        try assumption.
      now rewrite Hf.
    + apply (stopPlayback_clock_ok (set_loads _ w)). exact H.
  - destruct (find _ _) as [tm|]; [|exact H].
    destruct (Qle_bool _ _); [|exact H].
    destruct (run_callback_cases (callback tm) (clearTimeout id w))
      as [E|[(x & E & _)|[(m & E)|E]]]; rewrite E; exact H.
  - destruct (find _ _) as [i|]; [|exact H].
    destruct (Qle_bool _ _); [|exact H].
    destruct (progress_tick_cases i (rearm id w))
      as [[_ E]|[_ [(m & E)|[(x & m & E)|[(x & E)|(x & E)]]]]]; rewrite E;
      try exact H.
    apply (stopPlayback_clock_ok (setCurrentTime x (rearm id w))) in H.
    exact H.
  - destruct (Qle_bool 0 dt) eqn:Hdt; [|exact H].
    apply Qle_bool_iff in Hdt. destruct H as [H1 H2]. split; [exact H1|].
    intros t. unfold audio_now in *.
    change (audioContextRef (refs (set_now (Qred (now (rt w) + dt)) w)))
      with (audioContextRef (refs w)).
    change (startTimeRef (refs (set_now (Qred (now (rt w) + dt)) w)))
      with (startTimeRef (refs w)).
    change (now (rt (set_now (Qred (now (rt w) + dt)) w)))
      with (Qred (now (rt w) + dt)).
    destruct (audioContextRef (refs w)) as [ep|]; [|discriminate].
    intros E.
    assert (Et : t = Qred (Qred (now (rt w) + dt) - ep)) by congruence.
    rewrite Et.
    apply (Qle_trans _ (Qred (now (rt w) - ep))); [now apply H2|].
    rewrite !Qred_correct.
    apply Qplus_le_compat; [|apply Qle_refl].
    rewrite <- (Qplus_0_r (now (rt w))) at 1.
    apply Qplus_le_compat; [apply Qle_refl|exact Hdt].
Qed.

Lemma reachable_clock_ok (es : list Event) : clock_ok (run initial es).
Proof.
  unfold run. rewrite <- (rev_involutive es).
  induction (rev es) as [|e l IH].
  - split; [discriminate|]. intros t E. discriminate.
  - cbn [rev]. rewrite fold_left_app. cbn [fold_left].
    apply step_clock_ok. exact IH.
Qed.

Lemma beatDuration_neg (bpm : Q) :
  bpm < 0 ->
  exists d, beatDuration (Fin bpm) = Fin d /\ d < 0.
Proof.
  intros H. unfold beatDuration, div, of_Z. change (inject_Z 60) with 60.
  rewrite Qeq_bool_nonzero
    by (intro E; rewrite E in H; exact (Qlt_irrefl 0 H)).
  eexists. split; [reflexivity|]. rewrite Qred_correct.
  setoid_replace (60 / bpm) with (- (60 * / (- bpm))).
  - rewrite <- (Qopp_involutive 0). apply Qopp_lt_compat.
    change (- 0) with 0.
    apply Qmult_lt_0_compat; [reflexivity|].
    apply Qinv_lt_0_compat.
    rewrite <- (Qopp_involutive 0). apply Qopp_lt_compat. exact H.
  - field. intro E. rewrite E in H. exact (Qlt_irrefl 0 H).
Qed.

(** X10. A session started at a negative tempo never completes by
    itself.  In any state the component can reach, a tick of the
    progress interval of such a session, for a score whose last note
    has non-negative start and duration, finds a position that is not
    above zero, stores it, and leaves the session playing: only a Stop
    click ends it. *)
Theorem negative_tempo_never_completes
    (es : list Event) (id : nat) (i : Interval) (n : Note) (bpm a b : Q) :
  let w := run initial es in
  find (fun i => Nat.eqb (interval_id i) id) (intervals (rt w)) = Some i ->
  Qle_bool (next_due i) (now (rt w)) = true ->
  isPlayingRef (refs w) = true ->
  ibeat i = beatDuration (Fin bpm) ->
  bpm < 0 ->
  lastNote (iscore i) = Some n ->
  time n = Fin a -> duration n = Fin b -> 0 <= a -> 0 <= b ->
  exists q,
    q <= 0
    /\ step w (IntervalFires id) = setCurrentTime (Fin q) (rearm id w)
    /\ isPlayingRef (refs (step w (IntervalFires id))) = true.
Proof.
  cbv zeta. intros Hf Hd Hup Hb Hbpm Hn Ha Hbd Ha0 Hb0.
  set (w := run initial es) in *.
  destruct (reachable_clock_ok es) as [Hctx Hclock]. fold w in Hctx, Hclock.
  destruct (audio_now w) as [t|] eqn:Hnow.
  2:{ unfold audio_now in Hnow. specialize (Hctx Hup).
      destruct (audioContextRef (refs w)); [discriminate|congruence]. }
  specialize (Hclock t eq_refl).
  destruct (beatDuration_neg bpm Hbpm) as (d & Hd' & Hdneg).
  rewrite Hd' in Hb.
  assert (Hdnz : Qeq_bool d 0 = false).
  { apply Qeq_bool_nonzero. intro E. rewrite E in Hdneg.
    exact (Qlt_irrefl 0 Hdneg). }
  set (q := Qred (Qred (t + Qred (- startTimeRef (refs w))) / d)).
  assert (He : elapsed_beats i w = Some (Fin q)).
  { unfold elapsed_beats. rewrite Hnow, Hb. cbn [sub neg add div].
    now rewrite Hdnz. }
  assert (Hq : q <= 0).
  { unfold q. rewrite !Qred_correct.
    setoid_replace ((t + - startTimeRef (refs w)) / d)
      with (- ((t - startTimeRef (refs w)) * / (- d))).
    - rewrite <- (Qopp_involutive 0). apply Qopp_le_compat.
      change (- 0) with 0. apply Qmult_le_0_compat.
      + unfold Qminus. rewrite <- (Qplus_opp_r (startTimeRef (refs w))).
        apply Qplus_le_compat; [exact Hclock|apply Qle_refl].
      + apply Qlt_le_weak, Qinv_lt_0_compat.
        rewrite <- (Qopp_involutive 0). apply Qopp_lt_compat. exact Hdneg.
    - field. intro E. rewrite E in Hdneg. exact (Qlt_irrefl 0 Hdneg). }
  exists q. split; [exact Hq|].
  rewrite (step_interval_due w id i Hf Hd).
  rewrite (progress_tick_playing i (rearm id w) (Fin q) Hup He), Hn.
  assert (Hgt : gt (Fin q) (completion_threshold n) = false).
  { unfold completion_threshold. rewrite Ha, Hbd. cbn [add of_Z gt].
    apply negb_false_iff, Qle_bool_iff. rewrite !Qred_correct.
    apply (Qle_trans _ 0); [exact Hq|].
    apply (Qle_trans _ (0 + 0 + 0)); [discriminate|].
    repeat apply Qplus_le_compat; try assumption. discriminate. }
  rewrite Hgt. split; [reflexivity|exact Hup].
Qed.

Lemma negative_tempo_never_completes_witness :
  exists q,
    q <= 0
    /\ step (run initial
               [FileChange (Some ("score.pdf"%string, true))
                  (Some ["page1"%string]);
                ClickTranscribe; Transcribed (Some backwards);
                ClickPlay; InstrumentSettled 0 true; Wait 100])
            (IntervalFires 3)
       = setCurrentTime (Fin q)
           (rearm 3
              (run initial
                 [FileChange (Some ("score.pdf"%string, true))
                    (Some ["page1"%string]);
                  ClickTranscribe; Transcribed (Some backwards);
                  ClickPlay; InstrumentSettled 0 true; Wait 100]))
    /\ isPlayingRef
         (refs (step (run initial
                        [FileChange (Some ("score.pdf"%string, true))
                           (Some ["page1"%string]);
                         ClickTranscribe; Transcribed (Some backwards);
                         ClickPlay; InstrumentSettled 0 true; Wait 100])
                     (IntervalFires 3))) = true.
Proof.
  apply (negative_tempo_never_completes
           [FileChange (Some ("score.pdf"%string, true))
              (Some ["page1"%string]);
            ClickTranscribe; Transcribed (Some backwards);
            ClickPlay; InstrumentSettled 0 true; Wait 100]
           3 (mkInterval 3 (1 # 20) (Fin (-1)) backwards)
           (note "C4" 1 1) (-60) 1 1);
    reflexivity || discriminate.
Defined.

(** ** Each trigger plays at most once *)

Lemma filter_length_le {A : Type} (f : A -> bool) (l : list A) :
  (List.length (filter f l) <= List.length l)%nat.
Proof.
  induction l as [|x l IH]; simpl; [lia|]. destruct (f x); simpl; lia.
Qed.

Lemma clear_removes_found (id : nat) (ts : list Timer) (tm : Timer) :
  find (fun t => Nat.eqb (timer_id t) id) ts = Some tm ->
  is_trigger tm = true ->
  (S (List.length
        (filter is_trigger
           (filter (fun t => negb (Nat.eqb (timer_id t) id)) ts)))
   <= List.length (filter is_trigger ts))%nat.
Proof.
  induction ts as [|x ts IH]; simpl; [discriminate|].
  destruct (Nat.eqb (timer_id x) id) eqn:E; simpl.
  - intros H Htr. injection H as ->. rewrite Htr. simpl.
    rewrite filter_twice.
    pose proof (filter_length_le
                  (fun t => negb (Nat.eqb (timer_id t) id)) 
                  (filter is_trigger ts)) as Hle.
    rewrite filter_twice in Hle.
    rewrite (filter_ext _ (fun t => is_trigger t
                                    && negb (Nat.eqb (timer_id t) id)))
      by (intros t; apply andb_comm).
    lia.
  - intros H Htr. specialize (IH H Htr).
    destruct (is_trigger x); simpl; lia.
Qed.

Lemma clear_keeps_fewer (id : nat) (ts : list Timer) :
  (List.length
     (filter is_trigger
        (filter (fun t => negb (Nat.eqb (timer_id t) id)) ts))
   <= List.length (filter is_trigger ts))%nat.
Proof.
  rewrite filter_twice.
  rewrite (filter_ext _ (fun t => is_trigger t
                                  && negb (Nat.eqb (timer_id t) id)))
    by (intros t; apply andb_comm).
  rewrite <- filter_twice. apply filter_length_le.
Qed.

Lemma played_or_pending_same (w w' : World) :
  log (rt w') = log (rt w) ->
  timers (rt w') = timers (rt w) ->
  played_or_pending w' = played_or_pending w.
Proof.
  intros Hl Ht. unfold played_or_pending, plays, pending_triggers.
  now rewrite Hl, Ht.
Qed.

Lemma stopPlayback_played_or_pending (w : World) :
  (played_or_pending (stopPlayback w) <= played_or_pending w)%nat.
Proof.
  unfold played_or_pending.
  destruct (stopPlayback_silent w) as [_ Hp]. rewrite Hp.
  unfold pending_triggers.
  destruct (stopPlayback_spec w) as (_ & _ & _ & _ & Ht & _). rewrite Ht.
  rewrite filter_twice.
  rewrite (filter_ext _
             (fun t => is_trigger t
                       && negb (in_handles (playbackTimeoutRef (refs w)) t)))
    by (intros t; apply andb_comm).
  rewrite <- filter_twice.
  pose proof (filter_length_le
                (fun t => negb (in_handles (playbackTimeoutRef (refs w)) t))
                (filter is_trigger (timers (rt w)))).
  lia.
Qed.

Lemma step_played_or_pending (w : World) (e : Event) :
  (forall k, e <> InstrumentSettled k true) ->
  (played_or_pending (step w e) <= played_or_pending w)%nat.
Proof.
  intros He.
  assert (Hsame : forall w', log (rt w') = log (rt w) ->
                             timers (rt w') = timers (rt w) ->
                  (played_or_pending w' <= played_or_pending w)%nat).
  { intros w' Hl Ht. rewrite (played_or_pending_same w w' Hl Ht). lia. }
  destruct e as [sel images| |r|res|v|ins| | |k ok|id|id|dt]; cbn [step].
  - apply Hsame; unfold handleFileChange;
      destruct sel as [[name [|]]|]; try destruct images; reflexivity.
  - destruct (file (ui w)) eqn:Hfile; [|lia].
    destruct (isProcessing (ui w)); [lia|].
    apply Hsame; unfold processFile; rewrite Hfile;
      destruct (pdfImages (ui w)); reflexivity.
  - destruct (Nat.eqb _ _); [lia|].
    apply Hsame; unfold analysis_tick; destruct (_ || _); reflexivity.
  - destruct (Nat.eqb _ _); [lia|].
    unfold played_or_pending, plays, pending_triggers.
    replace (log (rt (processFile_settled res w))) with (log (rt w))
      by (destruct res; reflexivity).
    replace (timers (rt (processFile_settled res w)))
      with (timers (rt w)
            ++ [mkTimer (nextId (rt w))
                  (Qred (now (rt w) + inject_Z 500 / 1000)) ProcessingOff])
      by (destruct res; reflexivity).
    rewrite filter_app. cbn. rewrite app_nil_r. lia.
  - apply Hsame; reflexivity.
  - apply Hsame; reflexivity.
  - destruct (score (ui w)) as [s|] eqn:Hs; [|lia].
    destruct (isPlaying (ui w)); [lia|].
    destruct (startPlayback_spec w s Hs)
      as (_ & _ & _ & _ & _ & _ & Ht & _ & _ & _ & Hl & _).
    now apply Hsame.
  - destruct (score (ui w)); [|lia].
    destruct (isPlaying (ui w)); [|lia].
    apply stopPlayback_played_or_pending.
  - destruct (nth_error _ _) as [l|]; [|lia].
    destruct ok; [now destruct (He k)|].
    apply (stopPlayback_played_or_pending (set_loads _ w)).
  - destruct (find _ _) as [tm|] eqn:Hfind; [|lia].
    destruct (Qle_bool _ _); [|lia].
    destruct (callback tm) as [p n b|] eqn:Hcb; cbn [run_callback].
    + change (isPlayingRef (refs (clearTimeout id w)))
        with (isPlayingRef (refs w)).
      assert (Htr : is_trigger tm = true)
        by (unfold is_trigger; now rewrite Hcb).
      pose proof (clear_removes_found id (timers (rt w)) tm Hfind Htr)
        as Hrem.
      destruct (isPlayingRef (refs w)); cbn [negb].
      * destruct (audio_now (clearTimeout id w));
          unfold played_or_pending, plays, pending_triggers; cbn;
          rewrite ?filter_app; cbn; rewrite ?length_app; cbn; lia.
      * unfold played_or_pending, plays, pending_triggers. cbn. lia.
    + unfold played_or_pending, plays, pending_triggers. cbn.
      pose proof (clear_keeps_fewer id (timers (rt w))). lia.
  - destruct (find _ _) as [i|]; [|lia].
    destruct (Qle_bool _ _); [|lia].
    destruct (progress_tick_cases i (rearm id w))
      as [[_ E]|[_ [(m & E)|[(x & m & E)|[(x & E)|(x & E)]]]]]; rewrite E;
      try (apply Hsame; reflexivity).
    apply (stopPlayback_played_or_pending (setCurrentTime x (rearm id w))).
  - destruct (Qle_bool _ _); [apply Hsame; reflexivity|lia].
Qed.

(** X11. No trigger plays twice.  Each note the renderer is asked to
    play uses up one pending trigger, and nothing but a resumed
    [startPlayback] creates triggers: over any run of events in which
    no instrument load completes, the notes played never outnumber the
    notes played before plus the triggers that were pending. *)
Theorem plays_bounded_by_triggers (es : list Event) (w : World) :
  no_load_completes es ->
  (List.length (plays (run w es))
   <= List.length (plays w) + List.length (pending_triggers w))%nat.
Proof.
  intros Hno.
  assert (H : (played_or_pending (run w es) <= played_or_pending w)%nat).
  { unfold run. revert w. induction es as [|e es IH]; intros w; [cbn; lia|].
    cbn [fold_left].
    assert (He : forall k, e <> InstrumentSettled k true)
      by (intros k ->; apply (Hno k); now left).
    pose proof (step_played_or_pending w e He).
    specialize (IH (fun k Hin => Hno k (or_intror Hin)) (step w e)). lia. }
  unfold played_or_pending in H. lia.
Qed.

Lemma plays_bounded_by_triggers_witness :
  (List.length
     (plays (run (run (transcribed chord)
                    [ClickPlay; InstrumentSettled 0 true])
               [TimerFires 2; TimerFires 2; Wait 1; TimerFires 4;
                TimerFires 3; TimerFires 4; TimerFires 2]))
   <= 0 + 3)%nat.
Proof.
  apply (plays_bounded_by_triggers
           [TimerFires 2; TimerFires 2; Wait 1; TimerFires 4;
            TimerFires 3; TimerFires 4; TimerFires 2]
           (run (transcribed chord) [ClickPlay; InstrumentSettled 0 true])).
  intros k. simpl. intuition discriminate.
Defined.

(** ** Handles *)

Lemma startPlayback_loaded_nextId (l : Load) (w : World) :
  nextId (rt (startPlayback_loaded l w))
  = S (S (nextId (rt w)) + List.length (notes (lscore l))).
Proof.
  unfold startPlayback_loaded. rewrite schedule_notes_spec.
  destruct w as [u [a p tr st f] [t ts ivs ls pa id lg un]]. reflexivity.
Qed.

Lemma timers_for_id_bounds player beat t0 id ns t :
  In t (timers_for player beat t0 id ns) ->
  (id <= timer_id t < id + List.length ns)%nat.
Proof.
  intros H. apply (in_map timer_id) in H.
  rewrite timers_for_ids in H. apply in_seq in H. lia.
Qed.

Lemma handles_fresh_fewer (w w' : World) :
  incl (timers (rt w')) (timers (rt w)) ->
  incl (intervals (rt w')) (intervals (rt w)) ->
  (nextId (rt w) <= nextId (rt w'))%nat ->
  handles_fresh w -> handles_fresh w'.
Proof.
  intros Ht Hi Hn [H1 H2]. split.
  - intros t Hin. specialize (H1 t (Ht t Hin)). lia.
  - intros i Hin. specialize (H2 i (Hi i Hin)). lia.
Qed.

Lemma stopPlayback_handles_fresh (w : World) :
  handles_fresh w -> handles_fresh (stopPlayback w).
Proof.
  destruct (stopPlayback_spec w) as (_ & _ & _ & _ & Ht & Hi & _).
  destruct (stopPlayback_audioContext w) as (_ & _ & _ & Hn & _).
  apply handles_fresh_fewer.
  - rewrite Ht. intros t Hin. now apply filter_In in Hin.
  - rewrite Hi. apply incl_refl.
  - rewrite Hn. lia.
Qed.

Lemma rearm_handles_fresh (id : nat) (w : World) :
  handles_fresh w -> handles_fresh (rearm id w).
Proof.
  intros [H1 H2]. split; [exact H1|].
  intros i Hin. cbn in Hin. apply in_map_iff in Hin.
  destruct Hin as (j & <- & Hj). specialize (H2 j Hj).
  destruct (Nat.eqb (interval_id j) id) eqn:E; [|exact H2].
  apply Nat.eqb_eq in E. cbn. now rewrite <- E.
Qed.

Lemma step_handles_fresh (w : World) (e : Event) :
  handles_fresh w -> handles_fresh (step w e).
Proof.
  intros H. destruct e as [sel images| |r|res|v|ins| | |k ok|id|id|dt];
    cbn [step].
  - unfold handleFileChange.
    destruct sel as [[name [|]]|]; try destruct images; exact H.
  - destruct (file (ui w)) eqn:Hfile; [|exact H].
    destruct (isProcessing (ui w)); [exact H|].
    unfold processFile. rewrite Hfile.
    destruct (pdfImages (ui w)); exact H.
  - destruct (Nat.eqb _ _); [exact H|].
    unfold analysis_tick. destruct (_ || _); exact H.
  - destruct (Nat.eqb _ _); [exact H|].
    destruct H as [H1 H2].
    assert (Hts : timers (rt (processFile_settled res w))
                  = timers (rt w)
                    ++ [mkTimer (nextId (rt w))
                          (Qred (now (rt w) + inject_Z 500 / 1000))
                          ProcessingOff])
      by (destruct res; reflexivity).
    assert (Hn : nextId (rt (processFile_settled res w)) = S (nextId (rt w)))
      by (destruct res; reflexivity).
    assert (Hi : intervals (rt (processFile_settled res w))
                 = intervals (rt w))
      by (destruct res; reflexivity).
    split.
    + intros t. rewrite Hts, Hn. intros Hin. apply in_app_or in Hin.
      destruct Hin as [Hin|[<-|[]]]; [specialize (H1 t Hin); lia|cbn; lia].
    + intros i. rewrite Hi, Hn. intros Hin. specialize (H2 i Hin). lia.
  - exact H.
  - exact H.
  - destruct (score (ui w)) as [s|] eqn:Hs; [|exact H].
    destruct (isPlaying (ui w)); [exact H|].
    unfold startPlayback. rewrite Hs.
    destruct (audioContextRef (refs w)) eqn:Ha; unfold audio_now; cbn;
      rewrite ?Ha; exact H.
  - destruct (score (ui w)); [|exact H].
    destruct (isPlaying (ui w)); [|exact H].
    now apply stopPlayback_handles_fresh.
  - destruct (nth_error _ _) as [l|]; [|exact H].
    destruct ok.
    + set (w0 := set_loads (remove_nth k (loads (rt w))) w).
      destruct (startPlayback_loaded_spec l w0) as (_ & Ht & Hi & _).
      pose proof (startPlayback_loaded_nextId l w0) as Hn.
      destruct H as [H1 H2]. split.
      * intros t. rewrite Ht, Hn. intros Hin. apply in_app_or in Hin.
        destruct Hin as [Hin|Hin].
        -- specialize (H1 t Hin). cbn in *. lia.
        -- apply timers_for_id_bounds in Hin. lia.
      * intros i. rewrite Hi, Hn. intros Hin. apply in_app_or in Hin.
        destruct Hin as [Hin|[<-|[]]].
        -- specialize (H2 i Hin). cbn in *. lia.
        -- cbn. lia.
    + apply (stopPlayback_handles_fresh (set_loads _ w)). exact H.
  - destruct (find _ _) as [tm|]; [|exact H].
    destruct (Qle_bool _ _); [|exact H].
    assert (Hc : handles_fresh (clearTimeout id w)).
    { apply (handles_fresh_fewer w); [| |cbn; lia|exact H].
      - intros x Hx. cbn in Hx. now apply filter_In in Hx.
      - apply incl_refl. }
    destruct (run_callback_cases (callback tm) (clearTimeout id w))
      as [E|[(x & E & _)|[(m & E)|E]]]; rewrite E; exact Hc.
  - destruct (find _ _) as [i|]; [|exact H].
    destruct (Qle_bool _ _); [|exact H].
    pose proof (rearm_handles_fresh id w H) as Hr.
    assert (Hclear : forall v, handles_fresh v ->
                     handles_fresh (clearInterval (interval_id i) v)).
    { intros v Hv. apply (handles_fresh_fewer v); [| |cbn; lia|exact Hv].
      - apply incl_refl.
      - intros x Hx. cbn in Hx. now apply filter_In in Hx. }
    destruct (progress_tick_cases i (rearm id w))
      as [[_ E]|[_ [(m & E)|[(x & m & E)|[(x & E)|(x & E)]]]]]; rewrite E;
      try exact Hr.
    + now apply Hclear.
    + apply Hclear.
      apply (stopPlayback_handles_fresh (setCurrentTime x (rearm id w))).
      exact Hr.
  - destruct (Qle_bool _ _); exact H.
Qed.

Lemma reachable_handles_fresh (es : list Event) :
  handles_fresh (run initial es).
Proof.
  unfold run. rewrite <- (rev_involutive es).
  induction (rev es) as [|e l IH]; [split; intros ? []|].
  cbn [rev]. rewrite fold_left_app. cbn [fold_left].
  apply step_handles_fresh. exact IH.
Qed.

(** ** A whole session *)

Lemma find_app_skip {A : Type} (f : A -> bool) (pre l : list A) :
  (forall x, In x pre -> f x = false) -> find f (pre ++ l) = find f l.
Proof.
  induction pre as [|x pre IH]; intros H; [reflexivity|].
  cbn. rewrite (H x (or_introl eq_refl)). apply IH.
  intros y Hy. apply H. now right.
Qed.

Lemma filter_keep {A : Type} (f : A -> bool) (l : list A) :
  (forall x, In x l -> f x = true) -> filter f l = l.
Proof.
  induction l as [|x l IH]; intros H; [reflexivity|].
  cbn. rewrite (H x (or_introl eq_refl)). f_equal. apply IH.
  intros y Hy. apply H. now right.
Qed.

(** The state after a Play click, [dt] seconds of loading and the
    resumed call. *)
Lemma session_scheduled (w : World) (s : Score) (dt : Q) :
  score (ui w) = Some s ->
  isPlaying (ui w) = false ->
  loads (rt w) = [] ->
  0 <= dt ->
  let w' := run w [ClickPlay; Wait dt; InstrumentSettled 0 true] in
  timers (rt w')
  = timers (rt w)
    ++ timers_for (nextId (rt w)) (beatDuration (tempo (ui w)))
         (Qred (now (rt w) + dt)) (S (nextId (rt w))) (notes s)
  /\ now (rt w') = Qred (now (rt w) + dt)
  /\ log (rt w') = log (rt w)
  /\ isPlayingRef (refs w') = true
  /\ isPlaying (ui w') = true
  /\ audioContextRef (refs w') <> None.
Proof.
  intros Hs Hp Hl Hdt. cbv zeta. unfold run. cbn [fold_left].
  assert (E1 : step w ClickPlay = startPlayback w)
    by (cbn [step]; now rewrite Hs, Hp).
  rewrite E1.
  destruct (startPlayback_spec w s Hs)
    as (Hpl & Hfl & _ & _ & _ & Hloads & Htimers & _ & _ & _ & Hlog & _).
  destruct (startPlayback_startTime w s Hs) as [Haud Hnow].
  assert (Hid : nextId (rt (startPlayback w)) = nextId (rt w)).
  { unfold startPlayback. rewrite Hs.
    destruct w as [u [a p tr st f] [t ts ivs ls pa id lg un]].
    now destruct a. }
  set (w1 := startPlayback w) in *.
  assert (E2 : step w1 (Wait dt) = set_now (Qred (now (rt w) + dt)) w1).
  { cbn [step]. apply Qle_bool_iff in Hdt. now rewrite Hdt, Hnow. }
  rewrite E2. set (w2 := set_now _ w1).
  assert (Hl2 : loads (rt w2)
                = [mkLoad s (tempo (ui w)) (instrument (ui w))])
    by (change (loads (rt w2)) with (loads (rt w1)); now rewrite Hloads, Hl).
  cbn [step]. rewrite Hl2. cbn [nth_error remove_nth firstn skipn app].
  destruct (startPlayback_loaded_spec
              (mkLoad s (tempo (ui w)) (instrument (ui w)))
              (set_loads [] w2))
    as (Hu & Ht & _ & _ & _ & Hf & _ & Ha & Hn & Hlg & _).
  cbn [lscore ltempo] in Ht. rewrite Ht, Hn, Hlg, Hf, Hu, Ha.
  change (timers (rt (set_loads [] w2))) with (timers (rt w1)).
  change (now (rt (set_loads [] w2))) with (Qred (now (rt w) + dt)).
  change (nextId (rt (set_loads [] w2))) with (nextId (rt w1)).
  change (log (rt (set_loads [] w2))) with (log (rt w1)).
  change (isPlayingRef (refs (set_loads [] w2)))
    with (isPlayingRef (refs w1)).
  change (ui (set_loads [] w2)) with (ui w1).
  change (audioContextRef (refs (set_loads [] w2)))
    with (audioContextRef (refs w1)).
  rewrite Htimers, Hid, Hlog, Hfl, Hpl. repeat split.
  unfold audio_now in Haud.
  destruct (audioContextRef (refs w1)); [discriminate|discriminate].
Qed.

Lemma NoDup_map_filter {A B : Type} (f : A -> B) (g : A -> bool)
    (l : list A) :
  NoDup (map f l) -> NoDup (map f (filter g l)).
Proof.
  induction l as [|x l IH]; cbn; [trivial|].
  intros H. inversion H as [|? ? Hn Hd]; subst.
  destruct (g x); [|now apply IH]. cbn. constructor; [|now apply IH].
  intros Hin. apply Hn. apply in_map_iff in Hin.
  destruct Hin as (y & Hy & Hin). apply filter_In in Hin.
  apply in_map_iff. exists y. now split.
Qed.

(** Clearing the handle of a pending timer removes that timer and no
    other. *)
Lemma clear_found_split (id : nat) (ts : list Timer) (tm : Timer) :
  NoDup (map timer_id ts) ->
  find (fun t => Nat.eqb (timer_id t) id) ts = Some tm ->
  exists l1 l2,
    ts = l1 ++ tm :: l2
    /\ filter (fun t => negb (Nat.eqb (timer_id t) id)) ts = l1 ++ l2.
Proof.
  induction ts as [|x ts IH]; cbn; [discriminate|].
  intros Hnd Hfind. inversion Hnd as [|? ? Hn Hd]; subst.
  destruct (Nat.eqb (timer_id x) id) eqn:E; cbn.
  - injection Hfind as ->. exists [], ts. split; [reflexivity|]. cbn.
    apply filter_keep. intros y Hy. apply negb_true_iff, Nat.eqb_neq.
    apply Nat.eqb_eq in E. intros Heq. apply Hn. rewrite E, <- Heq.
    now apply in_map.
  - destruct (IH Hd Hfind) as (l1 & l2 & E1 & E2).
    exists (x :: l1), l2. cbn. now rewrite E1 at 1; rewrite E2.
Qed.

Lemma handles_unique_fewer (g : Timer -> bool) (w w' : World) :
  timers (rt w') = filter g (timers (rt w)) ->
  handles_unique w -> handles_unique w'.
Proof.
  unfold handles_unique. intros ->. apply NoDup_map_filter.
Qed.

Lemma handles_unique_same (w w' : World) :
  timers (rt w') = timers (rt w) -> handles_unique w -> handles_unique w'.
Proof. unfold handles_unique. now intros ->. Qed.

Lemma stopPlayback_handles_unique (w : World) :
  handles_unique w -> handles_unique (stopPlayback w).
Proof.
  destruct (stopPlayback_spec w) as (_ & _ & _ & _ & Ht & _).
  exact (handles_unique_fewer _ w _ Ht).
Qed.

Lemma step_handles_unique (w : World) (e : Event) :
  handles_fresh w -> handles_unique w -> handles_unique (step w e).
Proof.
  intros [Hfresh _] H.
  destruct e as [sel images| |r|res|v|ins| | |k ok|id|id|dt]; cbn [step].
  - apply (handles_unique_same w); [|exact H]. unfold handleFileChange.
    destruct sel as [[name [|]]|]; try destruct images; reflexivity.
  - destruct (file (ui w)) eqn:Hfile; [|exact H].
    destruct (isProcessing (ui w)); [exact H|].
    apply (handles_unique_same w); [|exact H].
    unfold processFile. rewrite Hfile.
    destruct (pdfImages (ui w)); reflexivity.
  - destruct (Nat.eqb _ _); [exact H|].
    apply (handles_unique_same w); [|exact H].
    unfold analysis_tick. destruct (_ || _); reflexivity.
  - destruct (Nat.eqb _ _); [exact H|].
    unfold handles_unique.
    replace (timers (rt (processFile_settled res w)))
      with (timers (rt w)
            ++ [mkTimer (nextId (rt w))
                  (Qred (now (rt w) + inject_Z 500 / 1000)) ProcessingOff])
      by (destruct res; reflexivity).
    rewrite map_app. apply NoDup_app; [exact H|repeat constructor; intros []|].
    intros a Ha [<-|[]]. apply in_map_iff in Ha.
    destruct Ha as (t & Et & Hin). specialize (Hfresh t Hin). cbn in Et. lia.
  - exact H.
  - exact H.
  - destruct (score (ui w)) as [s|] eqn:Hs; [|exact H].
    destruct (isPlaying (ui w)); [exact H|].
    destruct (startPlayback_spec w s Hs)
      as (_ & _ & _ & _ & _ & _ & Ht & _).
    now apply (handles_unique_same w).
  - destruct (score (ui w)); [|exact H].
    destruct (isPlaying (ui w)); [|exact H].
    now apply stopPlayback_handles_unique.
  - destruct (nth_error _ _) as [l|]; [|exact H].
    destruct ok.
    + set (w0 := set_loads (remove_nth k (loads (rt w))) w).
      destruct (startPlayback_loaded_spec l w0) as (_ & Ht & _).
      unfold handles_unique. rewrite Ht, map_app, timers_for_ids.
      apply NoDup_app; [exact H|apply seq_NoDup|].
      intros a Ha Hs. apply in_seq in Hs. apply in_map_iff in Ha.
      destruct Ha as (t & Et & Hin). specialize (Hfresh t Hin).
      cbn in Hs. lia.
    + apply (stopPlayback_handles_unique (set_loads _ w)). exact H.
  - destruct (find _ _) as [tm|]; [|exact H].
    destruct (Qle_bool _ _); [|exact H].
    assert (Hc : handles_unique (clearTimeout id w))
      by (now apply (handles_unique_fewer
                       (fun t => negb (Nat.eqb (timer_id t) id)) w)).
    destruct (run_callback_cases (callback tm) (clearTimeout id w))
      as [E|[(x & E & _)|[(m & E)|E]]]; rewrite E; exact Hc.
  - destruct (find _ _) as [i|]; [|exact H].
    destruct (Qle_bool _ _); [|exact H].
    assert (Hr : handles_unique (rearm id w)) by exact H.
    destruct (progress_tick_cases i (rearm id w))
      as [[_ E]|[_ [(m & E)|[(x & m & E)|[(x & E)|(x & E)]]]]]; rewrite E;
      try exact Hr.
    apply (handles_unique_same (stopPlayback (setCurrentTime x (rearm id w))));
      [reflexivity|].
    apply stopPlayback_handles_unique. exact Hr.
  - destruct (Qle_bool _ _); exact H.
Qed.

Lemma reachable_handles_unique (es : list Event) :
  handles_unique (run initial es).
Proof.
  unfold run. rewrite <- (rev_involutive es).
  induction (rev es) as [|e l IH]; [constructor|].
  cbn [rev]. rewrite fold_left_app. cbn [fold_left].
  apply step_handles_unique; [|exact IH].
  apply (reachable_handles_fresh (rev l)).
Qed.

Lemma players_fresh_fewer (w w' : World) :
  incl (timers (rt w')) (timers (rt w)) ->
  incl (log (rt w')) (log (rt w)) ->
  (nextId (rt w) <= nextId (rt w'))%nat ->
  players_fresh w -> players_fresh w'.
Proof.
  intros Ht Hl Hn [H1 H2]. split.
  - intros t p n b Hin Hcb. specialize (H1 t p n b (Ht t Hin) Hcb). lia.
  - intros p pi a d Hin. specialize (H2 p pi a d (Hl _ Hin)). lia.
Qed.

Lemma stopPlayback_players_fresh (w : World) :
  players_fresh w -> players_fresh (stopPlayback w).
Proof.
  destruct (stopPlayback_spec w) as (_ & _ & _ & _ & Ht & _ & _ & Hl).
  destruct (stopPlayback_audioContext w) as (_ & _ & _ & Hn & _).
  intros [H1 H2]. split.
  - intros t p n b. rewrite Ht, Hn. intros Hin. apply filter_In in Hin.
    now apply H1.
  - intros p pi a d. rewrite Hl, Hn. intros Hin. apply in_app_or in Hin.
    destruct Hin as [Hin|Hin]; [now apply (H2 p pi a d)|].
    destruct (playerRef (refs w)); [destruct Hin as [Hin|[]]|destruct Hin].
    discriminate.
Qed.

Lemma timers_for_player player beat t0 id ns t :
  In t (timers_for player beat t0 id ns) ->
  exists n, In n ns /\ callback t = NoteTrigger player n beat.
Proof.
  revert id. induction ns as [|n ns IH]; intros id; cbn; [intros []|].
  intros [<-|Hin].
  - exists n. split; [now left|reflexivity].
  - destruct (IH _ Hin) as (m & Hm & Hc). exists m. split; [now right|exact Hc].
Qed.

Lemma step_players_fresh (w : World) (e : Event) :
  players_fresh w -> players_fresh (step w e).
Proof.
  intros H.
  assert (Hsame : forall w', timers (rt w') = timers (rt w) ->
                             log (rt w') = log (rt w) ->
                             nextId (rt w') = nextId (rt w) ->
                             players_fresh w').
  { intros w' Ht Hl Hn.
    apply (players_fresh_fewer w); [rewrite Ht|rewrite Hl|rewrite Hn| ];
      try apply incl_refl; [lia|exact H]. }
  destruct e as [sel images| |r|res|v|ins| | |k ok|id|id|dt]; cbn [step].
  - apply Hsame; unfold handleFileChange;
      destruct sel as [[name [|]]|]; try destruct images; reflexivity.
  - destruct (file (ui w)) eqn:Hfile; [|exact H].
    destruct (isProcessing (ui w)); [exact H|].
    apply Hsame; unfold processFile; rewrite Hfile;
      destruct (pdfImages (ui w)); reflexivity.
  - destruct (Nat.eqb _ _); [exact H|].
    apply Hsame; unfold analysis_tick; destruct (_ || _); reflexivity.
  - destruct (Nat.eqb _ _); [exact H|].
    destruct H as [H1 H2].
    assert (Hts : timers (rt (processFile_settled res w))
                  = timers (rt w)
                    ++ [mkTimer (nextId (rt w))
                          (Qred (now (rt w) + inject_Z 500 / 1000))
                          ProcessingOff])
      by (destruct res; reflexivity).
    assert (Hn : nextId (rt (processFile_settled res w)) = S (nextId (rt w)))
      by (destruct res; reflexivity).
    assert (Hl : log (rt (processFile_settled res w)) = log (rt w))
      by (destruct res; reflexivity).
    split.
    + intros t p n b. rewrite Hts, Hn. intros Hin Hcb.
      apply in_app_or in Hin.
      destruct Hin as [Hin|[<-|[]]]; [|discriminate].
      specialize (H1 t p n b Hin Hcb). lia.
    + intros p pi a d. rewrite Hl, Hn. intros Hin.
      specialize (H2 p pi a d Hin). lia.
  - now apply Hsame.
  - now apply Hsame.
  - destruct (score (ui w)) as [s|] eqn:Hs; [|exact H].
    destruct (isPlaying (ui w)); [exact H|].
    destruct (startPlayback_spec w s Hs)
      as (_ & _ & _ & _ & _ & _ & Ht & _ & _ & _ & Hl & _).
    apply Hsame; [exact Ht|exact Hl|].
    unfold startPlayback. rewrite Hs.
    destruct w as [u [a p tr st f] [t ts ivs ls pa id lg un]].
    now destruct a.
  - destruct (score (ui w)); [|exact H].
    destruct (isPlaying (ui w)); [|exact H].
    now apply stopPlayback_players_fresh.
  - destruct (nth_error _ _) as [l|]; [|exact H].
    destruct ok.
    + set (w0 := set_loads (remove_nth k (loads (rt w))) w).
      destruct (startPlayback_loaded_spec l w0)
        as (_ & Ht & _ & _ & _ & _ & _ & _ & _ & Hl & _).
      pose proof (startPlayback_loaded_nextId l w0) as Hn.
      destruct H as [H1 H2]. split.
      * intros t p n b. rewrite Ht, Hn. intros Hin Hcb.
        apply in_app_or in Hin. destruct Hin as [Hin|Hin].
        -- specialize (H1 t p n b Hin Hcb). cbn in *. lia.
        -- apply timers_for_player in Hin. destruct Hin as (m & _ & Hc).
           rewrite Hc in Hcb. injection Hcb as <- _ _. cbn. lia.
      * intros p pi a d. rewrite Hl, Hn. intros Hin.
        specialize (H2 p pi a d Hin). cbn in *. lia.
    + apply (stopPlayback_players_fresh (set_loads _ w)). exact H.
  - destruct (find _ _) as [tm|] eqn:Hfind; [|exact H].
    destruct (Qle_bool _ _); [|exact H].
    assert (Hc : players_fresh (clearTimeout id w)).
    { apply (players_fresh_fewer w); [| |cbn; lia|exact H].
      - intros x Hx. cbn in Hx. now apply filter_In in Hx.
      - apply incl_refl. }
    apply find_some in Hfind. destruct Hfind as [Hin _].
    destruct (callback tm) as [p n b|] eqn:Hcb; cbn [run_callback].
    + destruct (negb _); [exact Hc|].
      destruct (audio_now _) as [a|]; [|exact Hc].
      destruct Hc as [C1 C2]. split; [exact C1|].
      intros q pi a' d Hq. cbn in Hq. apply in_app_or in Hq.
      destruct Hq as [Hq|[Hq|[]]]; [now apply (C2 q pi a' d)|].
      injection Hq as <- _ _ _. destruct H as [H1 _].
      apply (H1 tm p n b Hin Hcb).
    + exact Hc.
  - destruct (find _ _) as [i|]; [|exact H].
    destruct (Qle_bool _ _); [|exact H].
    assert (Hr : players_fresh (rearm id w)) by exact H.
    destruct (progress_tick_cases i (rearm id w))
      as [[_ E]|[_ [(m & E)|[(x & m & E)|[(x & E)|(x & E)]]]]]; rewrite E;
      try exact Hr.
    apply (stopPlayback_players_fresh (setCurrentTime x (rearm id w))).
    exact Hr.
  - destruct (Qle_bool _ _); exact H.
Qed.

Lemma reachable_players_fresh (es : list Event) :
  players_fresh (run initial es).
Proof.
  unfold run. rewrite <- (rev_involutive es).
  induction (rev es) as [|e l IH]; [split; intros; contradiction|].
  cbn [rev]. rewrite fold_left_app. cbn [fold_left].
  apply step_players_fresh. exact IH.
Qed.

Lemma flat_map_nil {A B : Type} (f : A -> list B) (l : list A) :
  (forall x, In x l -> f x = []) -> flat_map f l = [].
Proof.
  induction l as [|x l IH]; intros H; [reflexivity|].
  cbn. rewrite (H x (or_introl eq_refl)). apply IH.
  intros y Hy. apply H. now right.
Qed.

Lemma timers_for_requests player beat t0 id ns :
  flat_map (trigger_request player) (timers_for player beat t0 id ns)
  = map (fun n => (pitch n, mul (duration n) beat)) ns.
Proof.
  revert id. induction ns as [|n ns IH]; intros id; [reflexivity|].
  cbn [timers_for flat_map map]. rewrite IH.
  unfold trigger_request. cbn [callback]. now rewrite Nat.eqb_refl.
Qed.

(** A player that does not exist yet was asked nothing and has no
    trigger pending. *)
Lemma fresh_player_requests (w : World) :
  players_fresh w ->
  played_by (nextId (rt w)) w = [] /\ pending_for (nextId (rt w)) w = [].
Proof.
  intros [H1 H2]. split; apply flat_map_nil.
  - intros [q pi a d|q] Hin; [|reflexivity]. cbn.
    specialize (H2 q pi a d Hin).
    destruct (Nat.eqb_spec q (nextId (rt w))); [lia|reflexivity].
  - intros t Hin. unfold trigger_request.
    destruct (callback t) as [q n b|] eqn:Hcb; [|reflexivity].
    specialize (H1 t q n b Hin Hcb).
    destruct (Nat.eqb_spec q (nextId (rt w))); [lia|reflexivity].
Qed.

Lemma requests_same (p : nat) (w w' : World) :
  log (rt w') = log (rt w) ->
  timers (rt w') = timers (rt w) ->
  Permutation (played_by p w' ++ pending_for p w')
              (played_by p w ++ pending_for p w).
Proof.
  intros Hl Ht. unfold played_by, pending_for. now rewrite Hl, Ht.
Qed.

(** One turn of the event loop that leaves the flag up moves a request
    from pending to played, or changes neither. *)
Lemma step_requests (p : nat) (w : World) (e : Event) :
  handles_unique w ->
  clock_ok w ->
  starts_no_session e = true ->
  isPlayingRef (refs (step w e)) = true ->
  Permutation (played_by p (step w e) ++ pending_for p (step w e))
              (played_by p w ++ pending_for p w).
Proof.
  intros Hu [Hctx _] He.
  destruct e as [sel images| |r|res|v|ins| | |k ok|id|id|dt]; cbn [step];
    try discriminate He; intros Hup.
  - apply requests_same; unfold handleFileChange;
      destruct sel as [[name [|]]|]; try destruct images; reflexivity.
  - destruct (file (ui w)) eqn:Hfile; [|reflexivity].
    destruct (isProcessing (ui w)); [reflexivity|].
    apply requests_same; unfold processFile; rewrite Hfile;
      destruct (pdfImages (ui w)); reflexivity.
  - destruct (Nat.eqb _ _); [reflexivity|].
    apply requests_same; unfold analysis_tick; destruct (_ || _); reflexivity.
  - destruct (Nat.eqb _ _); [reflexivity|].
    unfold played_by, pending_for.
    replace (log (rt (processFile_settled res w))) with (log (rt w))
      by (destruct res; reflexivity).
    replace (timers (rt (processFile_settled res w)))
      with (timers (rt w)
            ++ [mkTimer (nextId (rt w))
                  (Qred (now (rt w) + inject_Z 500 / 1000)) ProcessingOff])
      by (destruct res; reflexivity).
    rewrite flat_map_app. cbn. now rewrite !app_nil_r.
  - now apply requests_same.
  - now apply requests_same.
  - destruct (score (ui w)); [|reflexivity].
    destruct (isPlaying (ui w)); [|reflexivity].
    destruct (stopPlayback_spec w) as (_ & _ & Hf & _). congruence.
  - destruct (find _ _) as [tm|] eqn:Hfind; [|reflexivity].
    destruct (Qle_bool _ _); [|reflexivity].
    destruct (clear_found_split id (timers (rt w)) tm Hu Hfind)
      as (l1 & l2 & E1 & E2).
    destruct (callback tm) as [q n b|] eqn:Hcb; cbn [run_callback] in *.
    + change (isPlayingRef (refs (clearTimeout id w)))
        with (isPlayingRef (refs w)) in *.
      change (audio_now (clearTimeout id w)) with (audio_now w) in *.
      destruct (isPlayingRef (refs w)) eqn:Hf; cbn [negb] in *;
        [|change (isPlayingRef (refs w) = true) in Hup; congruence].
      destruct (audio_now w) as [a|] eqn:Ha.
      * unfold played_by, pending_for. cbn. rewrite E2, E1.
        rewrite !flat_map_app. cbn [flat_map]. rewrite app_nil_r.
        replace (trigger_request p tm)
          with (play_request p (Play q (pitch n) a (mul (duration n) b)))
          by (unfold trigger_request; now rewrite Hcb).
        rewrite <- app_assoc. apply Permutation_app_head.
        apply Permutation_app_swap_app.
      * exfalso. unfold audio_now in Ha.
        destruct (audioContextRef (refs w)); [discriminate|].
        now apply Hctx.
    + unfold played_by, pending_for. cbn. rewrite E2, E1.
      rewrite !flat_map_app. cbn [flat_map].
      replace (trigger_request p tm) with (@nil (string * num))
        by (unfold trigger_request; now rewrite Hcb).
      reflexivity.
  - destruct (find _ _) as [i|]; [|reflexivity].
    destruct (Qle_bool _ _); [|reflexivity].
    destruct (progress_tick_cases i (rearm id w))
      as [[_ E]|[_ [(m & E)|[(x & m & E)|[(x & E)|(x & E)]]]]];
      rewrite E in *; try (apply requests_same; reflexivity).
    exfalso.
    destruct (stopPlayback_spec (setCurrentTime x (rearm id w)))
      as (_ & _ & Hf & _).
    change (isPlayingRef
              (refs (clearInterval (interval_id i)
                       (stopPlayback (setCurrentTime x (rearm id w))))))
      with (isPlayingRef
              (refs (stopPlayback (setCurrentTime x (rearm id w))))) in Hup.
    congruence.
  - destruct (Qle_bool _ _); [apply requests_same|]; reflexivity.
Qed.

Lemma session_requests_kept (p : nat) (pre es : list Event) :
  forallb starts_no_session es = true ->
  isPlayingRef (refs (run initial (pre ++ es))) = true ->
  Permutation
    (played_by p (run initial (pre ++ es))
     ++ pending_for p (run initial (pre ++ es)))
    (played_by p (run initial pre) ++ pending_for p (run initial pre)).
Proof.
  induction es as [|e es IH] using rev_ind; intros Hes Hup.
  - rewrite app_nil_r. reflexivity.
  - rewrite forallb_app in Hes. apply andb_prop in Hes.
    destruct Hes as [Hes He]. cbn in He. rewrite andb_true_r in He.
    assert (Hstep : run initial (pre ++ es ++ [e])
                    = step (run initial (pre ++ es)) e)
      by (unfold run; now rewrite app_assoc, fold_left_app).
    rewrite Hstep in *.
    set (v := run initial (pre ++ es)) in *.
    assert (Hv : isPlayingRef (refs v) = true).
    { destruct (isPlayingRef (refs v)) eqn:Hf; [reflexivity|].
      assert (Hne : e <> ClickPlay) by (intros ->; discriminate He).
      destruct (step_silent v e Hf Hne) as [Hf' _]. congruence. }
    etransitivity; [|apply IH; assumption].
    apply step_requests; try assumption.
    + apply reachable_handles_unique.
    + apply reachable_clock_ok.
Qed.

(** X12. A whole session, whatever the order in which the event loop
    runs what is due.  From any state the component can reach in which
    a score is present and nothing is playing or loading: a Play
    click, an instrument load of any length, and then any events other
    than a further Play click (timers firing in any order, progress
    ticks, waits, slider moves, a Stop click, a new file or
    transcription).  If the flag is still up at the end, so that the
    session was neither stopped nor completed, then the requests made
    so far to the session's player together with those of its triggers
    still pending are the notes of the score, each exactly once and
    each with [note.duration * 60 / tempo] seconds, where the tempo is
    the one set at the click.  Once no trigger of the session is
    pending, the renderer has been asked to play every note exactly
    once. *)
Theorem session_plays_every_note_once
    (es0 es : list Event) (s : Score) (dt : Q) :
  let w := run initial es0 in
  let beat := beatDuration (tempo (ui w)) in
  let p := nextId (rt w) in
  score (ui w) = Some s ->
  isPlaying (ui w) = false ->
  loads (rt w) = [] ->
  0 <= dt ->
  forallb starts_no_session es = true ->
  let w' := run w ([ClickPlay; Wait dt; InstrumentSettled 0 true] ++ es) in
  isPlayingRef (refs w') = true ->
  Permutation (played_by p w' ++ pending_for p w') (score_requests beat s)
  /\ (pending_for p w' = [] ->
      Permutation (played_by p w') (score_requests beat s)).
Proof.
  cbv zeta. intros Hs Hp Hl Hdt Hes.
  set (w := run initial es0) in *.
  set (l1 := [ClickPlay; Wait dt; InstrumentSettled 0 true]).
  assert (Hrun : run w (l1 ++ es) = run initial ((es0 ++ l1) ++ es))
    by (unfold w, run; now rewrite !fold_left_app).
  rewrite Hrun. intros Hup.
  assert (H : Permutation
                (played_by (nextId (rt w)) (run initial ((es0 ++ l1) ++ es))
                 ++ pending_for (nextId (rt w))
                      (run initial ((es0 ++ l1) ++ es)))
                (score_requests (beatDuration (tempo (ui w))) s)).
  { etransitivity; [apply session_requests_kept; assumption|].
    assert (E : run initial (es0 ++ l1) = run w l1)
      by (unfold w, run; now rewrite fold_left_app).
    rewrite E.
    destruct (session_scheduled w s dt Hs Hp Hl Hdt)
      as (Ht & _ & Hlog & _).
    destruct (fresh_player_requests w (reachable_players_fresh es0))
      as [F1 F2].
    unfold played_by, pending_for in *. fold l1 in Ht, Hlog.
    rewrite Ht, Hlog, flat_map_app, F1, F2, timers_for_requests.
    reflexivity. }
  split; [exact H|]. intros Hnone. rewrite Hnone, app_nil_r in H. exact H.
Qed.

Lemma session_plays_every_note_once_witness :
  Permutation
    (played_by 1
       (run (run initial
               [FileChange (Some ("score.pdf"%string, true))
                  (Some ["page1"%string]);
                ClickTranscribe; Transcribed (Some chord);
                Wait (1 # 2); TimerFires 0])
          ([ClickPlay; Wait (1 # 2); InstrumentSettled 0 true]
           ++ [TimerFires 3; TimerFires 2]
           ++ List.concat (repeat [Wait (1 # 20); IntervalFires 5] 9)
           ++ [Wait (1 # 20); IntervalFires 5; TimerFires 4])))
    (score_requests (Fin (1 # 2)) chord).
Proof.
  assert (H0 : 0 <= 1 # 2) by discriminate.
  apply (session_plays_every_note_once
           [FileChange (Some ("score.pdf"%string, true))
              (Some ["page1"%string]);
            ClickTranscribe; Transcribed (Some chord);
            Wait (1 # 2); TimerFires 0]
           ([TimerFires 3; TimerFires 2]
            ++ List.concat (repeat [Wait (1 # 20); IntervalFires 5] 9)
            ++ [Wait (1 # 20); IntervalFires 5; TimerFires 4])
           chord (1 # 2) eq_refl eq_refl eq_refl H0 eq_refl);
    vm_compute; reflexivity.
Defined.

(** ** The busy state of a transcription *)

(** X8. The busy state outlasts the transcription by half a second.
    When [parseScoreFromImages] settles, either way, [isProcessing]
    stays up and Transcribe stays without effect; the deferred
    callback cannot run before 500 ms have passed, and when it runs it
    takes [isProcessing] down. *)
Theorem processing_ends_after_500ms
    (es : list Event) (res : option Score) :
  let w := run initial es in
  let w1 := processFile_settled res w in
  let id := nextId (rt w) in
  isProcessing (ui w) = true ->
  step w1 ClickTranscribe = w1
  /\ (forall dt, dt < 1 # 2 ->
        step (step w1 (Wait dt)) (TimerFires id) = step w1 (Wait dt))
  /\ (forall dt, 1 # 2 <= dt ->
        isProcessing (ui (run w1 [Wait dt; TimerFires id])) = false).
Proof.
  cbv zeta. intros Hbusy. set (w := run initial es) in *.
  set (w1 := processFile_settled res w).
  set (tm := mkTimer (nextId (rt w))
               (Qred (now (rt w) + inject_Z 500 / 1000)) ProcessingOff).
  assert (Hts : timers (rt w1) = timers (rt w) ++ [tm])
    by (unfold w1; destruct res; reflexivity).
  assert (Hnow : now (rt w1) = now (rt w))
    by (unfold w1; destruct res; reflexivity).
  assert (Hb1 : isProcessing (ui w1) = true)
    by (unfold w1; destruct res; exact Hbusy).
  assert (Hfind : find (fun t => Nat.eqb (timer_id t) (nextId (rt w)))
                    (timers (rt w1)) = Some tm).
  { rewrite Hts, find_app_skip.
    - cbn. now rewrite Nat.eqb_refl.
    - intros x Hx. destruct (reachable_handles_fresh es) as [Hfresh _].
      specialize (Hfresh x Hx). fold w in Hfresh.
      apply Nat.eqb_neq. lia. }
  assert (Hhalf : inject_Z 500 / 1000 == 1 # 2) by reflexivity.
  split; [|split].
  - cbn [step]. destruct (file (ui w1)); [|reflexivity]. now rewrite Hb1.
  - intros dt Hdt.
    assert (Hlate : forall v, timers (rt v) = timers (rt w1) ->
                      now (rt v) < now (rt w) + (1 # 2) ->
                      step v (TimerFires (nextId (rt w))) = v).
    { intros v Hv Hlt. cbn [step]. rewrite Hv, Hfind.
      destruct (Qle_bool (due tm) (now (rt v))) eqn:E; [|reflexivity].
      apply Qle_bool_iff in E. cbn [due tm] in E.
      rewrite Qred_correct, Hhalf in E.
      exfalso. exact (Qlt_irrefl _ (Qle_lt_trans _ _ _ E Hlt)). }
    cbn [step]. destruct (Qle_bool 0 dt).
    + apply Hlate; [reflexivity|].
      change (now (rt (set_now (Qred (now (rt w1) + dt)) w1)))
        with (Qred (now (rt w1) + dt)).
      rewrite Qred_correct, Hnow.
      apply Qplus_lt_r. exact Hdt.
    + apply Hlate; [reflexivity|]. rewrite Hnow.
      rewrite <- (Qplus_0_r (now (rt w))) at 1.
      apply Qplus_lt_r. reflexivity.
  - intros dt Hdt. unfold run. cbn [fold_left].
    assert (H0 : Qle_bool 0 dt = true).
    { apply Qle_bool_iff. apply (Qle_trans _ (1 # 2)); [discriminate|exact Hdt]. }
    cbn [step]. rewrite H0.
    change (timers (rt (set_now (Qred (now (rt w1) + dt)) w1)))
      with (timers (rt w1)).
    rewrite Hfind.
    change (now (rt (set_now (Qred (now (rt w1) + dt)) w1)))
      with (Qred (now (rt w1) + dt)).
    assert (Hd : Qle_bool (due tm) (Qred (now (rt w1) + dt)) = true).
    { apply Qle_bool_iff. cbn [due tm].
      rewrite !Qred_correct, Hhalf, Hnow.
      apply Qplus_le_compat; [apply Qle_refl|exact Hdt]. }
    rewrite Hd. reflexivity.
Qed.

Lemma processing_ends_after_500ms_witness :
  isProcessing
    (ui (run (processFile_settled None
                (run initial
                   [FileChange (Some ("score.pdf"%string, true))
                      (Some ["page1"%string]);
                    ClickTranscribe]))
           [Wait (3 # 5); TimerFires 0]))
  = false.
Proof.
  destruct (processing_ends_after_500ms
              [FileChange (Some ("score.pdf"%string, true))
                 (Some ["page1"%string]);
               ClickTranscribe] None) as (_ & _ & H).
  - reflexivity.
  - apply (H (3 # 5)). discriminate.
Defined.

(** ** Page images *)

Lemma split_on_nonempty (c : ascii) (s : string) : split_on c s <> [].
Proof.
  destruct s as [|a s]; cbn; [discriminate|].
  destruct (Ascii.eqb a c); [discriminate|].
  destruct (split_on c s); discriminate.
Qed.

Lemma split_on_no_sep (c : ascii) (s : string) :
  has_char c s = false -> split_on c s = [s].
Proof.
  induction s as [|a s IH]; cbn; [reflexivity|].
  destruct (Ascii.eqb a c); cbn; [discriminate|].
  intros H. now rewrite (IH H).
Qed.

Lemma split_on_first (c : ascii) (p q : string) :
  has_char c p = false ->
  split_on c (p ++ String c q)%string = p :: split_on c q.
Proof.
  induction p as [|a p IH]; cbn.
  - intros _. now rewrite Ascii.eqb_refl.
  - destruct (Ascii.eqb a c); cbn; [discriminate|].
    intros H. now rewrite (IH H).
Qed.

(** X13. Round trip of a page image.  [pdfToImages] keeps of a
    canvas data URL what follows its first comma, and the viewer puts
    [data:image/png;base64,] in front again: for every payload without
    a comma (as base64 text is) the payload is what is stored, and the
    [src] shown is the data URL the canvas gave.  A data URL without
    any comma stores [undefined]. *)
Theorem page_image_round_trip (b : string) :
  has_char ","%char b = false ->
  base64_of (img_src b) = Some b
  /\ (forall prefix,
         has_char ","%char prefix = false ->
         base64_of (prefix ++ String ","%char b)%string = Some b)
  /\ (forall url, has_char ","%char url = false -> base64_of url = None).
Proof.
  intros Hb.
  assert (H : forall prefix, has_char ","%char prefix = false ->
              base64_of (prefix ++ String ","%char b)%string = Some b).
  { intros prefix Hp. unfold base64_of.
    now rewrite (split_on_first _ _ _ Hp), (split_on_no_sep _ _ Hb). }
  split; [|split].
  - apply (H "data:image/png;base64"%string). reflexivity.
  - exact H.
  - intros url Hu. unfold base64_of. now rewrite (split_on_no_sep _ _ Hu).
Qed.

Lemma page_image_round_trip_witness :
  base64_of (img_src "iVBORw0KGgo=") = Some "iVBORw0KGgo="%string.
Proof.
  apply (page_image_round_trip "iVBORw0KGgo="). reflexivity.
Defined.

Lemma render_pages_spec (pages : list PageOutcome) :
  forall images,
    render_pages pages images
    = match page_failure pages with
      | Some msg => Thrown msg
      | None => Returned (images ++ map base64_of (rendered_urls pages))
      end.
Proof.
  induction pages as [|[|url|msg] pages IH]; intros images; cbn.
  - now rewrite app_nil_r.
  - apply IH.
  - rewrite IH. destruct (page_failure pages); [reflexivity|].
    now rewrite <- app_assoc.
  - reflexivity.
Qed.

Lemma rendered_urls_length (pages : list PageOutcome) :
  (List.length (rendered_urls pages) <= List.length pages)%nat.
Proof.
  induction pages as [|[|url|msg] pages IH]; cbn; lia.
Qed.

(** X14. [pdfToImages] is all or nothing.  If [getDocument] or any
    page throws, the call throws that first exception and the images
    of the pages already rendered are lost; otherwise the result holds
    exactly one entry per page that had a 2D context, in page order,
    pages without one being skipped silently, so that it can be
    shorter than the document and even empty. *)
Theorem pdfToImages_all_or_nothing (pages : list PageOutcome) :
  pdfToImages (Returned pages)
  = match page_failure pages with
    | Some msg => Thrown msg
    | None => Returned (map base64_of (rendered_urls pages))
    end
  /\ (forall images,
         pdfToImages (Returned pages) = Returned images ->
         (List.length images <= List.length pages)%nat)
  /\ (forall msg, pdfToImages (Thrown msg) = Thrown msg)
  /\ (forall before after msg,
         pages = before ++ PageFails msg :: after ->
         page_failure before = None ->
         pdfToImages (Returned pages) = Thrown msg).
Proof.
  assert (H : pdfToImages (Returned pages)
              = match page_failure pages with
                | Some msg => Thrown msg
                | None => Returned (map base64_of (rendered_urls pages))
                end)
    by (unfold pdfToImages; now rewrite render_pages_spec).
  split; [exact H|]. split; [|split].
  - intros images. rewrite H. destruct (page_failure pages); [discriminate|].
    intros E. injection E as <-. rewrite length_map.
    apply rendered_urls_length.
  - reflexivity.
  - intros before after msg -> Hb. unfold pdfToImages.
    rewrite render_pages_spec.
    replace (page_failure (before ++ PageFails msg :: after)) with (Some msg);
      [reflexivity|].
    clear H. induction before as [|[|url|m] before IH]; cbn in *;
      try (now apply IH); try reflexivity; discriminate.
Qed.

Lemma pdfToImages_all_or_nothing_witness :
  pdfToImages
    (Returned [Rendered "data:image/png;base64,AAAA"; NoContext;
               PageFails "render failed"; Rendered "data:image/png;base64,BBBB"])
  = Thrown "render failed"%string.
Proof.
  destruct (pdfToImages_all_or_nothing
              [Rendered "data:image/png;base64,AAAA"; NoContext;
               PageFails "render failed";
               Rendered "data:image/png;base64,BBBB"]) as (_ & _ & _ & H).
  apply (H [Rendered "data:image/png;base64,AAAA"; NoContext]
           [Rendered "data:image/png;base64,BBBB"] "render failed"%string);
    reflexivity.
Defined.

(** ** The transcription request *)

(** X15. What the transcription service is asked.  [processFile]
    consults it only with a request made of every page image of the
    chosen PDF, in page order and as [image/png], followed by the one
    prompt, and never with no image at all: two services that answer
    alike on such requests make [processFile] behave alike. *)
Theorem service_sees_all_pages_then_prompt
    (g1 g2 : list Part -> Outcome (option string))
    (parse : string -> Outcome Score) (w : World) :
  ((forall img rest,
       g1 (request_parts (img :: rest)) = g2 (request_parts (img :: rest))) ->
   processFile_whole g1 parse w = processFile_whole g2 parse w)
  /\ (forall imgs,
         List.length (request_parts imgs) = S (List.length imgs)
         /\ nth_error (request_parts imgs) (List.length imgs)
            = Some (TextPart transcribe_prompt)
         /\ (forall k img,
                nth_error imgs k = Some img ->
                nth_error (request_parts imgs) k
                = Some (InlineData "image/png" img))).
Proof.
  split.
  - intros H. unfold processFile_whole, parseScoreFromImages.
    destruct (file (ui w)); [|reflexivity].
    destruct (pdfImages (ui w)) as [|img rest]; [reflexivity|].
    now rewrite (H img rest).
  - intros imgs. unfold request_parts, imageParts. split; [|split].
    + rewrite length_app, length_map. cbn. lia.
    + rewrite nth_error_app2; rewrite length_map; [|lia].
      now rewrite Nat.sub_diag.
    + intros k img Hk. rewrite nth_error_app1.
      * now apply map_nth_error.
      * rewrite length_map. apply nth_error_Some. congruence.
Qed.

Lemma service_sees_all_pages_then_prompt_witness :
  processFile_whole
    (fun parts => match parts with
                  | [_] => Thrown "empty request"%string
                  | _ => Returned None
                  end)
    (fun _ => Returned chord)
    (handleFileChange (Some ("a.pdf"%string, true))
       (Some ["p1"%string; "p2"%string]) initial)
  = processFile_whole
      (fun _ => Returned None)
      (fun _ => Returned chord)
      (handleFileChange (Some ("a.pdf"%string, true))
         (Some ["p1"%string; "p2"%string]) initial).
Proof.
  apply (proj1 (service_sees_all_pages_then_prompt _ _ _ _)).
  intros img rest. destruct rest; reflexivity.
Defined.

(** X16. Failures of a transcription look alike.  A response without
    text, or with the empty string as text, is a failure before any
    JSON is parsed; and whatever makes [parseScoreFromImages] throw
    (the request, a missing text, the parser), [processFile], in
    whatever state it resumes, keeps the score and the tempo of that
    state and shows the one message
    "Failed to process PDF. Please try again.".  It does not touch the
    simulated progress, which stays where the ticks have brought it,
    and the busy state stays as it is until the deferred callback
    runs. *)
Theorem transcription_failures_look_alike
    (generateContent : list Part -> Outcome (option string))
    (JSON_parse : string -> Outcome Score)
    (imgs : list string) (v : World) :
  (generateContent (request_parts imgs) = Returned None
   \/ generateContent (request_parts imgs) = Returned (Some EmptyString) ->
   parseScoreFromImages generateContent JSON_parse imgs
   = Thrown "No response from Gemini"%string)
  /\ (forall msg,
         parseScoreFromImages generateContent JSON_parse imgs = Thrown msg ->
         let v' := processFile_resumed generateContent JSON_parse imgs v in
         score (ui v') = score (ui v)
         /\ tempo (ui v') = tempo (ui v)
         /\ error (ui v')
            = Some "Failed to process PDF. Please try again."%string
         /\ analysisProgress (ui v') = analysisProgress (ui v)
         /\ isProcessing (ui v') = isProcessing (ui v)
         /\ timers (rt v')
            = timers (rt v)
              ++ [mkTimer (nextId (rt v)) (Qred (now (rt v) + 500 / 1000))
                    ProcessingOff]
         /\ (parsing (rt v) <> 0%nat -> step v (Transcribed None) = v')).
Proof.
  split.
  - intros [H|H]; unfold parseScoreFromImages; now rewrite H.
  - intros msg Hthrown. cbv zeta.
    unfold processFile_resumed. rewrite Hthrown.
    repeat split. intros Hp. cbn [step].
    destruct (parsing (rt v)); [congruence|reflexivity].
Qed.

Lemma transcription_failures_look_alike_witness :
  analysisProgress
    (ui (processFile_resumed
           (fun _ => Returned (Some "{bad json"%string))
           (fun _ => Thrown "SyntaxError"%string)
           ["page1"%string]
           (run (transcribed chord)
              [Wait (1 # 2); TimerFires 0; ClickTranscribe;
               AnalysisTick (1 # 2)])))
  = of_Z 5
  /\ score
       (ui (processFile_resumed
              (fun _ => Returned (Some "{bad json"%string))
              (fun _ => Thrown "SyntaxError"%string)
              ["page1"%string]
              (run (transcribed chord)
                 [Wait (1 # 2); TimerFires 0; ClickTranscribe;
                  AnalysisTick (1 # 2)])))
     = Some chord.
Proof.
  destruct (transcription_failures_look_alike
              (fun _ => Returned (Some "{bad json"%string))
              (fun _ => Thrown "SyntaxError"%string)
              ["page1"%string]
              (run (transcribed chord)
                 [Wait (1 # 2); TimerFires 0; ClickTranscribe;
                  AnalysisTick (1 # 2)])) as [_ H].
  destruct (H "SyntaxError"%string eq_refl) as (H1 & _ & _ & H4 & _).
  split; [rewrite H4; reflexivity|rewrite H1; reflexivity].
Defined.

(** ** The visualizer *)

(** X17. The window of the visualizer.  For a finite start beat and
    position, the bar of a note is rendered exactly when the note
    starts no more than 1.5 beats before and no more than 4.5 beats
    after the current position. *)
Theorem note_window (n : Note) (t c : Q) :
  time n = Fin t ->
  (note_drawn n (Fin c) = true <-> - (3 # 2) <= t - c /\ t - c <= 9 # 2).
Proof.
  intros Ht. unfold note_drawn, xPos. rewrite Ht.
  cbn [sub neg add mul of_Z gt].
  rewrite negb_orb, !negb_involutive, andb_true_iff, !Qle_bool_iff.
  rewrite !Qred_correct. unfold inject_Z. split; intros [H1 H2]; split; lra.
Qed.

Lemma note_window_witness :
  note_drawn (note "E4" 6 1) (Fin 2) = true <->
  - (3 # 2) <= 6 - 2 /\ 6 - 2 <= 9 # 2.
Proof.
  apply (note_window (note "E4" 6 1) 6 2). reflexivity.
Defined.

(** X18. Which notes are shown as sounding.  For finite fields a note
    is highlighted exactly while the position lies between its start
    and its end, both included.  After [stopPlayback] the position is
    0, so the notes that start at beat 0 (or before) and do not end
    before it stay highlighted while nothing plays. *)
Theorem highlight_between_start_and_end (n : Note) (t d : Q) :
  time n = Fin t ->
  duration n = Fin d ->
  (forall c, note_active n (Fin c) = true <-> t <= c /\ c <= t + d)
  /\ (forall w,
         note_active n (currentTime (ui (stopPlayback w))) = true
         <-> t <= 0 /\ 0 <= t + d).
Proof.
  intros Ht Hd.
  assert (H : forall c, note_active n (Fin c) = true <-> t <= c /\ c <= t + d).
  { intros c. unfold note_active. rewrite Ht, Hd. cbn [add num_ge].
    rewrite andb_true_iff, !Qle_bool_iff, Qred_correct. reflexivity. }
  split; [exact H|].
  intros w. destruct (stopPlayback_spec w) as (_ & Hc & _).
  rewrite Hc. apply (H 0).
Qed.

Lemma highlight_between_start_and_end_witness :
  note_active (note "C4" 0 1)
    (currentTime (ui (stopPlayback (transcribed chord)))) = true.
Proof.
  apply (proj2 (highlight_between_start_and_end (note "C4" 0 1) 0 1
                  eq_refl eq_refl)).
  split; discriminate.
Defined.

Lemma slice_last_app (c d : ascii) (m : string) :
  slice_last (String c (m ++ String d EmptyString)) = String d EmptyString.
Proof.
  revert c. induction m as [|a m IH]; intros c; [reflexivity|].
  cbn [append]. change (slice_last (String c (String a (m ++ String d "")%string)))
    with (slice_last (String a (m ++ String d "")%string)).
  apply IH.
Qed.

(** X19. The height of a note's bar depends only on the first and
    the last character of its pitch name: a sharp or flat in between
    is ignored, so [F#3] is drawn on the line of [F3].  With an octave
    digit [k] at the end the top is
    [3 * (72 - (code + 12 * k)) + 80] pixels, [code] being the
    character code of the letter; with anything else at the end it is
    [NaN]. *)
Theorem pitch_top_ignores_accidentals (c d : ascii) (m : string) :
  pitch_top (String c (m ++ String d EmptyString))
  = pitch_top (String c (String d EmptyString))
  /\ (is_digit d = true ->
      num_eq (pitch_top (String c (m ++ String d EmptyString)))
             (Fin (inject_Z
                     (3 * (72 - (Z.of_nat (nat_of_ascii c)
                                 + 12 * (Z.of_nat (nat_of_ascii d) - 48)))
                      + 80))))
  /\ (is_digit d = false ->
      pitch_top (String c (m ++ String d EmptyString)) = NaN).
Proof.
  assert (H : pitch_top (String c (m ++ String d EmptyString))
              = pitch_top (String c (String d EmptyString))).
  { unfold pitch_top. rewrite slice_last_app. reflexivity. }
  split; [exact H|]. rewrite H. unfold pitch_top.
  cbn [slice_last charCodeAt0 parseInt_char]. split; intros Hd; rewrite Hd.
  - cbn [mul add sub neg of_Z num_eq]. rewrite !Qred_correct.
    unfold Z.sub.
    repeat (rewrite inject_Z_plus || rewrite inject_Z_mult
            || rewrite inject_Z_opp).
    ring.
  - reflexivity.
Qed.

Lemma pitch_top_ignores_accidentals_witness :
  num_eq (pitch_top "F#3") (Fin (inject_Z (-22)))
  /\ pitch_top "F#3" = pitch_top "F3".
Proof.
  destruct (pitch_top_ignores_accidentals "F"%char "3"%char "#")
    as (H0 & H & _).
  split; [exact (H eq_refl)|exact H0].
Defined.

(** X20. Status and highlight of a row in the note table of the
    earlier version of the component.  For finite fields a row whose
    status is ACTIVE is highlighted, and a highlighted row is never
    PAST; but at the very start of a note the row is highlighted while
    its status still reads PENDING. *)
Theorem status_and_highlight (n : Note) (t d c : Q) :
  time n = Fin t ->
  duration n = Fin d ->
  (note_status n (Fin c) = ACTIVE -> note_active n (Fin c) = true)
  /\ (note_active n (Fin c) = true -> note_status n (Fin c) <> PAST)
  /\ (c == t -> 0 <= d ->
      note_active n (Fin c) = true /\ note_status n (Fin c) = PENDING).
Proof.
  intros Ht Hd. unfold note_status, note_active. rewrite Ht, Hd.
  cbn [add gt num_ge].
  assert (Ha : Qle_bool t c && Qle_bool c (Qred (t + d)) = true
               <-> t <= c /\ c <= t + d)
    by (rewrite andb_true_iff, !Qle_bool_iff, Qred_correct; reflexivity).
  rewrite !Ha. clear Ha.
  assert (Hyes : forall x y, x <= y -> Qle_bool x y = true)
    by (intros x y; apply Qle_bool_iff).
  assert (Hno : forall x y, y < x -> Qle_bool x y = false).
  { intros x y Hlt. destruct (Qle_bool x y) eqn:E; [|reflexivity].
    apply Qle_bool_iff in E. lra. }
  destruct (Qlt_le_dec (t + d) c) as [L1|L1];
    destruct (Qlt_le_dec t c) as [L2|L2].
  - rewrite (Hno c (Qred (t + d))) by (rewrite Qred_correct; exact L1).
    cbn [negb]. repeat split; try discriminate; try lra.
  - rewrite (Hno c (Qred (t + d))) by (rewrite Qred_correct; exact L1).
    cbn [negb]. repeat split; try discriminate; try lra.
  - rewrite (Hyes c (Qred (t + d))) by (rewrite Qred_correct; exact L1).
    rewrite (Hno c t L2). cbn [negb].
    repeat split; try discriminate; try lra.
  - rewrite (Hyes c (Qred (t + d))) by (rewrite Qred_correct; exact L1).
    rewrite (Hyes c t L2). cbn [negb].
    repeat split; try discriminate; try lra.
Qed.

Lemma status_and_highlight_witness :
  note_active (note "G4" 1 1) (Fin 1) = true
  /\ note_status (note "G4" 1 1) (Fin 1) = PENDING.
Proof.
  apply (proj2 (proj2 (status_and_highlight (note "G4" 1 1) 1 1 1
                         eq_refl eq_refl)));
    [reflexivity|discriminate].
Defined.

(** ** A load that fails, and a quick restart *)

(** X21. An instrument that fails to load.  From a state with a score
    and nothing playing or loading, a Play click followed by the
    rejection of the instrument load brings the component back to the
    idle state (not playing, flag down, position 0) with no trigger
    and no interval added and nothing played; and the failure is not
    shown to the user: the [error] cell is left as it was (the
    exception is only logged). *)
Theorem load_failure_is_silent (w : World) (s : Score) (dt : Q) :
  score (ui w) = Some s ->
  isPlaying (ui w) = false ->
  loads (rt w) = [] ->
  0 <= dt ->
  let w' := run w [ClickPlay; Wait dt; InstrumentSettled 0 false] in
  idle_at_zero w'
  /\ error (ui w') = error (ui w)
  /\ score (ui w') = Some s
  /\ loads (rt w') = []
  /\ incl (timers (rt w')) (timers (rt w))
  /\ intervals (rt w') = intervals (rt w)
  /\ plays w' = plays w.
Proof.
  intros Hs Hp Hl Hdt. cbv zeta. unfold run. cbn [fold_left].
  assert (E1 : step w ClickPlay = startPlayback w)
    by (cbn [step]; now rewrite Hs, Hp).
  rewrite E1.
  destruct (startPlayback_spec w s Hs)
    as (_ & _ & Herr & _ & Hsc & Hloads & Htimers & Hint & _ & _ & Hlog & _).
  set (w1 := startPlayback w) in *.
  assert (E2 : step w1 (Wait dt) = set_now (Qred (now (rt w1) + dt)) w1).
  { cbn [step]. apply Qle_bool_iff in Hdt. now rewrite Hdt. }
  rewrite E2. set (w2 := set_now _ w1).
  assert (Hl2 : loads (rt w2)
                = [mkLoad s (tempo (ui w)) (instrument (ui w))])
    by (change (loads (rt w2)) with (loads (rt w1)); now rewrite Hloads, Hl).
  cbn [step]. rewrite Hl2. cbn [nth_error remove_nth firstn skipn app].
  unfold startPlayback_failed. set (w3 := set_loads [] w2).
  destruct (stopPlayback_spec w3) as (_ & _ & _ & _ & Ht & Hi & Hld & _).
  destruct (stopPlayback_audioContext w3)
    as (_ & _ & _ & _ & _ & Hsc3 & _ & Herr3).
  destruct (stopPlayback_silent w3) as [_ Hpl].
  split; [apply stopPlayback_idle|].
  rewrite Herr3, Hsc3, Hld, Ht, Hi, Hpl.
  change (error (ui w3)) with (error (ui w1)).
  change (score (ui w3)) with (score (ui w1)).
  change (timers (rt w3)) with (timers (rt w1)).
  change (intervals (rt w3)) with (intervals (rt w1)).
  change (plays w3) with (filter is_play (log (rt w1))).
  rewrite Herr, Hsc, Hs, Htimers, Hint, Hlog. repeat split.
  intros t Hin. now apply filter_In in Hin.
Qed.

Lemma load_failure_is_silent_witness :
  error (ui (run (transcribed chord)
               [ClickPlay; Wait 3; InstrumentSettled 0 false]))
  = None
  /\ isPlaying (ui (run (transcribed chord)
                      [ClickPlay; Wait 3; InstrumentSettled 0 false]))
     = false.
Proof.
  destruct (load_failure_is_silent (transcribed chord) chord 3)
    as ((_ & Hp & _) & He & _); try reflexivity; try discriminate.
  split; [exact He|exact Hp].
Defined.

(** X22. [stopPlayback] does not clear the progress interval: a
    stopped session's interval goes away only at its own next tick,
    when it finds the flag down.  If Play is clicked before that tick,
    the flag is up again and the old interval keeps running in the new
    session, with the score and the beat duration it captured. *)
Theorem interval_survives_quick_restart
    (w : World) (s : Score) (id : nat) (i : Interval) :
  find (fun i => Nat.eqb (interval_id i) id) (intervals (rt w)) = Some i ->
  score (ui w) = Some s ->
  isPlaying (ui w) = true ->
  intervals (rt (stopPlayback w)) = intervals (rt w)
  /\ (let w' := run w [ClickStop; ClickPlay] in
      find (fun i => Nat.eqb (interval_id i) id) (intervals (rt w'))
      = Some i
      /\ isPlayingRef (refs w') = true
      /\ isPlaying (ui w') = true)
  /\ (forall dt,
         0 <= dt ->
         Qle_bool (next_due i) (Qred (now (rt w) + dt)) = true ->
         find (fun i => Nat.eqb (interval_id i) id)
              (intervals (rt (run w [ClickStop; Wait dt; IntervalFires id])))
         = None).
Proof.
  intros Hf Hs Hp.
  destruct (stopPlayback_spec w) as (Hp1 & _ & Hf1 & _ & _ & Hi & _).
  destruct (stopPlayback_audioContext w)
    as (_ & _ & _ & _ & Hnow & Hsc & _).
  assert (E1 : step w ClickStop = stopPlayback w)
    by (cbn [step]; now rewrite Hs, Hp).
  split; [exact Hi|]. split.
  - cbv zeta. unfold run. cbn [fold_left]. rewrite E1.
    assert (E2 : step (stopPlayback w) ClickPlay
                 = startPlayback (stopPlayback w))
      by (cbn [step]; now rewrite Hsc, Hs, Hp1).
    rewrite E2.
    destruct (startPlayback_spec (stopPlayback w) s)
      as (H1 & H2 & _ & _ & _ & _ & _ & Hint & _); [congruence|].
    rewrite Hint, Hi. repeat split; assumption.
  - intros dt Hdt Hdue. unfold run. cbn [fold_left]. rewrite E1.
    set (w1 := stopPlayback w) in *.
    assert (E2 : step w1 (Wait dt) = set_now (Qred (now (rt w1) + dt)) w1).
    { cbn [step]. apply Qle_bool_iff in Hdt. now rewrite Hdt. }
    rewrite E2. cbn [step].
    change (intervals (rt (set_now (Qred (now (rt w1) + dt)) w1)))
      with (intervals (rt w1)).
    change (now (rt (set_now (Qred (now (rt w1) + dt)) w1)))
      with (Qred (now (rt w1) + dt)).
    rewrite Hi, Hf, Hnow, Hdue.
    unfold progress_tick.
    change (isPlayingRef
              (refs (rearm id (set_now (Qred (now (rt w) + dt)) w1))))
      with (isPlayingRef (refs w1)).
    rewrite Hf1. cbn [negb].
    rewrite (find_interval_id _ _ _ Hf). apply find_cleared.
Qed.

Lemma interval_survives_quick_restart_witness :
  map interval_id
    (intervals
       (rt (run (run (transcribed chord) [ClickPlay; InstrumentSettled 0 true])
              [ClickStop; ClickPlay])))
  = [5%nat]
  /\ isPlayingRef
       (refs (run (run (transcribed chord)
                     [ClickPlay; InstrumentSettled 0 true])
                [ClickStop; ClickPlay]))
     = true.
Proof.
  destruct (interval_survives_quick_restart
              (run (transcribed chord) [ClickPlay; InstrumentSettled 0 true])
              chord 5 (mkInterval 5 (1 # 20) (Fin (1 # 2)) chord))
    as (_ & (_ & Hup & _) & _); try reflexivity.
  split; [reflexivity|exact Hup].
Defined.

(** ** Witnesses for the scheduling lemmas *)

Lemma load_time_shifts_triggers_witness :
  exists a,
    audio_now (run (transcribed chord)
                 [ClickPlay; Wait 1; InstrumentSettled 0 true]) = Some a
    /\ a == startTimeRef
              (refs (run (transcribed chord)
                       [ClickPlay; Wait 1; InstrumentSettled 0 true])) + 1.
Proof.
  assert (H01 : 0 <= 1) by discriminate.
  destruct (load_time_shifts_triggers (transcribed chord) chord 1
              eq_refl eq_refl eq_refl H01)
    as (added & _ & _ & _ & _ & _ & _ & H).
  exact H.
Defined.

